(** * Versioned resume store: section diff and version protocol

    A shallow embedding of the versioning core of the resume builder:
    - [src/lib/diff.ts]                     ([diffSections], [deepEqual],
                                             [generateChangeSummary]);
    - [models/Resume.ts], [models/ResumeVersion.ts]   (the two collections);
    - [app/api/resumes/route.ts]            (POST: create; GET: the grouping
                                             of the list by meta code);
    - [app/api/resumes/[id]/route.ts]       (PUT: replace, PATCH: partial update,
                                             GET, DELETE);
    - [app/api/resumes/upload/route.ts]     (POST: ingest by meta code);
    - [app/api/resumes/[id]/versions/route.ts] (POST: rollback, GET: the
                                             version list and one version);
    and of what surrounds it:
    - [models/Generation.ts], [app/api/generate/route.ts] (POST: queue a job);
    - [lib/filename.ts]                     ([generateOutputFilename]);
    - [migrations/runner.ts], [migrations/001_initial_schema.ts],
      [migrations/002_add_edit_tracking.ts].

    JSON payloads are trees; a JS object is the list of its own enumerable
    properties in enumeration order (keys of a JS object are unique, see
    [wf_json]).  Route handlers are programs over the store's operations, so
    that the same handler text can be run alone (with a store call that may
    fail) or interleaved with another request. *)

From Stdlib Require Import List String Ascii Bool Arith ZArith Lia.
From Stdlib Require Import DecimalString.
Import ListNotations.
Open Scope string_scope.

(* ================================================================= *)
(** ** JSON values *)

(** The values [req.json()] and the store hand to the handlers.  Numbers
    are compared by [===] only; they are embedded as integers. *)

#[local] Unset Elimination Schemes.
Inductive json : Type :=
| JNull
| JBool (b : bool)
| JNum (n : Z)
| JStr (s : string)
| JArr (items : list json)
| JObj (props : list (string * json)).

#[local] Set Elimination Schemes.

(** A section map: [Record<string, any>]. *)
Definition smap := list (string * json).

Section JsonInduction.
Variable P : json -> Prop.
Hypothesis Hnull : P JNull.
Hypothesis Hbool : forall b, P (JBool b).
Hypothesis Hnum : forall n, P (JNum n).
Hypothesis Hstr : forall s, P (JStr s).
Hypothesis Harr : forall items, Forall P items -> P (JArr items).
Hypothesis Hobj : forall props, Forall (fun kv => P (snd kv)) props -> P (JObj props).

Fixpoint json_nested_ind (v : json) : P v :=
  match v with
  | JNull => Hnull
  | JBool b => Hbool b
  | JNum n => Hnum n
  | JStr s => Hstr s
  | JArr items =>
      Harr items
        ((fix go (l : list json) : Forall P l :=
            match l with
            | [] => Forall_nil P
            | x :: t => Forall_cons x (json_nested_ind x) (go t)
            end) items)
  | JObj props =>
      Hobj props
        ((fix go (l : list (string * json)) : Forall (fun kv => P (snd kv)) l :=
            match l with
            | [] => Forall_nil _
            | kv :: t => Forall_cons kv (json_nested_ind (snd kv)) (go t)
            end) props)
  end.
End JsonInduction.

(** [Object.keys(o)] of a plain object. *)
Definition keys (m : smap) : list string := map fst m.

(** Own property of a plain object. *)
Fixpoint own (m : smap) (k : string) : option json :=
  match m with
  | [] => None
  | (k', v) :: t => if String.eqb k k' then Some v else own t k
  end.

(** Keys of a JS object are unique, at every depth. *)
Fixpoint wf_json (v : json) : Prop :=
  match v with
  | JArr items => (fix all (l : list json) : Prop :=
                     match l with [] => True | x :: t => wf_json x /\ all t end) items
  | JObj props => NoDup (map fst props) /\
                  (fix all (l : list (string * json)) : Prop :=
                     match l with [] => True | kv :: t => wf_json (snd kv) /\ all t end) props
  | _ => True
  end.

Definition wf_smap (m : smap) : Prop := wf_json (JObj m).

(** The decimal rendering of a natural number, as a template literal
    prints it. *)
Definition nat_to_string (n : nat) : string :=
  NilZero.string_of_uint (Nat.to_uint n).

(** A property key that is a canonical array index ("0", "1", "10", ...). *)
Definition array_index (k : string) : option nat :=
  match NilZero.uint_of_string k with
  | Some u => let n := Nat.of_uint u in
              if String.eqb (nat_to_string n) k then Some n else None
  | None => None
  end.

(** [b[key]] for [b] an object or an array; [None] is [undefined].
    Besides own properties an object answers [__proto__] with
    [Object.prototype] and an array with [Array.prototype]; both have no
    enumerable keys, the second is an array of length 0, so [deepEqual]
    cannot tell them from [{}] and [[]].  Every other inherited property is
    a function, which [deepEqual] never equates with a JSON value, exactly
    as it never equates [undefined] with one. *)
Definition js_get (b : json) (k : string) : option json :=
  match b with
  | JObj m =>
      match own m k with
      | Some v => Some v
      | None => if String.eqb k "__proto__" then Some (JObj []) else None
      end
  | JArr l =>
      if String.eqb k "length" then Some (JNum (Z.of_nat (List.length l)))
      else match array_index k with
           | Some i => nth_error l i
           | None => if String.eqb k "__proto__" then Some (JArr []) else None
           end
  | _ => None
  end.

(* ================================================================= *)
(** ** lib/diff.ts *)

(** [deepEqual(a, b)] with [a] a value and [b] possibly [undefined].
    [a === b] decides the primitives; on two references to one object it
    answers [true] at once, which is also what the walk below answers
    ([deepEqual_refl]).  The array branch refuses a [b] that is not an
    array; the object branch only compares the numbers of keys and then
    looks every key of [a] up in [b].  For [key] in [Object.keys(a)],
    [a[key]] is the value listed under [key], keys being unique. *)
Fixpoint deepEqual (a : json) (b : option json) {struct a} : bool :=
  match b with
  | None => false                                   (* b === undefined *)
  | Some b =>
      match a, b with
      | JNull, JNull => true                        (* a === b *)
      | JNull, _ => false                           (* a === null *)
      | _, JNull => false                           (* b === null *)
      | JBool x, JBool y => Bool.eqb x y
      | JNum x, JNum y => Z.eqb x y
      | JStr x, JStr y => String.eqb x y
      | JArr la, JArr lb =>
          Nat.eqb (List.length la) (List.length lb) &&
          (fix every (l : list json) (i : nat) {struct l} : bool :=
             match l with
             | [] => true
             | val :: t => deepEqual val (nth_error lb i) && every t (S i)
             end) la 0
      | JArr _, _ => false                          (* typeof / !Array.isArray(b) *)
      | JObj ma, JObj mb =>
          Nat.eqb (List.length ma) (List.length mb) &&
          forallb (fun kv => deepEqual (snd kv) (js_get b (fst kv))) ma
      | JObj ma, JArr lb =>
          Nat.eqb (List.length ma) (List.length lb) &&
          forallb (fun kv => deepEqual (snd kv) (js_get b (fst kv))) ma
      | _, _ => false                               (* typeof a !== typeof b *)
      end
  end.

(** [deepEqual(oldVal, newVal)] as [diffSections] calls it: either side may
    be [undefined]. *)
Definition deepEqual_u (a b : option json) : bool :=
  match a with
  | None => match b with None => true | Some _ => false end
  | Some a => deepEqual a b
  end.

(** [new Set([...xs])]: first occurrences, in order. *)
Fixpoint set_of (seen xs : list string) : list string :=
  match xs with
  | [] => []
  | x :: t => if existsb (String.eqb x) seen then set_of seen t
              else x :: set_of (x :: seen) t
  end.

Definition diffSections (oldData : option smap) (newData : smap) : list string :=
  match oldData with
  | None => keys newData
  | Some old =>
      let allKeys := set_of [] (keys old ++ keys newData) in
      filter (fun key =>
                negb (deepEqual_u (js_get (JObj old) key) (js_get (JObj newData) key)))
             allKeys
  end.

Fixpoint join (sep : string) (l : list string) : string :=
  match l with
  | [] => ""
  | [x] => x
  | x :: t => x ++ sep ++ join sep t
  end.

Definition generateChangeSummary (changedSections : list string) : string :=
  match changedSections with
  | [] => "No changes detected"
  | [x] => "Updated " ++ x
  | _ => if Nat.leb (List.length changedSections) 3
         then "Updated " ++ join ", " changedSections
         else "Updated " ++ nat_to_string (List.length changedSections) ++ " sections"
  end.

(* ================================================================= *)
(** ** models/Resume.ts, models/ResumeVersion.ts *)

Module Resume.
Record t := mk {
  _id : nat;
  meta_code : string;
  title : string;
  data : smap;
  current_version : nat
}.
Definition set_data (r : t) (d : smap) : t :=
  mk (_id r) (meta_code r) (title r) d (current_version r).
Definition set_current_version (r : t) (n : nat) : t :=
  mk (_id r) (meta_code r) (title r) (data r) n.
Definition set_title (r : t) (x : string) : t :=
  mk (_id r) (meta_code r) x (data r) (current_version r).
Definition set_meta_code (r : t) (x : string) : t :=
  mk (_id r) x (title r) (data r) (current_version r).
End Resume.

Inductive ChangeType := edit | upload | rollback.

Module ResumeVersion.
Record t := mk {
  resume_id : nat;
  version_number : nat;
  data : smap;
  changed_sections : list string;        (* default: [] *)
  change_summary : option string;        (* optional *)
  change_type : ChangeType               (* default: 'edit' *)
}.
End ResumeVersion.

(** The two collections.  [next_id] stands for the generator of fresh
    [_id]s. *)
Record Store := mkStore {
  resumes : list Resume.t;
  versions : list ResumeVersion.t;
  next_id : nat
}.

(* ================================================================= *)
(** ** Store operations and handler programs *)

Inductive DbError :=
| DuplicateKey        (* E11000 on the unique index (resume_id, version_number) *)
| DocumentNotFound    (* save() of a document that is no longer stored *)
| StoreUnavailable.   (* any other failure of a store call *)

Inductive DbOp : Type -> Type :=
| Resume_findById (id : nat) : DbOp (option Resume.t)
| Resume_findOne (meta_code : string) : DbOp (option Resume.t)
| Resume_create (meta_code title : string) (data : smap) (current_version : nat)
    : DbOp Resume.t
| Resume_save (doc : Resume.t) : DbOp unit
| ResumeVersion_findOne (resume_id version_number : nat) : DbOp (option ResumeVersion.t)
| ResumeVersion_create (v : ResumeVersion.t) : DbOp unit.

(** A handler: straight-line code between [await]s of store calls. *)
Inductive Prog (A : Type) : Type :=
| Ret (a : A)
| Await {X : Type} (op : DbOp X) (k : X -> Prog A).
Arguments Ret {A} a.
Arguments Await {A X} op k.

Notation "'await' x <- op ;; k" := (Await op (fun x => k))
  (at level 61, x name, op at next level, right associativity).

Definition find_resume (id : nat) (l : list Resume.t) : option Resume.t :=
  find (fun r => Nat.eqb (Resume._id r) id) l.

Definition find_by_code (c : string) (l : list Resume.t) : option Resume.t :=
  find (fun r => String.eqb (Resume.meta_code r) c) l.

Definition find_version (id n : nat) (l : list ResumeVersion.t) : option ResumeVersion.t :=
  find (fun v => Nat.eqb (ResumeVersion.resume_id v) id &&
                 Nat.eqb (ResumeVersion.version_number v) n) l.

(** [doc.save()]: the stored document with this [_id] takes the fields of
    the in-memory one.  (Mongoose sends the changed paths only; every save
    below follows a read of the same document by the same request, and in
    the race of two Replace requests only one of them reaches its save.) *)
Fixpoint write_back (doc : Resume.t) (l : list Resume.t) : list Resume.t :=
  match l with
  | [] => []
  | r :: t => if Nat.eqb (Resume._id r) (Resume._id doc) then doc :: t
              else r :: write_back doc t
  end.

Definition exec {X : Type} (op : DbOp X) (s : Store) : (DbError + X) * Store :=
  match op in DbOp X return (DbError + X) * Store with
  | Resume_findById id => (inr (find_resume id (resumes s)), s)
  | Resume_findOne c => (inr (find_by_code c (resumes s)), s)
  | Resume_create c t d n =>
      let r := Resume.mk (next_id s) c t d n in
      (inr r, mkStore (resumes s ++ [r]) (versions s) (S (next_id s)))
  | Resume_save doc =>
      match find_resume (Resume._id doc) (resumes s) with
      | Some _ => (inr tt, mkStore (write_back doc (resumes s)) (versions s) (next_id s))
      | None => (inl DocumentNotFound, s)
      end
  | ResumeVersion_findOne id n => (inr (find_version id n (versions s)), s)
  | ResumeVersion_create v =>
      match find_version (ResumeVersion.resume_id v) (ResumeVersion.version_number v)
                         (versions s) with
      | Some _ => (inl DuplicateKey, s)
      | None => (inr tt, mkStore (resumes s) (versions s ++ [v]) (next_id s))
      end
  end.

(* ================================================================= *)
(** ** Responses *)

Inductive Failure :=
| MissingData                         (* 400 *)
| MissingMetaCode                     (* 400 *)
| InvalidPayload                      (* 400 *)
| InvalidSection (s : string)         (* 400 *)
| InvalidSections (ks : list string)  (* 400 *)
| BadPatchBody                        (* 400 *)
| MissingVersionNumber                (* 400 *)
| ResumeNotFound                      (* 404 *)
| VersionNotFound (n : nat)           (* 404 *)
| Thrown (e : DbError).               (* 500: catch (error) *)

Inductive Body :=
| Fail (f : Failure)                                 (* success: false, error *)
| Data (doc : Resume.t)                              (* success: true, data *)
| NoChange (doc : Resume.t)                          (* ..., no_change: true *)
| Uploaded (created : bool) (doc : Resume.t)         (* action: 'created' | 'updated' *)
| RolledBack (doc : Resume.t) (new_version : nat).   (* ..., new_version *)

Record Response := NextResponse { body : Body; status : nat }.

(** One request served alone.  [fault = Some n] makes the [n]-th store call
    (counting from 0) throw; whatever is thrown lands in the handler's
    [catch] and becomes a 500. *)
Fixpoint run (p : Prog Response) (fault : option nat) (s : Store) : Response * Store :=
  match p with
  | Ret r => (r, s)
  | Await op k =>
      match fault with
      | Some 0 => (NextResponse (Fail (Thrown StoreUnavailable)) 500, s)
      | _ =>
          match exec op s with
          | (inl e, s') => (NextResponse (Fail (Thrown e)) 500, s')
          | (inr x, s') => run (k x) (option_map pred fault) s'
          end
      end
  end.

(* ================================================================= *)
(** ** Reading request bodies *)

(** Truthiness of a JS value; [None] is [undefined]. *)
Definition js_truthy (v : option json) : bool :=
  match v with
  | None | Some JNull => false
  | Some (JBool b) => b
  | Some (JNum n) => negb (Z.eqb n 0)
  | Some (JStr s) => negb (String.eqb s "")
  | Some (JArr _) | Some (JObj _) => true
  end.

(** [v?.k]. *)
Definition field (v : option json) (k : string) : option json :=
  match v with
  | None | Some JNull => None
  | Some v => js_get v k
  end.

(** Titles and meta codes are strings ([IResume]); a request field of
    another JSON kind lies outside the documented bodies and is read as
    absent.  [truthy_str] is the test [if (title)] on such a field. *)
Definition as_string (v : option json) : option string :=
  match v with Some (JStr s) => Some s | _ => None end.

Definition truthy_str (x : option string) : option string :=
  match x with
  | Some s => if String.eqb s "" then None else Some s
  | None => None
  end.

(** [{ ...o, [k]: v }] for a key that is not an array index. *)
Fixpoint spread_set (o : smap) (k : string) (v : json) : smap :=
  match o with
  | [] => [(k, v)]
  | (k', v') :: t => if String.eqb k' k then (k', v) :: t
                     else (k', v') :: spread_set t k v
  end.

(** [{ ...o, ...p }]. *)
Definition spread (o p : smap) : smap :=
  fold_left (fun acc kv => spread_set acc (fst kv) (snd kv)) p o.

(** [Object.keys] and the own enumerable properties of an object or array. *)
Definition entries (v : json) : smap :=
  match v with
  | JObj m => m
  | JArr l => combine (map nat_to_string (seq 0 (List.length l))) l
  | _ => []
  end.

(** U+2013, the dash of the generated titles. *)
Definition en_dash : string :=
  String (ascii_of_nat 226) (String (ascii_of_nat 128) (String (ascii_of_nat 147) "")).

(* ================================================================= *)
(** ** PUT /api/resumes/[id] : full update (Replace) *)

Record PutBody := {
  put_data : option smap;
  put_title : option string;
  put_meta_code : option string
}.

Definition PUT (id : nat) (body : PutBody) : Prog Response :=
  match put_data body with
  | None => Ret (NextResponse (Fail MissingData) 400)
  | Some data =>
      await found <- Resume_findById id ;;
      match found with
      | None => Ret (NextResponse (Fail ResumeNotFound) 404)
      | Some currentResume =>
          let changedSections := diffSections (Some (Resume.data currentResume)) data in
          if Nat.eqb (List.length changedSections) 0 then
            let r1 := match truthy_str (put_title body) with
                      | Some t => Resume.set_title currentResume t
                      | None => currentResume end in
            let r2 := match truthy_str (put_meta_code body) with
                      | Some c => Resume.set_meta_code r1 c
                      | None => r1 end in
            match truthy_str (put_title body), truthy_str (put_meta_code body) with
            | None, None => Ret (NextResponse (NoChange r2) 200)
            | _, _ => await _ <- Resume_save r2 ;;
                      Ret (NextResponse (NoChange r2) 200)
            end
          else
            let changeSummary := generateChangeSummary changedSections in
            let nextVersion := Resume.current_version currentResume + 1 in
            await _ <- ResumeVersion_create
                         (ResumeVersion.mk id nextVersion data changedSections
                                           (Some changeSummary) edit) ;;
            let r1 := Resume.set_data currentResume data in
            let r2 := Resume.set_current_version r1 nextVersion in
            let r3 := match truthy_str (put_title body) with
                      | Some t => Resume.set_title r2 t
                      | None => r2 end in
            let r4 := match truthy_str (put_meta_code body) with
                      | Some c => Resume.set_meta_code r3 c
                      | None => r3 end in
            await _ <- Resume_save r4 ;;
            Ret (NextResponse (Data r4) 200)
      end
  end.

(* ================================================================= *)
(** ** PATCH /api/resumes/[id] : section-level update *)

Record PatchBody := {
  section : option string;
  value : option json;            (* [None]: undefined *)
  sections : option json;
  patch_title : option string
}.

Definition validSections : list string :=
  ["meta"; "basics"; "work"; "education"; "skills"; "projects"].

Definition includes (l : list string) (k : string) : bool :=
  existsb (String.eqb k) l.

(** What the three accepted shapes of the body do to the in-memory
    document; [inl] is the 400 answer. *)
Definition patch_document (currentResume : Resume.t) (body : PatchBody)
  : Failure + Resume.t :=
  match truthy_str (section body), value body with
  | Some sec, Some val =>
      if negb (includes validSections sec) then inl (InvalidSection sec)
      else
        let r := Resume.set_data currentResume
                   (spread_set (Resume.data currentResume) sec val) in
        match String.eqb sec "meta", truthy_str (as_string (field (Some val) "code")) with
        | true, Some c => inr (Resume.set_meta_code r c)
        | _, _ => inr r
        end
  | _, _ =>
      match sections body with
      | Some (JObj _ as ss) | Some (JArr _ as ss) =>
          let invalidKeys :=
            filter (fun k => negb (includes validSections k)) (keys (entries ss)) in
          if Nat.ltb 0 (List.length invalidKeys) then inl (InvalidSections invalidKeys)
          else
            let r := Resume.set_data currentResume
                       (spread (Resume.data currentResume) (entries ss)) in
            match truthy_str (as_string (field (js_get ss "meta") "code")) with
            | Some c => inr (Resume.set_meta_code r c)
            | None => inr r
            end
      | _ =>
          match truthy_str (patch_title body) with
          | Some t => inr (Resume.set_title currentResume t)
          | None => inl BadPatchBody
          end
      end
  end.

Definition PATCH (id : nat) (body : PatchBody) : Prog Response :=
  await found <- Resume_findById id ;;
  match found with
  | None => Ret (NextResponse (Fail ResumeNotFound) 404)
  | Some currentResume =>
      match patch_document currentResume body with
      | inl f => Ret (NextResponse (Fail f) 400)
      | inr r =>
          await _ <- Resume_save r ;;
          Ret (NextResponse (Data r) 200)
      end
  end.

(* ================================================================= *)
(** ** POST /api/resumes : create *)

Record CreateBody := {
  create_meta_code : option string;
  create_title : option string;
  create_data : option smap
}.

(** [data?.meta?.code] *)
Definition meta_code_of (data : smap) : option string :=
  truthy_str (as_string (field (field (Some (JObj data)) "meta") "code")).

(** [data?.basics?.name?.full || dflt] *)
Definition full_name_of (data : smap) (dflt : string) : string :=
  match truthy_str (as_string
          (field (field (field (Some (JObj data)) "basics") "name") "full")) with
  | Some n => n
  | None => dflt
  end.

Definition POST_create (body : CreateBody) : Prog Response :=
  match create_data body with
  | None => Ret (NextResponse (Fail MissingData) 400)
  | Some data =>
      let meta_code := match truthy_str (create_meta_code body) with
                       | Some c => Some c
                       | None => meta_code_of data end in
      let title := match truthy_str (create_title body) with
                   | Some t => t
                   | None =>
                       let name := full_name_of data "Untitled" in
                       match meta_code with
                       | Some c => name ++ " " ++ en_dash ++ " " ++ c
                       | None => name
                       end
                   end in
      match meta_code with
      | None => Ret (NextResponse (Fail MissingMetaCode) 400)
      | Some meta_code =>
          await newResume <- Resume_create meta_code title data 1 ;;
          await _ <- ResumeVersion_create
                       (ResumeVersion.mk (Resume._id newResume) 1 data [] None edit) ;;
          Ret (NextResponse (Data newResume) 201)
      end
  end.

(* ================================================================= *)
(** ** POST /api/resumes/upload : ingest by meta code *)

(** The payload and title selected from the body: wrapped
    [{ title?, data }] or the raw resume JSON. *)
Definition unwrap_upload (body : smap) : option (smap * option string) :=
  match js_get (JObj body) "data" with
  | Some (JObj d) =>
      if js_truthy (js_get (JObj d) "meta") || js_truthy (js_get (JObj d) "basics")
      then Some (d, as_string (js_get (JObj body) "title"))
      else if js_truthy (js_get (JObj body) "meta") || js_truthy (js_get (JObj body) "basics")
           then Some (body, None) else None
  | _ =>
      if js_truthy (js_get (JObj body) "meta") || js_truthy (js_get (JObj body) "basics")
      then Some (body, None) else None
  end.

Definition POST_upload (body : smap) : Prog Response :=
  match unwrap_upload body with
  | None => Ret (NextResponse (Fail InvalidPayload) 400)
  | Some (data, title) =>
      match meta_code_of data with
      | None => Ret (NextResponse (Fail MissingMetaCode) 400)
      | Some meta_code =>
          let title := match truthy_str title with
                       | Some t => t
                       | None => full_name_of data "Untitled Resume"
                                   ++ " " ++ en_dash ++ " " ++ meta_code
                       end in
          await found <- Resume_findOne meta_code ;;
          match found with
          | Some existingResume =>
              let nextVersion := Resume.current_version existingResume + 1 in
              let changedSections :=
                diffSections (Some (Resume.data existingResume)) data in
              let changeSummary := generateChangeSummary changedSections in
              await _ <- ResumeVersion_create
                           (ResumeVersion.mk (Resume._id existingResume) nextVersion data
                                             changedSections (Some changeSummary) upload) ;;
              let r1 := Resume.set_data existingResume data in
              let r2 := Resume.set_current_version r1 nextVersion in
              let r3 := Resume.set_title r2 title in
              await _ <- Resume_save r3 ;;
              Ret (NextResponse (Uploaded false r3) 200)
          | None =>
              await newResume <- Resume_create meta_code title data 1 ;;
              await _ <- ResumeVersion_create
                           (ResumeVersion.mk (Resume._id newResume) 1 data (keys data)
                                             (Some "Initial upload") upload) ;;
              Ret (NextResponse (Uploaded true newResume) 201)
          end
      end
  end.

(* ================================================================= *)
(** ** POST /api/resumes/[id]/versions : rollback *)

Definition POST_rollback (id : nat) (version_number : option nat) : Prog Response :=
  match version_number with
  | None | Some 0 => Ret (NextResponse (Fail MissingVersionNumber) 400)
  | Some n =>
      await target <- ResumeVersion_findOne id n ;;
      match target with
      | None => Ret (NextResponse (Fail (VersionNotFound n)) 404)
      | Some targetVersion =>
          await found <- Resume_findById id ;;
          match found with
          | None => Ret (NextResponse (Fail ResumeNotFound) 404)
          | Some resume =>
              let changedSections :=
                diffSections (Some (Resume.data resume)) (ResumeVersion.data targetVersion) in
              let nextVersion := Resume.current_version resume + 1 in
              await _ <- ResumeVersion_create
                           (ResumeVersion.mk id nextVersion (ResumeVersion.data targetVersion)
                              changedSections
                              (Some ("Rolled back to v" ++ nat_to_string n)) rollback) ;;
              let r1 := Resume.set_data resume (ResumeVersion.data targetVersion) in
              let r2 := Resume.set_current_version r1 nextVersion in
              await _ <- Resume_save r2 ;;
              Ret (NextResponse (RolledBack r2 nextVersion) 200)
          end
      end
  end.

(** The write operations of the protocol. *)
Inductive WriteOp :=
| Create (body : CreateBody)
| Replace (id : nat) (body : PutBody)
| PartialUpdate (id : nat) (body : PatchBody)
| Ingest (body : smap)
| Rollback (id : nat) (version_number : option nat).

Definition handler (op : WriteOp) : Prog Response :=
  match op with
  | Create b => POST_create b
  | Replace id b => PUT id b
  | PartialUpdate id b => PATCH id b
  | Ingest b => POST_upload b
  | Rollback id n => POST_rollback id n
  end.

Definition success (r : Response) : bool :=
  match body r with Fail _ => false | _ => true end.

Definition empty_store : Store := mkStore [] [] 0.

(* ================================================================= *)
(** ** Views of the handlers used in the statements *)

(** The [every] loop of the array branch of [deepEqual], from index [i]. *)
Definition every_from (lb : list json) : list json -> nat -> bool :=
  fix every (l : list json) (i : nat) {struct l} : bool :=
    match l with
    | [] => true
    | val :: t => deepEqual val (nth_error lb i) && every t (S i)
    end.

(** The in-memory document that PUT saves, given the stored one. *)
Definition replaced (doc : Resume.t) (body : PutBody) (data : smap) : Resume.t :=
  let r2 := Resume.set_current_version (Resume.set_data doc data)
              (Resume.current_version doc + 1) in
  let r3 := match truthy_str (put_title body) with
            | Some t => Resume.set_title r2 t | None => r2 end in
  match truthy_str (put_meta_code body) with
  | Some c => Resume.set_meta_code r3 c | None => r3 end.

(** The same when the diff is empty: only a title or meta code is set. *)
Definition retitled (doc : Resume.t) (body : PutBody) : Resume.t :=
  let r1 := match truthy_str (put_title body) with
            | Some t => Resume.set_title doc t | None => doc end in
  match truthy_str (put_meta_code body) with
  | Some c => Resume.set_meta_code r1 c | None => r1 end.

(** The document that a rollback to [target] saves. *)
Definition restored (doc : Resume.t) (target : ResumeVersion.t) : Resume.t :=
  Resume.set_current_version
    (Resume.set_data doc (ResumeVersion.data target))
    (Resume.current_version doc + 1).

(** The version PUT appends, and PUT after its read and after its append. *)
Definition edit_version (id : nat) (doc : Resume.t) (data : smap) : ResumeVersion.t :=
  let changed := diffSections (Some (Resume.data doc)) data in
  ResumeVersion.mk id (Resume.current_version doc + 1) data changed
                   (Some (generateChangeSummary changed)) edit.

Definition PUT_save (doc : Resume.t) (body : PutBody) (data : smap) : Prog Response :=
  await _ <- Resume_save (replaced doc body data) ;;
  Ret (NextResponse (Data (replaced doc body data)) 200).

Definition PUT_append (id : nat) (doc : Resume.t) (body : PutBody) (data : smap)
  : Prog Response :=
  await _ <- ResumeVersion_create (edit_version id doc data) ;;
  PUT_save doc body data.



(** The writes that append a version: all but PATCH. *)
Definition versioned (op : WriteOp) : Prop :=
  match op with PartialUpdate _ _ => False | _ => True end.


(* ================================================================= *)
(** ** Two requests at once *)

(** One store call of a handler; a call that throws ends the request with
    the 500 of its [catch].  Store calls are the only points at which
    another request can run. *)
Definition step (p : Prog Response) (s : Store) : Prog Response * Store :=
  match p with
  | Ret r => (Ret r, s)
  | Await op k =>
      match exec op s with
      | (inl e, s') => (Ret (NextResponse (Fail (Thrown e)) 500), s')
      | (inr x, s') => (k x, s')
      end
  end.

(** Two requests under a schedule: [true] lets the first take its next
    store call, [false] the second. *)
Fixpoint interleave (sch : list bool) (p q : Prog Response) (s : Store)
  : Prog Response * Prog Response * Store :=
  match sch with
  | [] => (p, q, s)
  | true :: t => let (p', s') := step p s in interleave t p' q s'
  | false :: t => let (q', s') := step q s in interleave t p q' s'
  end.

(** The compound key of the unique index. *)
Definition version_key (v : ResumeVersion.t) : nat * nat :=
  (ResumeVersion.resume_id v, ResumeVersion.version_number v).

(* ================================================================= *)
(** ** Invariants of the store *)

(** A store call of the request is made to throw. *)
Definition faulted (fault : option nat) : bool :=
  match fault with Some _ => true | None => false end.

(** The store after a request other than PATCH, against the store before.
    [failed] says that the answer was a failure, [injected] that a store
    call was made to throw.  The last two shapes are the half-done writes. *)
Inductive outcome (failed injected : bool) (s : Store) : Store -> Prop :=
| o_same : outcome failed injected s s
| o_advance d d' v :
    find_resume (Resume._id d') (resumes s) = Some d ->
    Resume.current_version d' = Resume.current_version d + 1 ->
    ResumeVersion.resume_id v = Resume._id d' ->
    ResumeVersion.version_number v = Resume.current_version d' ->
    ResumeVersion.data v = Resume.data d' ->
    find_version (Resume._id d') (Resume.current_version d') (versions s) = None ->
    outcome failed injected s
      (mkStore (write_back d' (resumes s)) (versions s ++ [v]) (next_id s))
| o_touch d d' :
    find_resume (Resume._id d') (resumes s) = Some d ->
    Resume.current_version d' = Resume.current_version d ->
    Resume.data d' = Resume.data d ->
    outcome failed injected s
      (mkStore (write_back d' (resumes s)) (versions s) (next_id s))
| o_born d v :
    Resume._id d = next_id s ->
    Resume.current_version d = 1 ->
    ResumeVersion.resume_id v = next_id s ->
    ResumeVersion.version_number v = 1 ->
    ResumeVersion.data v = Resume.data d ->
    find_version (next_id s) 1 (versions s) = None ->
    outcome failed injected s
      (mkStore (resumes s ++ [d]) (versions s ++ [v]) (S (next_id s)))
| o_orphan d v :
    failed = true -> injected = true ->
    find_resume (ResumeVersion.resume_id v) (resumes s) = Some d ->
    ResumeVersion.version_number v = Resume.current_version d + 1 ->
    find_version (ResumeVersion.resume_id v) (ResumeVersion.version_number v)
                 (versions s) = None ->
    outcome failed injected s
      (mkStore (resumes s) (versions s ++ [v]) (next_id s))
| o_stillborn d :
    failed = true ->
    injected = true \/ find_version (next_id s) 1 (versions s) <> None ->
    Resume._id d = next_id s ->
    Resume.current_version d = 1 ->
    outcome failed injected s
      (mkStore (resumes s ++ [d]) (versions s) (S (next_id s))).

(** [_id]s are unique, and none is ahead of the generator. *)
Definition unique_ids (s : Store) : Prop := NoDup (map Resume._id (resumes s)).

Definition fresh (s : Store) : Prop :=
  (forall d, In d (resumes s) -> Resume._id d < next_id s) /\
  (forall v, In v (versions s) -> ResumeVersion.resume_id v < next_id s).

Definition wf_store (s : Store) : Prop := unique_ids s /\ fresh s.

(** The document's [data] is the data of the version its
    [current_version] names. *)
Definition snapshot_ok (vs : list ResumeVersion.t) (d : Resume.t) : Prop :=
  exists v, find_version (Resume._id d) (Resume.current_version d) vs = Some v /\
            ResumeVersion.data v = Resume.data d.


(** No version is numbered beyond its document's [current_version]. *)
Definition no_version_ahead (s : Store) : Prop :=
  forall v d, In v (versions s) ->
              find_resume (ResumeVersion.resume_id v) (resumes s) = Some d ->
              ResumeVersion.version_number v <= Resume.current_version d.

(** The version that [current_version] names is stored. *)
Definition pointer_backed (s : Store) : Prop :=
  forall id d, find_resume id (resumes s) = Some d ->
               find_version id (Resume.current_version d) (versions s) <> None.

Definition consistent (s : Store) : Prop :=
  wf_store s /\ no_version_ahead s /\ pointer_backed s.

(* ================================================================= *)
(** ** A worked history *)

Definition person (name : string) : json := JObj [("name", JObj [("full", JStr name)])].

Definition payloadA : smap :=
  [("meta", JObj [("code", JStr "SWE")]); ("basics", person "A")].

Definition payloadB : smap :=
  [("meta", JObj [("code", JStr "SWE")]); ("basics", person "B");
   ("skills", JArr [JStr "x"])].

Definition payloadC : smap :=
  [("meta", JObj [("code", JStr "SWE")]); ("basics", person "C")].

Definition put (data : smap) : PutBody := Build_PutBody (Some data) None None.

Definition patch_section (k : string) (v : json) : PatchBody :=
  Build_PatchBody (Some k) (Some v) None None.

(** The store after uploading [payloadA] into the empty store: document 0 at
    version 1. *)
Definition store1 : Store := snd (run (handler (Ingest payloadA)) None empty_store).

(* ================================================================= *)
(** ** Equality of payloads up to the order of keys *)

(** Two JSON values that differ at most in the order in which their
    objects list their keys. *)
#[local] Unset Elimination Schemes.
Inductive same_json : json -> json -> Prop :=
| sj_null : same_json JNull JNull
| sj_bool b : same_json (JBool b) (JBool b)
| sj_num n : same_json (JNum n) (JNum n)
| sj_str s : same_json (JStr s) (JStr s)
| sj_arr la lb : Forall2 same_json la lb -> same_json (JArr la) (JArr lb)
| sj_obj ma mb :
    NoDup (keys mb) ->
    List.length ma = List.length mb ->
    (forall k v, In (k, v) ma -> exists v', In (k, v') mb /\ same_json v v') ->
    same_json (JObj ma) (JObj mb).
#[local] Set Elimination Schemes.

(** A value built from primitives and arrays only. *)
Fixpoint object_free (v : json) : bool :=
  match v with
  | JObj _ => false
  | JArr items => forallb object_free items
  | _ => true
  end.





(** An answer produced after the handler reached its writes: 200, 201, or
    the 500 of the [catch]. *)
Definition past_validation (r : Response) : Prop :=
  status r = 200 \/ status r = 201 \/ status r = 500.

(** The versions after, against the versions before: the same, or one more
    at the end under a key that was free. *)
Definition grown (vs vs' : list ResumeVersion.t) : Prop :=
  vs' = vs \/
  exists v, vs' = (vs ++ [v])%list /\
            find_version (ResumeVersion.resume_id v) (ResumeVersion.version_number v) vs
              = None.

(* ================================================================= *)
(** ** lib/filename.ts *)

(** Strings stand for the UTF-8 bytes of the JS string.  A JS character
    as the patterns below see it: a white-space character ([\s], one byte
    or the bytes of U+00A0, U+1680, U+2000..U+200A, U+2028, U+2029,
    U+202F, U+205F, U+3000, U+FEFF), or any other byte. *)
Inductive jschar :=
| Sp (bytes : string)
| Ch (a : ascii).

Definition ascii_space (n : nat) : bool :=
  (Nat.leb 9 n && Nat.leb n 13) || Nat.eqb n 32.

Definition space2 (a b : nat) : bool := Nat.eqb a 194 && Nat.eqb b 160.

Definition space3 (a b c : nat) : bool :=
  (Nat.eqb a 225 && Nat.eqb b 154 && Nat.eqb c 128) ||
  (Nat.eqb a 226 && Nat.eqb b 128 &&
   ((Nat.leb 128 c && Nat.leb c 138) || Nat.eqb c 168 || Nat.eqb c 169 || Nat.eqb c 175)) ||
  (Nat.eqb a 226 && Nat.eqb b 129 && Nat.eqb c 159) ||
  (Nat.eqb a 227 && Nat.eqb b 128 && Nat.eqb c 128) ||
  (Nat.eqb a 239 && Nat.eqb b 187 && Nat.eqb c 191).

Fixpoint jschars (s : string) : list jschar :=
  match s with
  | EmptyString => []
  | String a s1 =>
      if ascii_space (nat_of_ascii a) then Sp (String a "") :: jschars s1
      else
        match s1 with
        | String b s2 =>
            if space2 (nat_of_ascii a) (nat_of_ascii b)
            then Sp (String a (String b "")) :: jschars s2
            else
              match s2 with
              | String c s3 =>
                  if space3 (nat_of_ascii a) (nat_of_ascii b) (nat_of_ascii c)
                  then Sp (String a (String b (String c ""))) :: jschars s3
                  else Ch a :: jschars s1
              | EmptyString => Ch a :: jschars s1
              end
        | EmptyString => [Ch a]
        end
  end.

Definition is_upper (a : ascii) : bool :=
  Nat.leb 65 (nat_of_ascii a) && Nat.leb (nat_of_ascii a) 90.
Definition is_lower (a : ascii) : bool :=
  Nat.leb 97 (nat_of_ascii a) && Nat.leb (nat_of_ascii a) 122.
Definition is_letter (a : ascii) : bool := is_upper a || is_lower a.
Definition is_digit (a : ascii) : bool :=
  Nat.leb 48 (nat_of_ascii a) && Nat.leb (nat_of_ascii a) 57.

Definition toUpperCase (a : ascii) : ascii :=
  if is_lower a then ascii_of_nat (nat_of_ascii a - 32) else a.
Definition toLowerCase (a : ascii) : ascii :=
  if is_upper a then ascii_of_nat (nat_of_ascii a + 32) else a.

(** [.split(/\s+/)] of a string already reduced to letters and white
    space: the words between runs of white space, an empty word at an end
    where the string begins or ends with white space. *)
Fixpoint split_spaces (cur : list ascii) (in_space : bool) (l : list jschar)
  : list (list ascii) :=
  match l with
  | [] => [rev cur]
  | Sp _ :: t => if in_space then split_spaces cur true t
                 else rev cur :: split_spaces [] true t
  | Ch a :: t => split_spaces (a :: cur) false t
  end.

(** [part.charAt(0).toUpperCase() + part.slice(1).toLowerCase()] *)
Definition capitalize (part : list ascii) : list ascii :=
  match part with
  | [] => []
  | a :: t => toUpperCase a :: map toLowerCase t
  end.

Definition cleanName (fullName : string) : string :=
  let kept := filter (fun c => match c with Sp _ => true | Ch a => is_letter a end)
                     (jschars fullName) in
  string_of_list_ascii (List.concat (map capitalize (split_spaces [] false kept))).

Definition cleanMeta (metaCode : string) : string :=
  string_of_list_ascii
    (map toUpperCase
       (filter (fun a => is_letter a || is_digit a) (list_ascii_of_string metaCode))).

(** [now]: what [new Date()] answers to [getFullYear()] and [getMonth()]. *)
Record Date := { getFullYear : nat; getMonth : nat }.

(** [s.slice(-2)] *)
Definition slice_last2 (s : string) : string :=
  substring (String.length s - 2) 2 s.

(** [s.padStart(2, '0')] *)
Definition padStart2 (s : string) : string :=
  if Nat.ltb (String.length s) 2
  then string_of_list_ascii (repeat "0"%char (2 - String.length s)) ++ s
  else s.

Definition generateOutputFilename (now : Date) (fullName metaCode : string)
                                  (version : nat) : string :=
  let yy := slice_last2 (nat_to_string (getFullYear now)) in
  let mm := padStart2 (nat_to_string (getMonth now + 1)) in
  let datePart := yy ++ mm in
  cleanName fullName ++ "_" ++ cleanMeta metaCode ++ "_" ++ datePart
    ++ "_v" ++ nat_to_string version.

(* ================================================================= *)
(** ** models/Generation.ts and the rest of the store *)

Inductive JobStatus := PENDING | PROCESSING | COMPLETED | FAILED.

Module Generation.
Record t := mk {
  _id : nat;
  resume_id : nat;
  version_number : nat;
  status : JobStatus;                 (* default: 'PENDING' *)
  output_filename : string;
  resume_data : smap;
  meta_code : string;
  drive_link : option string;
  pdf_path : option string;
  error_log : option string
}.
End Generation.

(** The resumes and versions of [Store], and the generation jobs. *)
Record World := mkWorld {
  store : Store;
  generations : list Generation.t;
  next_job : nat
}.

(** The store calls of the remaining routes, on top of those of the write
    handlers. *)
Inductive AppOp : Type -> Type :=
| Core {X : Type} (op : DbOp X) : AppOp X
| ResumeVersion_find (resume_id : nat) : AppOp (list ResumeVersion.t)
    (* find({ resume_id }).sort({ version_number: -1 }) *)
| ResumeVersion_deleteMany (resume_id : nat) : AppOp unit
| Generation_deleteMany (resume_id : nat) : AppOp unit
| Resume_findByIdAndDelete (id : nat) : AppOp unit
| Generation_create (resume_id version_number : nat) (status : JobStatus)
                    (output_filename : string) (resume_data : smap) (meta_code : string)
    : AppOp Generation.t.

Inductive App (A : Type) : Type :=
| Done (a : A)
| Call {X : Type} (op : AppOp X) (k : X -> App A).
Arguments Done {A} a.
Arguments Call {A X} op k.

Notation "'call' x <- op ;; k" := (Call op (fun x => k))
  (at level 61, x name, op at next level, right associativity).

(** [sort({ version_number: -1 })] *)
Fixpoint insert_desc (v : ResumeVersion.t) (l : list ResumeVersion.t)
  : list ResumeVersion.t :=
  match l with
  | [] => [v]
  | x :: t => if Nat.leb (ResumeVersion.version_number x) (ResumeVersion.version_number v)
              then v :: x :: t else x :: insert_desc v t
  end.

Definition sort_desc (l : list ResumeVersion.t) : list ResumeVersion.t :=
  fold_right insert_desc [] l.

Definition versions_of (id : nat) (l : list ResumeVersion.t) : list ResumeVersion.t :=
  filter (fun v => Nat.eqb (ResumeVersion.resume_id v) id) l.

(** [deleteOne({ _id })] *)
Fixpoint remove_resume (id : nat) (l : list Resume.t) : list Resume.t :=
  match l with
  | [] => []
  | r :: t => if Nat.eqb (Resume._id r) id then t else r :: remove_resume id t
  end.

Definition with_store (w : World) (s : Store) : World :=
  mkWorld s (generations w) (next_job w).

Definition exec_app {X : Type} (op : AppOp X) (w : World) : (DbError + X) * World :=
  match op in AppOp X return (DbError + X) * World with
  | Core op => let (res, s') := exec op (store w) in (res, with_store w s')
  | ResumeVersion_find id =>
      (inr (sort_desc (versions_of id (versions (store w)))), w)
  | ResumeVersion_deleteMany id =>
      (inr tt,
       with_store w
         (mkStore (resumes (store w))
                  (filter (fun v => negb (Nat.eqb (ResumeVersion.resume_id v) id))
                          (versions (store w)))
                  (next_id (store w))))
  | Generation_deleteMany id =>
      (inr tt,
       mkWorld (store w)
               (filter (fun g => negb (Nat.eqb (Generation.resume_id g) id)) (generations w))
               (next_job w))
  | Resume_findByIdAndDelete id =>
      (inr tt,
       with_store w
         (mkStore (remove_resume id (resumes (store w))) (versions (store w))
                  (next_id (store w))))
  | Generation_create rid n st f d c =>
      let g := Generation.mk (next_job w) rid n st f d c None None None in
      (inr g, mkWorld (store w) (generations w ++ [g]) (S (next_job w)))
  end.

(** The columns the version list selects (timestamps are not modelled). *)
Record VersionSummary := {
  sum_version_number : nat;
  sum_changed_sections : list string;
  sum_change_summary : option string;
  sum_change_type : ChangeType
}.

Definition summary_of (v : ResumeVersion.t) : VersionSummary :=
  Build_VersionSummary (ResumeVersion.version_number v) (ResumeVersion.changed_sections v)
                       (ResumeVersion.change_summary v) (ResumeVersion.change_type v).

Inductive AppBody :=
| Plain (b : Body)                    (* the bodies of the write handlers *)
| MissingResumeId                     (* 400 *)
| ThrownTypeError                     (* 500: catch of a TypeError *)
| ResumeRead (doc : Resume.t) (versions : option (list nat))
| VersionRead (v : ResumeVersion.t)
| VersionList (l : list VersionSummary)
| DeletedAll (title : string)
| JobQueued (job : Generation.t).

Record AppResponse := AppJson { abody : AppBody; astatus : nat }.

Fixpoint run_app (p : App AppResponse) (fault : option nat) (w : World)
  : AppResponse * World :=
  match p with
  | Done r => (r, w)
  | Call op k =>
      match fault with
      | Some 0 => (AppJson (Plain (Fail (Thrown StoreUnavailable))) 500, w)
      | _ =>
          match exec_app op w with
          | (inl e, w') => (AppJson (Plain (Fail (Thrown e))) 500, w')
          | (inr x, w') => run_app (k x) (option_map pred fault) w'
          end
      end
  end.

(** A write handler as a program over the whole store. *)
Fixpoint lift (p : Prog Response) : App AppResponse :=
  match p with
  | Ret r => Done (AppJson (Plain (body r)) (status r))
  | Await op k => Call (Core op) (fun x => lift (k x))
  end.

(* ================================================================= *)
(** ** GET /api/resumes/[id], GET /api/resumes/[id]/versions *)

Definition GET_resume (id : nat) (includeVersions : bool) : App AppResponse :=
  call found <- Core (Resume_findById id) ;;
  match found with
  | None => Done (AppJson (Plain (Fail ResumeNotFound)) 404)
  | Some resume =>
      if includeVersions then
        call versions <- ResumeVersion_find id ;;
        Done (AppJson (ResumeRead resume
                         (Some (map ResumeVersion.version_number versions))) 200)
      else Done (AppJson (ResumeRead resume None) 200)
  end.

(** [specificVersion]: the [version] query parameter, read by [parseInt]. *)
Definition GET_versions (id : nat) (specificVersion : option nat) : App AppResponse :=
  match specificVersion with
  | Some n =>
      call version <- Core (ResumeVersion_findOne id n) ;;
      match version with
      | None => Done (AppJson (Plain (Fail (VersionNotFound n))) 404)
      | Some v => Done (AppJson (VersionRead v) 200)
      end
  | None =>
      call versions <- ResumeVersion_find id ;;
      Done (AppJson (VersionList (map summary_of versions)) 200)
  end.

(* ================================================================= *)
(** ** DELETE /api/resumes/[id] *)

Definition DELETE (id : nat) : App AppResponse :=
  call found <- Core (Resume_findById id) ;;
  match found with
  | None => Done (AppJson (Plain (Fail ResumeNotFound)) 404)
  | Some resume =>
      call _ <- ResumeVersion_deleteMany id ;;
      call _ <- Generation_deleteMany id ;;
      call _ <- Resume_findByIdAndDelete id ;;
      Done (AppJson (DeletedAll (Resume.title resume)) 200)
  end.

(* ================================================================= *)
(** ** POST /api/generate *)

Fixpoint starts_with (p s : string) : bool :=
  match p with
  | EmptyString => true
  | String a p' =>
      match s with
      | String b s' => Ascii.eqb a b && starts_with p' s'
      | EmptyString => false
      end
  end.

(** [s.split(sep)[0]] for a non-empty [sep]. *)
Fixpoint before_sep (sep s : string) : string :=
  match s with
  | EmptyString => EmptyString
  | String a t => if starts_with sep s then EmptyString else String a (before_sep sep t)
  end.

Fixpoint drop_spaces (l : list jschar) : list jschar :=
  match l with
  | Sp _ :: t => drop_spaces t
  | _ => l
  end.

Definition bytes_of (c : jschar) : string :=
  match c with Sp b => b | Ch a => String a "" end.

(** [s.trim()] *)
Definition trim (s : string) : string :=
  String.concat "" (map bytes_of (rev (drop_spaces (rev (drop_spaces (jschars s)))))).

(** A value on which [.replace] is then called: a string, or ([None])
    something else, which throws a TypeError. *)
Definition expect_string (v : option json) : option string :=
  match v with Some (JStr s) => Some s | _ => None end.

(** [resumeData?.basics?.name?.full
     || (resume.title ? resume.title.split('–')[0].trim() : null) || 'Unknown'] *)
Definition job_fullName (resume : Resume.t) (resumeData : smap) : option string :=
  let full := field (field (field (Some (JObj resumeData)) "basics") "name") "full" in
  if js_truthy full then expect_string full
  else
    match truthy_str (Some (Resume.title resume)) with
    | Some title =>
        match truthy_str (Some (trim (before_sep en_dash title))) with
        | Some n => Some n
        | None => Some "Unknown"
        end
    | None => Some "Unknown"
    end.

(** [(resume.meta_code && resume.meta_code !== '') ? resume.meta_code
     : (resumeData?.meta?.code || 'RESUME')] *)
Definition job_metaCode (resume : Resume.t) (resumeData : smap) : option string :=
  match truthy_str (Some (Resume.meta_code resume)) with
  | Some c => Some c
  | None =>
      let code := field (field (Some (JObj resumeData)) "meta") "code" in
      if js_truthy code then expect_string code else Some "RESUME"
  end.

Definition POST_generate (now : Date) (resume_id : option nat) : App AppResponse :=
  match resume_id with
  | None => Done (AppJson MissingResumeId 400)
  | Some resume_id =>
      call found <- Core (Resume_findById resume_id) ;;
      match found with
      | None => Done (AppJson (Plain (Fail ResumeNotFound)) 404)
      | Some resume =>
          call latestVersion <-
            Core (ResumeVersion_findOne resume_id (Resume.current_version resume)) ;;
          let resumeData := match latestVersion with
                            | Some v => ResumeVersion.data v
                            | None => Resume.data resume
                            end in
          match job_fullName resume resumeData, job_metaCode resume resumeData with
          | Some fullName, Some metaCode =>
              let outputFilename :=
                generateOutputFilename now fullName metaCode
                                       (Resume.current_version resume) in
              call job <- Generation_create resume_id (Resume.current_version resume)
                            PENDING outputFilename resumeData metaCode ;;
              Done (AppJson (JobQueued job) 201)
          | _, _ => Done (AppJson ThrownTypeError 500)
          end
      end
  end.

(** The generation jobs of the worked history: none yet. *)
Definition world1 : World := mkWorld store1 [] 0.

(* ================================================================= *)
(** ** The history of a document *)

(** Every version belongs to a stored document and is numbered from 1; no
    two versions share (resume_id, version_number); every number from 1 to
    a document's [current_version] is stored. *)
Definition linear_history (s : Store) : Prop :=
  NoDup (map version_key (versions s)) /\
  (forall v, In v (versions s) ->
     1 <= ResumeVersion.version_number v /\
     find_resume (ResumeVersion.resume_id v) (resumes s) <> None) /\
  (forall id d, find_resume id (resumes s) = Some d ->
     1 <= Resume.current_version d /\
     forall n, 1 <= n <= Resume.current_version d ->
               find_version id n (versions s) <> None).

(** [l] is in descending order. *)
Fixpoint descending (l : list nat) : Prop :=
  match l with
  | [] => True
  | x :: t => (forall y, In y t -> y <= x) /\ descending t
  end.

(** Every version and every generation job belongs to a stored document. *)
Definition owned (w : World) : Prop :=
  (forall v, In v (versions (store w)) ->
     find_resume (ResumeVersion.resume_id v) (resumes (store w)) <> None) /\
  (forall g, In g (generations w) ->
     find_resume (Generation.resume_id g) (resumes (store w)) <> None).

Definition not_of_resume (id : nat) (v : ResumeVersion.t) : bool :=
  negb (Nat.eqb (ResumeVersion.resume_id v) id).

Definition job_not_of_resume (id : nat) (g : Generation.t) : bool :=
  negb (Nat.eqb (Generation.resume_id g) id).

Arguments generateOutputFilename : simpl never.
Arguments job_fullName : simpl never.
Arguments job_metaCode : simpl never.

(** The worked history after a partial update of [basics]: the document's
    data has moved on from its version 1. *)
Definition world_patched : World :=
  with_store world1
    (snd (run (PATCH 0 (patch_section "basics" (person "B"))) None store1)).

(** The characters of a file name: ASCII letters, digits and [_]. *)
Definition filename_char (a : ascii) : bool :=
  is_letter a || is_digit a || Ascii.eqb a "_".

(* ================================================================= *)
(** ** GET /api/resumes?group=true: the grouping of the list *)

(** The property names every object literal inherits from
    [Object.prototype]; each holds a function or an object, none of which
    has a [push]. *)
Definition Object_prototype : list string :=
  ["constructor"; "__proto__"; "hasOwnProperty"; "isPrototypeOf";
   "propertyIsEnumerable"; "toLocaleString"; "toString"; "valueOf";
   "__defineGetter__"; "__defineSetter__"; "__lookupGetter__"; "__lookupSetter__"].

Definition inherited (k : string) : bool := existsb (String.eqb k) Object_prototype.

(** [acc]: the own properties of the accumulator, in order of first
    insertion (the order in which [JSON.stringify] lists them, except that
    it puts array-index keys first). *)
Definition Groups := list (string * list Resume.t).

Fixpoint group_of (acc : Groups) (code : string) : option (list Resume.t) :=
  match acc with
  | [] => None
  | (k, l) :: t => if String.eqb code k then Some l else group_of t code
  end.

(** [acc[code].push(resume)] on an own property. *)
Fixpoint group_push (acc : Groups) (code : string) (resume : Resume.t) : Groups :=
  match acc with
  | [] => []
  | (k, l) :: t => if String.eqb code k then (k, (l ++ [resume])%list) :: t
                   else (k, l) :: group_push t code resume
  end.

(** [resume.meta_code || 'OTHER'] *)
Definition group_code (resume : Resume.t) : string :=
  if String.eqb (Resume.meta_code resume) "" then "OTHER" else Resume.meta_code resume.

(** One call of the reducer; [None]: the TypeError of
    [acc[code].push is not a function], which the handler's [catch] turns
    into a 500. *)
Definition group_step (acc : option Groups) (resume : Resume.t) : option Groups :=
  match acc with
  | None => None
  | Some acc =>
      let code := group_code resume in
      match group_of acc code with
      | Some _ => Some (group_push acc code resume)
      | None =>
          if inherited code then None
          else Some (acc ++ [(code, [resume])])%list
      end
  end.

(** [resumes.reduce((acc, resume) => ..., {})] *)
Definition group_by_code (resumes : list Resume.t) : option Groups :=
  fold_left group_step resumes (Some []).

(** The listed documents with a given code. *)
Definition with_code (code : string) (l : list Resume.t) : list Resume.t :=
  filter (fun r => String.eqb (group_code r) code) l.

(** [acc] groups the documents [old] seen so far. *)
Definition group_view (old : list Resume.t) (acc : Groups) : Prop :=
  NoDup (map fst acc) /\
  forall code, group_of acc code
               = match with_code code old with [] => None | l => Some l end.

(* ================================================================= *)
(** ** migrations/runner.ts, 001_initial_schema.ts, 002_add_edit_tracking.ts *)

Record Index := {
  on_collection : string;
  key_pattern : list (string * Z);
  unique : bool
}.

Definition Index_eq_dec (a b : Index) : {a = b} + {a <> b}.
Proof.
  decide equality.
  - apply Bool.bool_dec.
  - apply list_eq_dec. decide equality; [apply Z.eq_dec | apply string_dec].
  - apply string_dec.
Defined.

(** The database as the migrations see it: the names recorded in
    [_migrations] in order of insertion, the indexes, and the raw
    documents of [resumeversions]. *)
Record Db := mkDb {
  _migrations : list string;
  indexes : list Index;
  resumeversions : list smap
}.

(** Migration code: store calls in sequence.  [fault = Some n]: the call
    numbered [n] from here throws (once); a result [None] is a thrown
    error that nothing caught. *)
Definition M (A : Type) : Type := option nat -> Db -> (option A * option nat) * Db.

Definition ret {A : Type} (a : A) : M A := fun f db => ((Some a, f), db).

Definition bind {A B : Type} (m : M A) (k : A -> M B) : M B :=
  fun f db =>
    match m f db with
    | ((Some a, f'), db') => k a f' db'
    | ((None, f'), db') => ((None, f'), db')
    end.

Notation "'perform' x <- m ;; k" := (bind m (fun x => k))
  (at level 61, x name, m at next level, right associativity).

Definition db_call {A : Type} (op : Db -> A * Db) : M A :=
  fun f db =>
    match f with
    | Some 0 => ((None, None), db)
    | _ => let (a, db') := op db in ((Some a, option_map pred f), db')
    end.

(** [try { m } catch (e) { }] *)
Definition try_catch (m : M unit) : M unit :=
  fun f db =>
    match m f db with
    | ((None, f'), db') => ((Some tt, f'), db')
    | r => r
    end.

(** [db.collection(c).createIndex(keys, { unique })]: nothing to do when
    the index is there.  A creation that the server refuses (stored
    documents that violate [unique], an index on the same keys with other
    options) is a call that throws. *)
Definition createIndex (c : string) (keys : list (string * Z)) (u : bool) : M unit :=
  db_call (fun db =>
    let i := Build_Index c keys u in
    if in_dec Index_eq_dec i (indexes db) then (tt, db)
    else (tt, mkDb (_migrations db) (indexes db ++ [i]) (resumeversions db))).

(** [db.collection(c).dropIndexes()] *)
Definition dropIndexes (c : string) : M unit :=
  db_call (fun db =>
    (tt, mkDb (_migrations db)
              (filter (fun i => negb (String.eqb (on_collection i) c)) (indexes db))
              (resumeversions db))).

(** [$set] of one field: in place where the field exists, else at the end. *)
Definition set_field (d : smap) (k : string) (v : json) : smap := spread_set d k v.

(** [$unset] of one field. *)
Definition unset_field (d : smap) (k : string) : smap :=
  filter (fun kv => negb (String.eqb (fst kv) k)) d.

(** The update of [up] on one document:
    filter [{ changed_sections: { $exists: false } }],
    [$set: { changed_sections: [], change_summary: null, change_type: 'edit' }]. *)
Definition backfill (d : smap) : smap :=
  match own d "changed_sections" with
  | Some _ => d
  | None =>
      set_field (set_field (set_field d "changed_sections" (JArr []))
                           "change_summary" JNull)
                "change_type" (JStr "edit")
  end.

(** The update of [down] on one document. *)
Definition untrack (d : smap) : smap :=
  unset_field (unset_field (unset_field d "changed_sections") "change_summary")
              "change_type".

Definition updateMany (f : smap -> smap) : M unit :=
  db_call (fun db => (tt, mkDb (_migrations db) (indexes db) (map f (resumeversions db)))).

Module Migration.
Record t := mk {
  name : string;
  description : string;
  up : M unit;
  down : M unit
}.
End Migration.

Definition m001_up : M unit :=
  perform _ <- createIndex "users" [("email", 1%Z)] true ;;
  perform _ <- createIndex "resumes" [("user_id", 1%Z); ("updatedAt", (-1)%Z)] false ;;
  perform _ <- createIndex "resumeversions"
                 [("resume_id", 1%Z); ("version_number", (-1)%Z)] true ;;
  perform _ <- createIndex "generations" [("resume_id", 1%Z); ("createdAt", (-1)%Z)] false ;;
  perform _ <- createIndex "uploads" [("generation_id", 1%Z)] true ;;
  createIndex "uploads" [("status", 1%Z)] false.

Fixpoint m001_down_loop (collections : list string) : M unit :=
  match collections with
  | [] => ret tt
  | col :: t => perform _ <- try_catch (dropIndexes col) ;; m001_down_loop t
  end.

Definition m001_down : M unit :=
  m001_down_loop ["users"; "resumes"; "resumeversions"; "generations"; "uploads"].

Definition m002_up : M unit :=
  perform _ <- updateMany backfill ;;
  createIndex "resumeversions" [("resume_id", 1%Z); ("change_type", 1%Z)] false.

Definition m002_down : M unit := updateMany untrack.

Definition m001 : Migration.t :=
  Migration.mk "001_initial_schema" "Creates indexes for all 5 core collections"
               m001_up m001_down.

Definition m002 : Migration.t :=
  Migration.mk "002_add_edit_tracking"
               "Adds edit tracking fields (changed_sections, change_type) to resume_versions"
               m002_up m002_down.

Definition ALL_MIGRATIONS : list Migration.t := [m001; m002].

(** [migrationsCollection.findOne({ name })], as the test [!existing]. *)
Definition recorded (n : string) (log : list string) : bool := existsb (String.eqb n) log.

Definition findOne_migration (n : string) : M bool :=
  db_call (fun db => (recorded n (_migrations db), db)).

Definition insertOne_migration (n : string) : M unit :=
  db_call (fun db => (tt, mkDb (_migrations db ++ [n]) (indexes db) (resumeversions db))).

(** The [for] loop of [runMigrations]. *)
Fixpoint run_loop (ms : list Migration.t) (applied : list string) : M (list string) :=
  match ms with
  | [] => ret applied
  | migration :: t =>
      perform existing <- findOne_migration (Migration.name migration) ;;
      if existing then run_loop t applied
      else
        perform _ <- Migration.up migration ;;
        perform _ <- insertOne_migration (Migration.name migration) ;;
        run_loop t (applied ++ [Migration.name migration])%list
  end.

Definition runMigrations : M (list string) := run_loop ALL_MIGRATIONS [].

Fixpoint rollback_loop (ms : list Migration.t) : M unit :=
  match ms with
  | [] => ret tt
  | migration :: t => perform _ <- Migration.down migration ;; rollback_loop t
  end.

(** [db.collection('_migrations').drop()] *)
Definition drop_migrations : M unit :=
  db_call (fun db => (tt, mkDb [] (indexes db) (resumeversions db))).

Definition rollbackAll : M unit :=
  perform _ <- rollback_loop (rev ALL_MIGRATIONS) ;;
  try_catch drop_migrations.

(** The names registered and not yet recorded, in order of registration. *)
Definition pending (log : list string) : list string :=
  filter (fun n => negb (recorded n log)) (map Migration.name ALL_MIGRATIONS).

Definition tracking_fields : list string :=
  ["changed_sections"; "change_summary"; "change_type"].

(** What [up] of migration 001 and of migration 002 leave in the database. *)
Definition has_initial_schema (db : Db) : Prop :=
  forall i, In i [Build_Index "users" [("email", 1%Z)] true;
                  Build_Index "resumes" [("user_id", 1%Z); ("updatedAt", (-1)%Z)] false;
                  Build_Index "resumeversions"
                              [("resume_id", 1%Z); ("version_number", (-1)%Z)] true;
                  Build_Index "generations"
                              [("resume_id", 1%Z); ("createdAt", (-1)%Z)] false;
                  Build_Index "uploads" [("generation_id", 1%Z)] true;
                  Build_Index "uploads" [("status", 1%Z)] false] ->
            In i (indexes db).

Definition has_edit_tracking (db : Db) : Prop :=
  (forall d, In d (resumeversions db) -> own d "changed_sections" <> None) /\
  In (Build_Index "resumeversions" [("resume_id", 1%Z); ("change_type", 1%Z)] false)
     (indexes db).

(* ================================================================= *)
(** * Properties of the section diff *)

Lemma deepEqual_arr la lb :
  deepEqual (JArr la) (Some (JArr lb)) =
  Nat.eqb (List.length la) (List.length lb) && every_from lb la 0.
Proof. reflexivity. Qed.

Lemma deepEqual_obj ma mb :
  deepEqual (JObj ma) (Some (JObj mb)) =
  Nat.eqb (List.length ma) (List.length mb) &&
  forallb (fun kv => deepEqual (snd kv) (js_get (JObj mb) (fst kv))) ma.
Proof. reflexivity. Qed.

Lemma wf_arr l : wf_json (JArr l) <-> Forall wf_json l.
Proof.
  simpl. induction l as [|x t IH].
  - split; auto.
  - split.
    + intros [Hx Ht]. constructor; [exact Hx | apply IH, Ht].
    + intros H. inversion H; subst. split; [assumption | apply IH; assumption].
Qed.

Lemma wf_obj m :
  wf_json (JObj m) <-> NoDup (keys m) /\ Forall (fun kv => wf_json (snd kv)) m.
Proof.
  simpl. unfold keys.
  enough (E : (fix all (l : list (string * json)) : Prop :=
                 match l with [] => True | kv :: t => wf_json (snd kv) /\ all t end) m
              <-> Forall (fun kv => wf_json (snd kv)) m) by (rewrite E; reflexivity).
  induction m as [|kv t IH].
  - split; auto.
  - split.
    + intros [Hx Ht]. constructor; [exact Hx | apply IH, Ht].
    + intros H. inversion H; subst. split; [assumption | apply IH; assumption].
Qed.

Lemma own_not_in m k : ~ In k (keys m) -> own m k = None.
Proof.
  induction m as [|[k' v] t IH]; simpl; intros H; [reflexivity|].
  destruct (String.eqb_spec k k') as [->|Hne]; [tauto|].
  apply IH. tauto.
Qed.

Lemma own_in m k : In k (keys m) -> exists v, own m k = Some v /\ In (k, v) m.
Proof.
  induction m as [|[k' v] t IH]; simpl; intros H; [contradiction|].
  destruct (String.eqb_spec k k') as [->|Hne].
  - exists v. auto.
  - destruct H as [H|H]; [congruence|].
    destruct (IH H) as (w & Hw & Hin). exists w. auto.
Qed.

Lemma own_nodup m k v : NoDup (keys m) -> In (k, v) m -> own m k = Some v.
Proof.
  induction m as [|[k' v'] t IH]; simpl; intros Hnd Hin; [contradiction|].
  inversion Hnd as [|? ? Hnotin Hnd']; subst.
  destruct Hin as [Heq|Hin].
  - inversion Heq; subst. now rewrite String.eqb_refl.
  - destruct (String.eqb_spec k k') as [->|Hne].
    + exfalso. apply Hnotin. change k' with (fst (k', v)). now apply in_map.
    + now apply IH.
Qed.

Lemma every_from_refl pre l :
  Forall (fun x => deepEqual x (Some x) = true) l ->
  every_from (pre ++ l) l (List.length pre) = true.
Proof.
  revert pre. induction l as [|x t IH]; intros pre H; simpl; [reflexivity|].
  inversion H as [|? ? Hx Ht]; subst.
  rewrite nth_error_app2 by lia. rewrite Nat.sub_diag. simpl. rewrite Hx. simpl.
  specialize (IH (pre ++ [x])%list Ht).
  rewrite <- app_assoc in IH. simpl in IH.
  rewrite length_app in IH. simpl in IH. rewrite Nat.add_1_r in IH. exact IH.
Qed.

(** [deepEqual] is reflexive on values whose objects have unique keys. *)
Lemma deepEqual_refl v : wf_json v -> deepEqual v (Some v) = true.
Proof.
  induction v as [ | b | n | s | items IH | props IH ] using json_nested_ind; intros Hwf.
  - reflexivity.
  - simpl. now destruct b.
  - simpl. apply Z.eqb_refl.
  - simpl. apply String.eqb_refl.
  - rewrite deepEqual_arr, Nat.eqb_refl. simpl.
    apply wf_arr in Hwf.
    apply (every_from_refl [] items).
    rewrite Forall_forall in *. intros x Hx. apply IH; [assumption | now apply Hwf].
  - rewrite deepEqual_obj, Nat.eqb_refl. simpl.
    apply wf_obj in Hwf. destruct Hwf as [Hnd Hall].
    apply forallb_forall. intros [k v] Hin. simpl.
    rewrite (own_nodup props k v Hnd Hin).
    rewrite Forall_forall in IH, Hall.
    apply (IH (k, v) Hin). apply (Hall (k, v) Hin).
Qed.




(* ================================================================= *)
(** * Properties of the store operations *)

Lemma find_resume_some id l r :
  find_resume id l = Some r -> Resume._id r = id /\ In r l.
Proof.
  unfold find_resume. intros H. apply find_some in H. destruct H as [Hin Heq].
  apply Nat.eqb_eq in Heq. auto.
Qed.

Lemma find_resume_write_back doc l id :
  find_resume id (write_back doc l) =
  if Nat.eqb (Resume._id doc) id
  then match find_resume id l with Some _ => Some doc | None => None end
  else find_resume id l.
Proof.
  unfold find_resume. induction l as [|r t IH]; simpl.
  - now destruct (Nat.eqb (Resume._id doc) id).
  - destruct (Nat.eqb_spec (Resume._id r) (Resume._id doc)) as [E|NE]; simpl.
    + rewrite E. destruct (Nat.eqb (Resume._id doc) id); reflexivity.
    + destruct (Nat.eqb_spec (Resume._id r) id) as [E'|NE'].
      * destruct (Nat.eqb_spec (Resume._id doc) id); [congruence | reflexivity].
      * exact IH.
Qed.

Lemma find_resume_app id l r :
  find_resume id (l ++ [r]) =
  match find_resume id l with
  | Some x => Some x
  | None => if Nat.eqb (Resume._id r) id then Some r else None
  end.
Proof.
  unfold find_resume. induction l as [|x t IH]; simpl; [reflexivity|].
  destruct (Nat.eqb (Resume._id x) id); [reflexivity | exact IH].
Qed.

Lemma find_version_app id n l v :
  find_version id n (l ++ [v]) =
  match find_version id n l with
  | Some x => Some x
  | None => if Nat.eqb (ResumeVersion.resume_id v) id &&
               Nat.eqb (ResumeVersion.version_number v) n
            then Some v else None
  end.
Proof.
  unfold find_version. induction l as [|x t IH]; simpl; [reflexivity|].
  destruct (Nat.eqb (ResumeVersion.resume_id x) id &&
            Nat.eqb (ResumeVersion.version_number x) n); [reflexivity | exact IH].
Qed.

Lemma find_version_some id n l v :
  find_version id n l = Some v ->
  ResumeVersion.resume_id v = id /\ ResumeVersion.version_number v = n /\ In v l.
Proof.
  unfold find_version. intros H. apply find_some in H. destruct H as [Hin Heq].
  apply andb_true_iff in Heq. destruct Heq as [H1 H2].
  apply Nat.eqb_eq in H1. apply Nat.eqb_eq in H2. auto.
Qed.

Lemma find_version_in l v :
  In v l ->
  find_version (ResumeVersion.resume_id v) (ResumeVersion.version_number v) l <> None.
Proof.
  unfold find_version. intros Hin Hnone.
  apply (find_none _ _ Hnone) in Hin. now rewrite !Nat.eqb_refl in Hin.
Qed.

Arguments diffSections : simpl never.
Arguments generateChangeSummary : simpl never.
Arguments nat_to_string : simpl never.

Lemma run_await {X} (op : DbOp X) k s :
  run (Await op k) None s =
  match exec op s with
  | (inl e, s') => (NextResponse (Fail (Thrown e)) 500, s')
  | (inr x, s') => run (k x) None s'
  end.
Proof. reflexivity. Qed.


Lemma run_ret r0 fault s r s' : run (Ret r0) fault s = (r, s') -> r = r0 /\ s' = s.
Proof. simpl. intros H. inversion H. auto. Qed.

Lemma write_back_same doc l :
  find_resume (Resume._id doc) l = Some doc -> write_back doc l = l.
Proof.
  unfold find_resume. induction l as [|r t IH]; simpl; [reflexivity|].
  destruct (Nat.eqb (Resume._id r) (Resume._id doc)); intros H.
  - now inversion H.
  - now rewrite IH.
Qed.




(* ================================================================= *)
(** * Partial update *)

Lemma own_spread_set o k v k' :
  own (spread_set o k v) k' = if String.eqb k' k then Some v else own o k'.
Proof.
  induction o as [|[k0 v0] t IH]; simpl.
  - reflexivity.
  - destruct (String.eqb_spec k0 k) as [->|Hne]; simpl.
    + destruct (String.eqb k' k); reflexivity.
    + destruct (String.eqb_spec k' k0) as [->|Hne'].
      * destruct (String.eqb_spec k0 k); [congruence | reflexivity].
      * exact IH.
Qed.





(* ================================================================= *)
(** * What a versioned write can do to the store *)

Lemma run_await_inv {X} (op : DbOp X) k fault s r s' :
  run (Await op k) fault s = (r, s') ->
  (success r = false /\ s' = s /\ faulted fault = true) \/
  (exists e, exec op s = (inl e, s') /\ success r = false) \/
  (exists x s1, exec op s = (inr x, s1) /\
                run (k x) (option_map pred fault) s1 = (r, s')).
Proof.
  simpl. intros H. destruct fault as [[|n]|].
  - left. inversion H; subst. auto.
  - destruct (exec op s) as [[e|x] s1].
    + right; left. inversion H; subst. eauto.
    + right; right. eauto.
  - destruct (exec op s) as [[e|x] s1].
    + right; left. inversion H; subst. eauto.
    + right; right. eauto.
Qed.

Lemma faulted_pred fault : faulted (option_map pred fault) = faulted fault.
Proof. now destruct fault. Qed.

Ltac finish_ret H :=
  apply run_ret in H; destruct H as [? ?]; subst.

(** The half-done write of an update: the version is in, the save threw. *)
Lemma advance_outcome fault s r s' d d' v (R : Response) :
  find_resume (Resume._id d') (resumes s) = Some d ->
  Resume.current_version d' = Resume.current_version d + 1 ->
  ResumeVersion.resume_id v = Resume._id d' ->
  ResumeVersion.version_number v = Resume.current_version d' ->
  ResumeVersion.data v = Resume.data d' ->
  success R = true ->
  run (await _ <- ResumeVersion_create v ;; await _ <- Resume_save d' ;; Ret R) fault s
    = (r, s') ->
  outcome (negb (success r)) (faulted fault) s s'.
Proof.
  intros Hfind Hcv Hrid Hvn Hdata HR Hrun.
  apply run_await_inv in Hrun.
  destruct Hrun as [(Hf & -> & _) | [(e & Hex & Hf) | ([] & s1 & Hex & Hrun)]].
  - constructor.
  - cbn [exec] in Hex. rewrite Hrid, Hvn in Hex.
    destruct (find_version _ _ _); inversion Hex; subst; constructor.
  - cbn [exec] in Hex. rewrite Hrid, Hvn in Hex.
    destruct (find_version (Resume._id d') (Resume.current_version d') (versions s)) eqn:Hfree;
      [discriminate|].
    inversion Hex; subst s1; clear Hex.
    apply run_await_inv in Hrun.
    destruct Hrun as [(Hf & -> & Hflt) | [(e & Hex & Hf) | ([] & s2 & Hex & Hrun)]].
    + rewrite Hf. rewrite faulted_pred in Hflt. rewrite Hflt.
      apply (o_orphan _ _ _ d v); auto.
      * now rewrite Hrid.
      * now rewrite Hvn.
      * now rewrite Hrid, Hvn.
    + cbn [exec resumes] in Hex. rewrite Hfind in Hex. discriminate.
    + cbn [exec resumes versions next_id] in Hex. rewrite Hfind in Hex.
      inversion Hex; subst s2; clear Hex.
      apply run_ret in Hrun. destruct Hrun as [-> ->].
      eapply o_advance; eauto.
Qed.

(** The same for the two writes that create a document. *)
Lemma born_outcome fault s r s' c t data (mkv : nat -> ResumeVersion.t)
      (R : Resume.t -> Response) :
  (forall i, ResumeVersion.resume_id (mkv i) = i /\
             ResumeVersion.version_number (mkv i) = 1 /\
             ResumeVersion.data (mkv i) = data) ->
  (forall d, success (R d) = true) ->
  run (await newResume <- Resume_create c t data 1 ;;
       await _ <- ResumeVersion_create (mkv (Resume._id newResume)) ;;
       Ret (R newResume)) fault s = (r, s') ->
  outcome (negb (success r)) (faulted fault) s s'.
Proof.
  intros Hv HR Hrun.
  apply run_await_inv in Hrun.
  destruct Hrun as [(Hf & -> & _) | [(e & Hex & Hf) | (d & s1 & Hex & Hrun)]].
  - constructor.
  - cbn [exec] in Hex. discriminate.
  - cbn [exec] in Hex. inversion Hex; subst d s1; clear Hex.
    cbn [Resume._id] in Hrun.
    destruct (Hv (next_id s)) as (H1 & H2 & H3).
    apply run_await_inv in Hrun.
    destruct Hrun as [(Hf & -> & Hflt) | [(e & Hex & Hf) | ([] & s2 & Hex & Hrun)]].
    + rewrite Hf. rewrite faulted_pred in Hflt.
      eapply o_stillborn; eauto.
    + cbn [exec versions] in Hex. rewrite H1, H2 in Hex.
      destruct (find_version (next_id s) 1 (versions s)) eqn:Hfree; [|discriminate].
      inversion Hex; subst s'; clear Hex. rewrite Hf.
      eapply o_stillborn; eauto. right. congruence.
    + cbn [exec versions resumes next_id] in Hex. rewrite H1, H2 in Hex.
      destruct (find_version (next_id s) 1 (versions s)) eqn:Hfree; [discriminate|].
      inversion Hex; subst s2; clear Hex.
      apply run_ret in Hrun. destruct Hrun as [-> ->].
      eapply o_born; eauto.
Qed.

Lemma touch_outcome fault s r s' d d' (R : Response) :
  find_resume (Resume._id d') (resumes s) = Some d ->
  Resume.current_version d' = Resume.current_version d ->
  Resume.data d' = Resume.data d ->
  run (await _ <- Resume_save d' ;; Ret R) fault s = (r, s') ->
  outcome (negb (success r)) (faulted fault) s s'.
Proof.
  intros Hfind Hcv Hdata Hrun.
  apply run_await_inv in Hrun.
  destruct Hrun as [(Hf & -> & _) | [(e & Hex & Hf) | ([] & s1 & Hex & Hrun)]].
  - constructor.
  - cbn [exec] in Hex. rewrite Hfind in Hex. discriminate.
  - cbn [exec] in Hex. rewrite Hfind in Hex.
    inversion Hex; subst s1. apply run_ret in Hrun. destruct Hrun as [-> ->].
    eapply o_touch; eauto.
Qed.

Lemma PUT_outcome id body fault s r s' :
  run (PUT id body) fault s = (r, s') ->
  outcome (negb (success r)) (faulted fault) s s'.
Proof.
  unfold PUT. intros Hrun.
  destruct (put_data body) as [data|]; [|finish_ret Hrun; constructor].
  apply run_await_inv in Hrun.
  destruct Hrun as [(Hf & -> & _) | [(e & Hex & Hf) | (found & s1 & Hex & Hrun)]];
    cbn [exec] in *; [constructor | discriminate |].
  inversion Hex; subst found s1; clear Hex.
  destruct (find_resume id (resumes s)) as [doc|] eqn:Hfind;
    [|finish_ret Hrun; constructor].
  destruct (find_resume_some _ _ _ Hfind) as [Hid _].
  cbv zeta in Hrun.
  destruct (Nat.eqb (List.length (diffSections (Some (Resume.data doc)) data)) 0).
  - destruct (truthy_str (put_title body)) as [t|];
      destruct (truthy_str (put_meta_code body)) as [m|];
      try (eapply touch_outcome in Hrun; [rewrite faulted_pred in Hrun; exact Hrun | | |];
           cbn; rewrite ?Hid; try reflexivity; exact Hfind).
    finish_ret Hrun. constructor.
  - rewrite <- (faulted_pred fault).
    eapply advance_outcome with (d := doc); [ | | | | | | exact Hrun];
      destruct (truthy_str (put_title body)), (truthy_str (put_meta_code body));
      cbn; rewrite ?Hid; try reflexivity; exact Hfind.
Qed.

Lemma POST_rollback_outcome id n fault s r s' :
  run (POST_rollback id n) fault s = (r, s') ->
  outcome (negb (success r)) (faulted fault) s s'.
Proof.
  unfold POST_rollback. intros Hrun.
  destruct n as [[|n]|]; try (finish_ret Hrun; constructor).
  apply run_await_inv in Hrun.
  destruct Hrun as [(Hf & -> & _) | [(e & Hex & Hf) | (target & s1 & Hex & Hrun)]];
    cbn [exec] in *; [constructor | discriminate |].
  inversion Hex; subst target s1; clear Hex.
  destruct (find_version id (S n) (versions s)) as [target|];
    [|finish_ret Hrun; constructor].
  apply run_await_inv in Hrun.
  destruct Hrun as [(Hf & -> & _) | [(e & Hex & Hf) | (found & s1 & Hex & Hrun)]];
    cbn [exec] in *; [constructor | discriminate |].
  inversion Hex; subst found s1; clear Hex.
  destruct (find_resume id (resumes s)) as [doc|] eqn:Hfind;
    [|finish_ret Hrun; constructor].
  destruct (find_resume_some _ _ _ Hfind) as [Hid _].
  cbv zeta in Hrun.
  rewrite <- (faulted_pred fault), <- (faulted_pred (option_map pred fault)).
  eapply advance_outcome with (d := doc); [ | | | | | | exact Hrun];
    cbn; rewrite ?Hid; try reflexivity; exact Hfind.
Qed.

Lemma find_by_code_some c l r : find_by_code c l = Some r -> In r l.
Proof. unfold find_by_code. intros H. now apply find_some in H. Qed.

Lemma unique_find l d :
  NoDup (map Resume._id l) -> In d l -> find_resume (Resume._id d) l = Some d.
Proof.
  unfold find_resume. induction l as [|x t IH]; simpl; intros Hnd Hin; [contradiction|].
  inversion Hnd as [|? ? Hnotin Hnd']; subst.
  destruct Hin as [->|Hin]; [now rewrite Nat.eqb_refl|].
  destruct (Nat.eqb_spec (Resume._id x) (Resume._id d)) as [E|NE].
  - exfalso. apply Hnotin. rewrite E. now apply in_map.
  - now apply IH.
Qed.

Lemma POST_upload_outcome body fault s r s' :
  unique_ids s ->
  run (POST_upload body) fault s = (r, s') ->
  outcome (negb (success r)) (faulted fault) s s'.
Proof.
  unfold POST_upload. intros Huniq Hrun.
  destruct (unwrap_upload body) as [[data title]|]; [|finish_ret Hrun; constructor].
  destruct (meta_code_of data) as [meta_code|]; [|finish_ret Hrun; constructor].
  cbv zeta in Hrun.
  apply run_await_inv in Hrun.
  destruct Hrun as [(Hf & -> & _) | [(e & Hex & Hf) | (found & s1 & Hex & Hrun)]];
    cbn [exec] in *; [constructor | discriminate |].
  inversion Hex; subst found s1; clear Hex.
  rewrite <- (faulted_pred fault).
  destruct (find_by_code meta_code (resumes s)) as [doc|] eqn:Hfind.
  - apply find_by_code_some in Hfind. apply (unique_find _ _ Huniq) in Hfind.
    eapply advance_outcome with (d := doc); [ | | | | | | exact Hrun];
      cbn; try reflexivity; exact Hfind.
  - eapply born_outcome with
      (mkv := fun i => ResumeVersion.mk i 1 data (keys data) (Some "Initial upload") upload)
      (R := fun d => NextResponse (Uploaded true d) 201); [ | | exact Hrun].
    + intros i. cbn. auto.
    + reflexivity.
Qed.

Lemma POST_create_outcome body fault s r s' :
  run (POST_create body) fault s = (r, s') ->
  outcome (negb (success r)) (faulted fault) s s'.
Proof.
  unfold POST_create. intros Hrun.
  destruct (create_data body) as [data|]; [|finish_ret Hrun; constructor].
  cbv zeta in Hrun.
  destruct (match truthy_str (create_meta_code body) with
            | Some c => Some c | None => meta_code_of data end) as [meta_code|];
    [|finish_ret Hrun; constructor].
  eapply born_outcome with
    (mkv := fun i => ResumeVersion.mk i 1 data [] None edit)
    (R := fun d => NextResponse (Data d) 201); [ | | exact Hrun].
  - intros i. cbn. auto.
  - reflexivity.
Qed.

Lemma handler_outcome op fault s r s' :
  versioned op -> unique_ids s ->
  run (handler op) fault s = (r, s') ->
  outcome (negb (success r)) (faulted fault) s s'.
Proof.
  intros Hop Huniq Hrun. destruct op; cbn [handler] in Hrun.
  - eapply POST_create_outcome; eauto.
  - eapply PUT_outcome; eauto.
  - destruct Hop.
  - eapply POST_upload_outcome; eauto.
  - eapply POST_rollback_outcome; eauto.
Qed.

(* ================================================================= *)
(** * Invariants of the store *)

Lemma ids_write_back d l :
  map Resume._id (write_back d l) = map Resume._id l.
Proof.
  induction l as [|x t IH]; simpl; [reflexivity|].
  destruct (Nat.eqb_spec (Resume._id x) (Resume._id d)) as [E|NE]; simpl.
  - now rewrite E.
  - now rewrite IH.
Qed.

Lemma in_write_back d l x : In x (write_back d l) -> x = d \/ In x l.
Proof.
  induction l as [|y t IH]; simpl; [tauto|].
  destruct (Nat.eqb (Resume._id y) (Resume._id d)); simpl; intros [H|H]; auto.
  destruct (IH H); auto.
Qed.

Lemma outcome_wf failed injected s s' :
  outcome failed injected s s' -> wf_store s -> wf_store s'.
Proof.
  unfold wf_store, unique_ids, fresh.
  intros Ho (Hnd & Hr & Hv).
  destruct Ho as [ | d d' v Hfind _ Hrid _ _ _ | d d' Hfind _ _
                   | d v Hid _ Hrid _ _ _ | d v _ _ Hfind _ _ | d _ _ Hid _ ];
    cbn [resumes versions next_id].
  - auto.
  - destruct (find_resume_some _ _ _ Hfind) as [Hid Hin].
    rewrite ids_write_back. split; [assumption|]. split.
    + intros x Hx. apply in_write_back in Hx. destruct Hx as [->|Hx]; auto.
      rewrite <- Hid. auto.
    + intros x Hx. apply in_app_iff in Hx. destruct Hx as [Hx|[<-|[]]]; auto.
      rewrite Hrid, <- Hid. auto.
  - destruct (find_resume_some _ _ _ Hfind) as [Hid Hin].
    rewrite ids_write_back. split; [assumption|]. split; [|assumption].
    intros x Hx. apply in_write_back in Hx. destruct Hx as [->|Hx]; auto.
    rewrite <- Hid. auto.
  - rewrite map_app. cbn [map]. split; [|split].
    + apply NoDup_app; [assumption | repeat constructor; intros [] | ].
      intros i Hi [<-|[]]. apply in_map_iff in Hi. destruct Hi as (x & Hx & Hin).
      apply Hr in Hin. lia.
    + intros x Hx. apply in_app_iff in Hx. destruct Hx as [Hx|[<-|[]]]; [|lia].
      apply Hr in Hx. lia.
    + intros x Hx. apply in_app_iff in Hx. destruct Hx as [Hx|[<-|[]]]; [|lia].
      apply Hv in Hx. lia.
  - split; [assumption|]. split; [assumption|].
    intros x Hx. apply in_app_iff in Hx. destruct Hx as [Hx|[<-|[]]]; auto.
    destruct (find_resume_some _ _ _ Hfind) as [Hid Hin]. rewrite <- Hid. auto.
  - rewrite map_app. cbn [map]. split; [|split].
    + apply NoDup_app; [assumption | repeat constructor; intros [] | ].
      intros i Hi [<-|[]]. apply in_map_iff in Hi. destruct Hi as (x & Hx & Hin).
      apply Hr in Hin. lia.
    + intros x Hx. apply in_app_iff in Hx. destruct Hx as [Hx|[<-|[]]]; [|lia].
      apply Hr in Hx. lia.
    + intros x Hx. apply Hv in Hx. lia.
Qed.





Lemma find_version_app_some id n l v :
  find_version id n l <> None -> find_version id n (l ++ [v]) <> None.
Proof.
  rewrite find_version_app. destruct (find_version id n l); [discriminate | tauto].
Qed.

Lemma fresh_no_resume s id :
  fresh s -> next_id s <= id -> find_resume id (resumes s) = None.
Proof.
  intros [Hr _] Hle. destruct (find_resume id (resumes s)) as [x|] eqn:E; [|reflexivity].
  apply find_resume_some in E. destruct E as [E Hin]. apply Hr in Hin. lia.
Qed.

Lemma fresh_no_version s id n :
  fresh s -> next_id s <= id -> find_version id n (versions s) = None.
Proof.
  intros [_ Hv] Hle. destruct (find_version id n (versions s)) as [x|] eqn:E; [|reflexivity].
  apply find_version_some in E. destruct E as (E & _ & Hin). apply Hv in Hin. lia.
Qed.

Lemma outcome_consistent failed s s' :
  outcome failed false s s' -> consistent s -> consistent s'.
Proof.
  intros Ho Hc. pose proof (outcome_wf _ _ _ _ Ho (proj1 Hc)) as Hwf'.
  destruct Hc as (Hwf & Ha & Hp). split; [assumption|]. clear Hwf'.
  destruct Hwf as [_ Hfresh].
  unfold no_version_ahead, pointer_backed in *.
  destruct Ho as [ | d d' v Hfind Hcv Hrid Hvn Hdata Hfree | d d' Hfind Hcv Hdata
                   | d v Hid Hcv Hrid Hvn Hdata Hfree | d v _ Hi | d _ Hi Hid Hcv ];
    cbn [resumes versions]; try discriminate.
  - auto.
  - split.
    + intros v0 x Hin Hx. rewrite find_resume_write_back in Hx.
      apply in_app_iff in Hin.
      destruct (Nat.eqb_spec (Resume._id d') (ResumeVersion.resume_id v0)) as [E|NE].
      * rewrite <- E, Hfind in Hx. inversion Hx; subst x.
        destruct Hin as [Hin|[<-|[]]]; [|lia].
        specialize (Ha v0 d Hin). rewrite <- E in Ha. specialize (Ha Hfind). lia.
      * destruct Hin as [Hin|[<-|[]]]; [eauto | congruence].
    + intros id x Hx. rewrite find_resume_write_back in Hx.
      destruct (Nat.eqb_spec (Resume._id d') id) as [E|NE].
      * rewrite <- E, Hfind in Hx. inversion Hx; subst x. subst id.
        rewrite find_version_app, Hfree, Hrid, Hvn, !Nat.eqb_refl. discriminate.
      * apply find_version_app_some. eauto.
  - split.
    + intros v0 x Hin Hx. rewrite find_resume_write_back in Hx.
      destruct (Nat.eqb_spec (Resume._id d') (ResumeVersion.resume_id v0)) as [E|NE].
      * rewrite <- E, Hfind in Hx. inversion Hx; subst x.
        specialize (Ha v0 d Hin). rewrite <- E in Ha. specialize (Ha Hfind). lia.
      * eauto.
    + intros id x Hx. rewrite find_resume_write_back in Hx.
      destruct (Nat.eqb_spec (Resume._id d') id) as [E|NE].
      * rewrite <- E, Hfind in Hx. inversion Hx; subst x. subst id.
        rewrite Hcv. eauto.
      * eauto.
  - split.
    + intros v0 x Hin Hx. rewrite find_resume_app in Hx.
      apply in_app_iff in Hin. destruct Hin as [Hin|[<-|[]]].
      * destruct (find_resume (ResumeVersion.resume_id v0) (resumes s)) eqn:E.
        -- inversion Hx; subst. eauto.
        -- destruct (Nat.eqb_spec (Resume._id d) (ResumeVersion.resume_id v0)) as [E'|];
             [|discriminate].
           apply (proj2 Hfresh) in Hin. lia.
      * rewrite Hrid, (fresh_no_resume s (next_id s) Hfresh (le_n _)), Hid,
          Nat.eqb_refl in Hx.
        inversion Hx; subst x. lia.
    + intros id x Hx. rewrite find_resume_app in Hx.
      destruct (find_resume id (resumes s)) eqn:E.
      * inversion Hx; subst. apply find_version_app_some. eauto.
      * destruct (Nat.eqb_spec (Resume._id d) id) as [E'|]; [|discriminate].
        inversion Hx; subst x. rewrite <- E', Hid, Hcv.
        rewrite find_version_app, Hfree, Hrid, Hvn, !Nat.eqb_refl. discriminate.
  - exfalso. destruct Hi as [Hi|Hi]; [discriminate|].
    apply Hi. apply fresh_no_version; [assumption | lia].
Qed.



(* ================================================================= *)
(** * Which versions a request appends *)






(* ================================================================= *)
(** * A worked history *)

Lemma empty_consistent : consistent empty_store.
Proof.
  repeat split; cbn; try constructor; try contradiction.
  - intros v d [].
  - intros id d H. discriminate.
Qed.

Lemma store1_consistent : consistent store1.
Proof.
  eapply outcome_consistent; [|exact empty_consistent].
  pose proof (handler_outcome (Ingest payloadA) None empty_store
                (fst (run (handler (Ingest payloadA)) None empty_store)) store1 I
                (proj1 (proj1 empty_consistent)) eq_refl) as H.
  exact H.
Qed.


Lemma payloadA_wf : wf_smap payloadA.
Proof.
  unfold wf_smap, payloadA, person. simpl.
  repeat split; repeat constructor; simpl; intuition discriminate.
Qed.





(** C4 fails where an object meets an array: [{}] against [[]] is reported
    equal, so the changed section is not returned; the other way round the
    array branch tells them apart. *)
Theorem diffSections_object_vs_array :
  diffSections (Some [("skills", JObj [])]) [("skills", JArr [])] = [] /\
  diffSections (Some [("skills", JArr [])]) [("skills", JObj [])] = ["skills"] /\
  deepEqual (JObj [("0", JStr "x")]) (Some (JArr [JStr "x"])) = true.
Proof. repeat split. Qed.




(** C8 fails when the uploaded payload equals the stored data: the upload
    appends version 2 with an empty diff and the summary of "no change",
    where Replace with the same payload appends nothing. *)
Theorem upload_of_same_payload_appends :
  let up := run (handler (Ingest payloadA)) None store1 in
  let rp := run (handler (Replace 0 (put payloadA))) None store1 in
  status (fst up) = 200 /\
  map (fun v => (ResumeVersion.version_number v, ResumeVersion.changed_sections v,
                 ResumeVersion.change_summary v, ResumeVersion.change_type v))
      (versions (snd up))
    = [(1, ["meta"; "basics"], Some "Initial upload", upload);
       (2, [], Some "No changes detected", upload)] /\
  option_map Resume.current_version (find_resume 0 (resumes (snd up))) = Some 2 /\
  (exists doc, body (fst rp) = NoChange doc) /\
  snd rp = store1.
Proof. repeat split. eexists. reflexivity. Qed.




(* ================================================================= *)
(** * Two requests at once *)

(** Served alone, a request is its steps one after the other. *)
Lemma run_step p s :
  run p None s = run (fst (step p s)) None (snd (step p s)).
Proof.
  destruct p as [r|X op k]; [reflexivity|].
  cbn [run step option_map]. destruct (exec op s) as [[e|x] s1]; reflexivity.
Qed.

Lemma step_PUT_read id body data doc s :
  put_data body = Some data ->
  find_resume id (resumes s) = Some doc ->
  diffSections (Some (Resume.data doc)) data <> [] ->
  step (PUT id body) s = (PUT_append id doc body data, s).
Proof.
  intros Hd Hf Hne. unfold PUT. rewrite Hd. cbn [step exec]. rewrite Hf. cbv zeta.
  unfold PUT_append, PUT_save, edit_version, replaced.
  destruct (diffSections (Some (Resume.data doc)) data); [congruence|].
  reflexivity.
Qed.

Lemma step_PUT_append id body data doc s :
  find_version id (Resume.current_version doc + 1) (versions s) = None ->
  step (PUT_append id doc body data) s =
    (PUT_save doc body data,
     mkStore (resumes s) (versions s ++ [edit_version id doc data]) (next_id s)).
Proof.
  intros Hfree. unfold PUT_append.
  cbn [step exec edit_version ResumeVersion.resume_id ResumeVersion.version_number].
  now rewrite Hfree.
Qed.

Lemma step_PUT_conflict id body data doc s :
  find_version id (Resume.current_version doc + 1) (versions s) <> None ->
  step (PUT_append id doc body data) s =
    (Ret (NextResponse (Fail (Thrown DuplicateKey)) 500), s).
Proof.
  intros Hdup. unfold PUT_append.
  cbn [step exec edit_version ResumeVersion.resume_id ResumeVersion.version_number].
  destruct (find_version id (Resume.current_version doc + 1) (versions s));
    [reflexivity | congruence].
Qed.

Lemma replaced_id doc body data : Resume._id (replaced doc body data) = Resume._id doc.
Proof.
  unfold replaced.
  destruct (truthy_str (put_title body)), (truthy_str (put_meta_code body)); reflexivity.
Qed.

Lemma replaced_version doc body data :
  Resume.current_version (replaced doc body data) = Resume.current_version doc + 1 /\
  Resume.data (replaced doc body data) = data.
Proof.
  unfold replaced.
  destruct (truthy_str (put_title body)), (truthy_str (put_meta_code body)); split; reflexivity.
Qed.

Lemma step_PUT_save body data doc s :
  find_resume (Resume._id doc) (resumes s) <> None ->
  step (PUT_save doc body data) s =
    (Ret (NextResponse (Data (replaced doc body data)) 200),
     mkStore (write_back (replaced doc body data) (resumes s)) (versions s) (next_id s)).
Proof.
  intros Hf. unfold PUT_save. cbn [step exec]. rewrite replaced_id.
  destruct (find_resume (Resume._id doc) (resumes s)); [reflexivity | congruence].
Qed.

Lemma version_keys_app vs v :
  NoDup (map version_key vs) ->
  find_version (ResumeVersion.resume_id v) (ResumeVersion.version_number v) vs = None ->
  NoDup (map version_key (vs ++ [v])).
Proof.
  intros Hnd Hfree. rewrite map_app. cbn [map].
  apply NoDup_app; [assumption | repeat constructor; intros [] |].
  intros k Hk [<-|[]]. apply in_map_iff in Hk. destruct Hk as (w & Hw & Hin).
  unfold version_key in Hw. inversion Hw as [[H1 H2]].
  apply find_version_in in Hin. rewrite H1, H2 in Hin. contradiction.
Qed.

(** C3. Two Replace requests on one document, both having read it at
    version N (neither ran to its end before the other began), both with a
    payload that differs from the stored data, under any schedule of their
    store calls: the append of version N+1 succeeds for exactly one of
    them, which then moves the document to N+1; the other gets the
    duplicate-key conflict of the unique index, without a retry, and writes
    nothing.  No two stored versions share (resume_id, version_number). *)
Theorem concurrent_replace_one_winner sch s id b1 b2 d1 d2 doc :
  put_data b1 = Some d1 ->
  put_data b2 = Some d2 ->
  find_resume id (resumes s) = Some doc ->
  diffSections (Some (Resume.data doc)) d1 <> [] ->
  diffSections (Some (Resume.data doc)) d2 <> [] ->
  find_version id (Resume.current_version doc + 1) (versions s) = None ->
  NoDup (map version_key (versions s)) ->
  List.length (filter (fun b => b) sch) = 3 ->
  List.length (filter negb sch) = 3 ->
  firstn 3 sch <> [true; true; true] ->
  firstn 3 sch <> [false; false; false] ->
  exists r1 r2 s' b d,
    interleave sch (PUT id b1) (PUT id b2) s = (Ret r1, Ret r2, s') /\
    s' = mkStore (write_back (replaced doc b d) (resumes s))
                 (versions s ++ [edit_version id doc d]) (next_id s) /\
    version_key (edit_version id doc d) = (id, Resume.current_version doc + 1) /\
    find_resume id (resumes s') = Some (replaced doc b d) /\
    Resume.current_version (replaced doc b d) = Resume.current_version doc + 1 /\
    NoDup (map version_key (versions s')) /\
    ((b = b1 /\ d = d1 /\
      r1 = NextResponse (Data (replaced doc b1 d1)) 200 /\
      r2 = NextResponse (Fail (Thrown DuplicateKey)) 500) \/
     (b = b2 /\ d = d2 /\
      r2 = NextResponse (Data (replaced doc b2 d2)) 200 /\
      r1 = NextResponse (Fail (Thrown DuplicateKey)) 500)).
Proof.
  intros Hd1 Hd2 Hfind Hne1 Hne2 Hfree Hnd Htrue Hfalse Hov1 Hov2.
  destruct (find_resume_some _ _ _ Hfind) as [Hid _].
  assert (Hfind' : find_resume (Resume._id doc) (resumes s) <> None)
    by (rewrite Hid, Hfind; discriminate).
  assert (Hdup : forall d, find_version id (Resume.current_version doc + 1)
                             (versions s ++ [edit_version id doc d]) <> None).
  { intros d. rewrite find_version_app, Hfree. cbn. rewrite !Nat.eqb_refl. discriminate. }
  destruct sch as [|x1 [|x2 [|x3 [|x4 [|x5 [|x6 [|x7 t]]]]]]];
    try discriminate Htrue;
    repeat match goal with x : bool |- _ => destruct x end;
    try discriminate Htrue; try discriminate Hfalse;
    try (exfalso; apply Hov1; reflexivity); try (exfalso; apply Hov2; reflexivity);
    cbn [interleave];
    repeat (first
      [ erewrite step_PUT_read by (cbn [resumes]; eassumption)
      | rewrite step_PUT_append by (cbn [versions]; exact Hfree)
      | rewrite step_PUT_conflict by (cbn [versions]; apply Hdup)
      | rewrite step_PUT_save by (cbn [resumes]; exact Hfind')
      | progress cbn [step] ]);
    do 5 eexists; (split; [reflexivity|]); (split; [reflexivity|]);
    cbn [resumes versions];
    (split; [reflexivity|]);
    (split; [rewrite find_resume_write_back, replaced_id, Hid, Nat.eqb_refl, Hfind;
             reflexivity|]);
    (split; [apply replaced_version|]);
    (split; [apply version_keys_app; [exact Hnd | exact Hfree]|]);
    first [ left; repeat split; reflexivity | right; repeat split; reflexivity ].
Qed.

Lemma concurrent_replace_one_winner_witness :
  let sch := [true; false; false; true; true; false] in
  put_data (put payloadB) = Some payloadB /\
  put_data (put payloadC) = Some payloadC /\
  diffSections (Some payloadA) payloadB <> [] /\
  diffSections (Some payloadA) payloadC <> [] /\
  find_version 0 2 (versions store1) = None /\
  firstn 3 sch <> [true; true; true] /\
  firstn 3 sch <> [false; false; false] /\
  exists r1 r2 s',
    interleave sch (PUT 0 (put payloadB)) (PUT 0 (put payloadC)) store1
      = (Ret r1, Ret r2, s') /\
    status r1 = 500 /\ status r2 = 200 /\
    map version_key (versions s') = [(0, 1); (0, 2)] /\
    option_map Resume.data (find_resume 0 (resumes s')) = Some payloadC.
Proof.
  intros sch.
  assert (HB : diffSections (Some payloadA) payloadB <> []) by discriminate.
  assert (HC : diffSections (Some payloadA) payloadC <> []) by discriminate.
  assert (Hnd : NoDup (map version_key (versions store1))).
  { repeat constructor. intros []. }
  assert (H1 : firstn 3 sch <> [true; true; true]) by discriminate.
  assert (H2 : firstn 3 sch <> [false; false; false]) by discriminate.
  repeat (split; [first [reflexivity | assumption]|]).
  destruct (concurrent_replace_one_winner sch store1 0 (put payloadB) (put payloadC)
              payloadB payloadC
              (Resume.mk 0 "SWE" ("A " ++ en_dash ++ " SWE") payloadA 1)
              eq_refl eq_refl eq_refl HB HC eq_refl Hnd eq_refl eq_refl H1 H2)
    as (r1 & r2 & s' & b & d & Hrun & Hs' & _).
  exists r1, r2, s'. split; [exact Hrun|].
  vm_compute in Hrun. inversion Hrun; subst r1 r2 s'.
  repeat split.
Defined.

(* ================================================================= *)
(** * More on the section diff *)

Lemma existsb_eqb_in x seen : existsb (String.eqb x) seen = true <-> In x seen.
Proof.
  rewrite existsb_exists. split.
  - intros (y & Hy & E). apply String.eqb_eq in E. now subst.
  - intros H. exists x. split; [assumption | apply String.eqb_refl].
Qed.

Lemma set_of_in seen xs k : In k (set_of seen xs) <-> In k xs /\ ~ In k seen.
Proof.
  revert seen. induction xs as [|x t IH]; intros seen; simpl; [tauto|].
  destruct (existsb (String.eqb x) seen) eqn:E.
  - apply existsb_eqb_in in E. rewrite IH. split.
    + tauto.
    + intros [[->|H] Hn]; tauto.
  - assert (Hx : ~ In x seen).
    { intros H. apply existsb_eqb_in in H. congruence. }
    simpl. rewrite IH. simpl. split.
    + intros [->|[H Hn]]; [tauto|]. split; [tauto|]. intros H'. apply Hn. now right.
    + intros [[->|H] Hn]; [now left|].
      destruct (string_dec x k) as [->|Hne]; [now left|].
      right. split; [assumption|]. intros [E'|H']; [congruence | contradiction].
Qed.

Lemma set_of_nodup seen xs : NoDup (set_of seen xs).
Proof.
  revert seen. induction xs as [|x t IH]; intros seen; simpl; [constructor|].
  destruct (existsb (String.eqb x) seen); [apply IH|].
  constructor; [|apply IH].
  rewrite set_of_in. simpl. tauto.
Qed.

Lemma deepEqual_undefined a : deepEqual a None = false.
Proof. destruct a; reflexivity. Qed.

Lemma diffSections_in old new k :
  In k (diffSections (Some old) new) <->
  (In k (keys old) \/ In k (keys new)) /\
  deepEqual_u (js_get (JObj old) k) (js_get (JObj new) k) = false.
Proof.
  unfold diffSections.
  rewrite filter_In, set_of_in, in_app_iff, negb_true_iff. simpl. tauto.
Qed.

(** X1. The keys [diffSections] returns for two maps are exactly the keys
    of either map whose two values [deepEqual] does not equate, each
    returned once. *)
Theorem diffSections_changed_keys old new :
  NoDup (diffSections (Some old) new) /\
  forall k, In k (diffSections (Some old) new) <->
            (In k (keys old) \/ In k (keys new)) /\
            deepEqual_u (js_get (JObj old) k) (js_get (JObj new) k) = false.
Proof.
  split.
  - unfold diffSections. apply NoDup_filter, set_of_nodup.
  - intros k. apply diffSections_in.
Qed.

(** X2. A section that only one of the two maps has is always reported,
    whatever its value ([__proto__] apart, which every object answers). *)
Theorem added_or_removed_section_is_changed old new k :
  k <> "__proto__" ->
  (In k (keys new) /\ ~ In k (keys old)) \/ (In k (keys old) /\ ~ In k (keys new)) ->
  In k (diffSections (Some old) new).
Proof.
  intros Hk H. apply diffSections_in.
  apply String.eqb_neq in Hk.
  destruct H as [[Hin Hout]|[Hin Hout]]; (split; [tauto|]);
    destruct (own_in _ _ Hin) as (v & Hv & _);
    unfold js_get; rewrite Hv, (own_not_in _ _ Hout), Hk; simpl;
    [reflexivity | apply deepEqual_undefined].
Qed.

Lemma added_or_removed_section_is_changed_witness :
  "skills" <> "__proto__" /\
  In "skills" (diffSections (Some payloadB) payloadA).
Proof.
  assert (H : "skills" <> "__proto__") by discriminate.
  split; [exact H|].
  apply (added_or_removed_section_is_changed payloadB payloadA "skills" H).
  right. split.
  - right. right. left. reflexivity.
  - intros [E|[E|[]]]; discriminate E.
Defined.

Lemma every_from_same (P : json -> Prop) pre la lb :
  (forall x, In x la -> forall b, same_json x b -> deepEqual x (Some b) = true) ->
  Forall2 same_json la lb ->
  every_from (pre ++ lb) la (List.length pre) = true.
Proof.
  intros IH H. revert pre. induction H as [|x y la lb Hxy H IHl]; intros pre; simpl;
    [reflexivity|].
  rewrite nth_error_app2 by lia. rewrite Nat.sub_diag. simpl.
  rewrite (IH x (or_introl eq_refl) y Hxy). simpl.
  assert (IH' : forall z, In z la -> forall b, same_json z b -> deepEqual z (Some b) = true).
  { intros z Hz. apply IH. now right. }
  specialize (IHl IH' (pre ++ [y])%list).
  rewrite <- app_assoc, length_app in IHl. simpl in IHl.
  rewrite Nat.add_1_r in IHl. exact IHl.
Qed.

Lemma deepEqual_same_json a b :
  same_json a b -> deepEqual a (Some b) = true.
Proof.
  revert b.
  induction a as [ | x | n | s | items IH | props IH ] using json_nested_ind;
    intros b H; inversion H; subst.
  - reflexivity.
  - simpl. now destruct x.
  - simpl. apply Z.eqb_refl.
  - simpl. apply String.eqb_refl.
  - rewrite deepEqual_arr.
    match goal with F : Forall2 same_json _ _ |- _ =>
      rewrite (Forall2_length F), Nat.eqb_refl; simpl;
      apply (every_from_same (fun _ => True) [] items lb); [|exact F] end.
    rewrite Forall_forall in IH. exact IH.
  - rewrite deepEqual_obj.
    match goal with E : List.length props = _ |- _ => rewrite E, Nat.eqb_refl end.
    simpl. apply forallb_forall. intros [k v] Hin. simpl.
    match goal with F : forall k v, In (k, v) props -> _ |- _ =>
      destruct (F k v Hin) as (v' & Hin' & Hs) end.
    match goal with N : NoDup (keys mb) |- _ => rewrite (own_nodup mb k v' N Hin') end.
    rewrite Forall_forall in IH. apply (IH (k, v) Hin). exact Hs.
Qed.

Lemma object_free_wf v : object_free v = true -> wf_json v.
Proof.
  induction v as [ | x | n | s | items IH | props IH ] using json_nested_ind;
    intros H; try exact I; [|discriminate].
  apply wf_arr. simpl in H. rewrite forallb_forall in H.
  rewrite Forall_forall in *. intros x Hx. apply IH; auto.
Qed.

Lemma every_from_exact pre la lb :
  (forall x, In x la -> forall b, deepEqual x (Some b) = true -> x = b) ->
  List.length la = List.length lb ->
  every_from (pre ++ lb) la (List.length pre) = true ->
  la = lb.
Proof.
  revert pre lb. induction la as [|x t IH]; intros pre lb Hx Hlen H;
    destruct lb as [|y lb]; try discriminate; [reflexivity|].
  simpl in H. rewrite nth_error_app2 in H by lia. rewrite Nat.sub_diag in H. simpl in H.
  apply andb_true_iff in H. destruct H as [H1 H2].
  rewrite (Hx x (or_introl eq_refl) y H1). f_equal.
  apply (IH (pre ++ [y])%list).
  - intros z Hz. apply Hx. now right.
  - simpl in Hlen. lia.
  - rewrite <- app_assoc, length_app. simpl. rewrite Nat.add_1_r. exact H2.
Qed.

(** X4. On values without objects (primitives and arrays of them, nested
    at will) [deepEqual] is equality: order and length of arrays count, and
    [null] equals only [null]. *)
Theorem deepEqual_exact_without_objects a b :
  object_free a = true ->
  (deepEqual a (Some b) = true <-> a = b).
Proof.
  intros Hfree. split.
  - revert b Hfree.
    induction a as [ | x | n | s | items IH | props IH ] using json_nested_ind;
      intros b Hfree H; [ | | | | |discriminate];
      destruct b; simpl in H; try discriminate.
    + reflexivity.
    + f_equal. now apply Bool.eqb_prop.
    + f_equal. now apply Z.eqb_eq.
    + f_equal. now apply String.eqb_eq.
    + change (deepEqual (JArr items) (Some (JArr items0)) = true) in H.
      rewrite deepEqual_arr in H. apply andb_true_iff in H. destruct H as [Hl He].
      apply Nat.eqb_eq in Hl. f_equal.
      apply (every_from_exact [] items items0); [|assumption|assumption].
      simpl in Hfree. rewrite forallb_forall in Hfree. rewrite Forall_forall in IH.
      intros x Hx c Hc. apply IH; auto.
  - intros <-. apply deepEqual_refl, object_free_wf, Hfree.
Qed.

Lemma deepEqual_exact_without_objects_witness :
  object_free (JArr [JNum 1; JStr "x"]) = true /\
  (deepEqual (JArr [JNum 1; JStr "x"]) (Some (JArr [JStr "x"; JNum 1])) = true <->
   JArr [JNum 1; JStr "x"] = JArr [JStr "x"; JNum 1]).
Proof.
  split; [reflexivity|].
  exact (deepEqual_exact_without_objects (JArr [JNum 1; JStr "x"])
           (JArr [JStr "x"; JNum 1]) eq_refl).
Defined.

(** X5. The change summary says "No changes detected" for the empty list
    only; for every other list it reads "Updated ...". *)
Theorem summary_tells_no_change changedSections :
  (generateChangeSummary changedSections = "No changes detected" <->
   changedSections = []) /\
  (changedSections <> [] ->
   exists rest, generateChangeSummary changedSections = "Updated " ++ rest).
Proof.
  unfold generateChangeSummary.
  destruct changedSections as [|x [|y t]].
  - split; [tauto | congruence].
  - split; [split; discriminate | eexists; reflexivity].
  - destruct (Nat.leb (List.length (x :: y :: t)) 3);
      (split; [split; discriminate | eexists; reflexivity]).
Qed.

(* ================================================================= *)
(** * More on the write handlers *)

Lemma consistent_next_free s id doc :
  consistent s -> find_resume id (resumes s) = Some doc ->
  find_version id (Resume.current_version doc + 1) (versions s) = None.
Proof.
  intros (_ & Ha & _) Hf.
  destruct (find_version id (Resume.current_version doc + 1) (versions s)) as [v|] eqn:E;
    [|reflexivity].
  apply find_version_some in E. destruct E as (Hrid & Hvn & Hin).
  specialize (Ha v doc Hin). rewrite Hrid in Ha. specialize (Ha Hf). lia.
Qed.

Lemma consistent_fresh_free s n :
  consistent s -> find_version (next_id s) n (versions s) = None.
Proof.
  intros ((_ & Hfresh) & _). apply fresh_no_version; [assumption | lia].
Qed.

Lemma PUT_run s id body data doc :
  put_data body = Some data ->
  find_resume id (resumes s) = Some doc ->
  find_version id (Resume.current_version doc + 1) (versions s) = None ->
  run (PUT id body) None s =
  match diffSections (Some (Resume.data doc)) data with
  | [] => (NextResponse (NoChange (retitled doc body)) 200,
           mkStore (write_back (retitled doc body) (resumes s)) (versions s) (next_id s))
  | _ :: _ => (NextResponse (Data (replaced doc body data)) 200,
               mkStore (write_back (replaced doc body data) (resumes s))
                       (versions s ++ [edit_version id doc data]) (next_id s))
  end.
Proof.
  intros Hdata Hfind Hfree.
  destruct (find_resume_some _ _ _ Hfind) as [Hid _].
  unfold PUT. rewrite Hdata, run_await. cbn [exec]. rewrite Hfind. cbv zeta.
  unfold edit_version.
  destruct (diffSections (Some (Resume.data doc)) data) as [|c cs];
    cbn [List.length Nat.eqb].
  - unfold retitled.
    destruct (truthy_str (put_title body)) as [t|];
      destruct (truthy_str (put_meta_code body)) as [m|];
      rewrite ?run_await;
      cbn [run exec Resume._id Resume.set_title Resume.set_meta_code];
      rewrite ?Hid, ?Hfind; try reflexivity.
    rewrite write_back_same by (subst id; exact Hfind).
    destruct s; reflexivity.
  - rewrite run_await. cbn [exec ResumeVersion.resume_id ResumeVersion.version_number].
    rewrite Hfree. rewrite run_await. cbn [exec resumes versions next_id].
    fold (replaced doc body data). rewrite replaced_id, Hid, Hfind. reflexivity.
Qed.

Lemma POST_rollback_run s id n doc target :
  n <> 0 ->
  find_version id n (versions s) = Some target ->
  find_resume id (resumes s) = Some doc ->
  find_version id (Resume.current_version doc + 1) (versions s) = None ->
  run (POST_rollback id (Some n)) None s =
    (NextResponse (RolledBack (restored doc target) (Resume.current_version doc + 1)) 200,
     mkStore (write_back (restored doc target) (resumes s))
       (versions s ++
        [ResumeVersion.mk id (Resume.current_version doc + 1) (ResumeVersion.data target)
           (diffSections (Some (Resume.data doc)) (ResumeVersion.data target))
           (Some ("Rolled back to v" ++ nat_to_string n)) rollback])
       (next_id s)).
Proof.
  intros Hn Ht Hfind Hfree.
  destruct (find_resume_some _ _ _ Hfind) as [Hid _].
  unfold POST_rollback. destruct n as [|m]; [congruence|].
  rewrite run_await. cbn [exec]. rewrite Ht.
  cbv zeta. rewrite run_await. cbn [exec]. rewrite Hfind.
  rewrite run_await. cbn [exec ResumeVersion.resume_id ResumeVersion.version_number].
  rewrite Hfree. rewrite run_await. cbn [exec resumes versions next_id].
  fold (restored doc target).
  assert (Hsame : Resume._id (restored doc target) = id) by exact Hid.
  rewrite Hsame, Hfind. reflexivity.
Qed.





Lemma same_json_keys old new :
  NoDup (keys old) ->
  same_json (JObj old) (JObj new) ->
  forall k, In k (keys new) -> In k (keys old).
Proof.
  intros Hnd H. inversion H as [ | | | | | ma mb Hndb Hlen Hall]; subst.
  apply (NoDup_length_incl Hnd).
  - unfold keys. rewrite !length_map. lia.
  - intros k Hk. destruct (own_in _ _ Hk) as (v & _ & Hin).
    destruct (Hall k v Hin) as (v' & Hin' & _).
    unfold keys. change k with (fst (k, v')). now apply in_map.
Qed.

Lemma diffSections_same_json old new :
  wf_smap old -> same_json (JObj old) (JObj new) -> diffSections (Some old) new = [].
Proof.
  intros Hwf H. apply wf_obj in Hwf. destruct Hwf as [Hnd _].
  destruct (diffSections (Some old) new) as [|k t] eqn:E; [reflexivity|exfalso].
  assert (Hk : In k (diffSections (Some old) new)) by (rewrite E; now left).
  apply diffSections_in in Hk. destruct Hk as [Hin Hne].
  assert (Hold : In k (keys old)).
  { destruct Hin as [Hin|Hin]; [assumption|]. eapply same_json_keys; eauto. }
  destruct (own_in _ _ Hold) as (v & Hv & Hmem).
  inversion H as [ | | | | | ma mb Hndb Hlen Hall]; subst.
  destruct (Hall k v Hmem) as (v' & Hmem' & Hs).
  unfold js_get in Hne. rewrite Hv, (own_nodup new k v' Hndb Hmem') in Hne.
  simpl in Hne. rewrite (deepEqual_same_json v v' Hs) in Hne. discriminate.
Qed.

(** X3. Key order is no change: for two section maps that are equal up to
    the order in which their objects list their keys, at any depth,
    [deepEqual] answers true and [diffSections] returns no section. *)
Theorem key_order_is_no_change old new :
  wf_smap old ->
  same_json (JObj old) (JObj new) ->
  deepEqual (JObj old) (Some (JObj new)) = true /\
  diffSections (Some old) new = [].
Proof.
  intros Hwf H. split.
  - now apply deepEqual_same_json.
  - now apply diffSections_same_json.
Qed.

Lemma key_order_is_no_change_witness :
  let old := [("a", JNum 1); ("b", JArr [JObj [("x", JNull); ("y", JBool true)]])] in
  let new := [("b", JArr [JObj [("y", JBool true); ("x", JNull)]]); ("a", JNum 1)] in
  wf_smap old /\ same_json (JObj old) (JObj new) /\
  deepEqual (JObj old) (Some (JObj new)) = true /\
  diffSections (Some old) new = [].
Proof.
  intros old new.
  assert (Hwf : wf_smap old).
  { unfold wf_smap, old. simpl. repeat split; repeat constructor; simpl; intuition discriminate. }
  assert (Hin : same_json (JObj [("x", JNull); ("y", JBool true)])
                          (JObj [("y", JBool true); ("x", JNull)])).
  { apply sj_obj.
    - repeat constructor; simpl; intuition discriminate.
    - reflexivity.
    - intros k v [E|[E|[]]]; inversion E; subst;
        eexists; (split; [|constructor]); simpl; auto. }
  assert (H : same_json (JObj old) (JObj new)).
  { apply sj_obj.
    - repeat constructor; simpl; intuition discriminate.
    - reflexivity.
    - intros k v [E|[E|[]]]; inversion E; subst.
      + exists (JNum 1). split; [simpl; auto | constructor].
      + eexists. split; [simpl; left; reflexivity|].
        constructor. constructor; [exact Hin | constructor]. }
  split; [exact Hwf|]. split; [exact H|].
  exact (key_order_is_no_change old new Hwf H).
Defined.

(** X8. Replace with a payload equal to the stored data up to the order of
    keys, and with no title or meta code, reports [no_change] and leaves the
    store exactly as it was: no version, no write. *)
Theorem replace_same_payload_noop s id doc data :
  find_resume id (resumes s) = Some doc ->
  wf_smap (Resume.data doc) ->
  same_json (JObj (Resume.data doc)) (JObj data) ->
  run (PUT id (put data)) None s = (NextResponse (NoChange doc) 200, s).
Proof.
  intros Hf Hwf Hs. unfold PUT, put. cbn [put_data put_title put_meta_code].
  rewrite run_await. cbn [exec]. rewrite Hf. cbv zeta.
  rewrite (diffSections_same_json _ _ Hwf Hs). reflexivity.
Qed.

Lemma replace_same_payload_noop_witness :
  wf_smap payloadA /\
  same_json (JObj payloadA) (JObj (rev payloadA)) /\
  exists doc, run (PUT 0 (put (rev payloadA))) None store1
              = (NextResponse (NoChange doc) 200, store1).
Proof.
  assert (Hs : same_json (JObj payloadA) (JObj (rev payloadA))).
  { apply sj_obj.
    - repeat constructor; simpl; intuition discriminate.
    - reflexivity.
    - intros k v Hin. exists v. split; [now apply in_rev in Hin|].
      destruct Hin as [E|[E|[]]]; inversion E; subst.
      + apply sj_obj; [repeat constructor; intros [] | reflexivity |].
        intros k' v' [E'|[]]. inversion E'; subst. eexists. split; [now left | constructor].
      + apply sj_obj; [repeat constructor; intros [] | reflexivity |].
        intros k' v' [E'|[]]. inversion E'; subst. eexists. split; [now left|].
        apply sj_obj; [repeat constructor; intros [] | reflexivity |].
        intros k2 v2 [E2|[]]. inversion E2; subst. eexists. split; [now left | constructor]. }
  split; [exact payloadA_wf|]. split; [exact Hs|].
  eexists.
  exact (replace_same_payload_noop store1 0
           (Resume.mk 0 "SWE" ("A " ++ en_dash ++ " SWE") payloadA 1) (rev payloadA)
           eq_refl payloadA_wf Hs).
Defined.

(** X9. Rollback undoes Replace. In a consistent store where the
    document's data is the data of its current version N >= 1, a Replace
    followed by a rollback to N leaves the document with the data it had
    before the Replace. *)
Theorem rollback_undoes_replace s id doc body data :
  consistent s ->
  find_resume id (resumes s) = Some doc ->
  snapshot_ok (versions s) doc ->
  Resume.current_version doc <> 0 ->
  put_data body = Some data ->
  let s1 := snd (run (PUT id body) None s) in
  let rs := run (POST_rollback id (Some (Resume.current_version doc))) None s1 in
  status (fst rs) = 200 /\
  exists doc2, find_resume id (resumes (snd rs)) = Some doc2 /\
               Resume.data doc2 = Resume.data doc.
Proof.
  intros Hc Hf (target & Ht & Hdata) Hn Hd s1 rs.
  destruct (find_resume_some _ _ _ Hf) as [Hid _]. rewrite Hid in Ht.
  pose proof (consistent_next_free _ _ _ Hc Hf) as Hfree.
  assert (Hfree2 : find_version id (Resume.current_version doc + 2) (versions s) = None).
  { destruct (find_version id (Resume.current_version doc + 2) (versions s)) as [v|] eqn:E;
      [|reflexivity].
    apply find_version_some in E. destruct E as (Hrid & Hvn & Hin).
    destruct Hc as (_ & Ha & _). specialize (Ha v doc Hin).
    rewrite Hrid in Ha. specialize (Ha Hf). lia. }
  subst rs s1. rewrite (PUT_run s id body data doc Hd Hf Hfree).
  destruct (diffSections (Some (Resume.data doc)) data) as [|c cs]; cbn [snd].
  - assert (Hsame : Resume._id (retitled doc body) = id).
    { unfold retitled.
      destruct (truthy_str (put_title body)), (truthy_str (put_meta_code body)); exact Hid. }
    assert (Hcv : Resume.current_version (retitled doc body) = Resume.current_version doc).
    { unfold retitled.
      destruct (truthy_str (put_title body)), (truthy_str (put_meta_code body)); reflexivity. }
    rewrite (POST_rollback_run _ id _ (retitled doc body) target Hn); cbn [resumes versions].
    + cbn [fst snd status resumes]. split; [reflexivity|].
      exists (restored (retitled doc body) target). split; [|exact Hdata].
      rewrite find_resume_write_back. cbn [restored Resume._id Resume.set_current_version
                                            Resume.set_data].
      rewrite Hsame, Nat.eqb_refl, find_resume_write_back, Hsame, Nat.eqb_refl, Hf.
      reflexivity.
    + exact Ht.
    + rewrite find_resume_write_back, Hsame, Nat.eqb_refl, Hf. reflexivity.
    + rewrite Hcv. exact Hfree.
  - destruct (replaced_version doc body data) as [Hcv _].
    rewrite (POST_rollback_run _ id _ (replaced doc body data) target Hn); cbn [resumes versions].
    + cbn [fst snd status resumes]. split; [reflexivity|].
      exists (restored (replaced doc body data) target). split; [|exact Hdata].
      rewrite find_resume_write_back. cbn [restored Resume._id Resume.set_current_version
                                            Resume.set_data].
      rewrite replaced_id, Hid, Nat.eqb_refl, find_resume_write_back, replaced_id, Hid,
        Nat.eqb_refl, Hf.
      reflexivity.
    + rewrite find_version_app, Ht. reflexivity.
    + rewrite find_resume_write_back, replaced_id, Hid, Nat.eqb_refl, Hf. reflexivity.
    + rewrite Hcv, find_version_app.
      replace (Resume.current_version doc + 1 + 1) with (Resume.current_version doc + 2)
        by lia.
      rewrite Hfree2. cbn [edit_version ResumeVersion.resume_id ResumeVersion.version_number].
      destruct (Nat.eqb_spec (Resume.current_version doc + 1)
                             (Resume.current_version doc + 2)) as [E|_]; [lia|].
      now rewrite andb_false_r.
Qed.

Lemma rollback_undoes_replace_witness :
  consistent store1 /\
  (exists doc2,
     find_resume 0 (resumes (snd (run (POST_rollback 0 (Some 1)) None
                                      (snd (run (PUT 0 (put payloadB)) None store1)))))
       = Some doc2 /\
     Resume.data doc2 = payloadA).
Proof.
  split; [exact store1_consistent|].
  assert (Hsnap : snapshot_ok (versions store1)
                    (Resume.mk 0 "SWE" ("A " ++ en_dash ++ " SWE") payloadA 1)).
  { eexists. split; reflexivity. }
  exact (proj2 (rollback_undoes_replace store1 0
                  (Resume.mk 0 "SWE" ("A " ++ en_dash ++ " SWE") payloadA 1)
                  (put payloadB) payloadB store1_consistent eq_refl Hsnap
                  (fun H : 1 = 0 => O_S 0 (eq_sym H)) eq_refl)).
Defined.

(* ================================================================= *)
(** * What no request does *)

Lemma await_cases {X} (op : DbOp X) k fault s r s' :
  run (Await op k) fault s = (r, s') ->
  (status r = 500 /\ s' = s) \/
  (exists x s1, exec op s = (inr x, s1) /\
                run (k x) (option_map pred fault) s1 = (r, s')).
Proof.
  simpl. intros H. destruct fault as [[|n]|].
  - left. inversion H; subst. auto.
  - destruct (exec op s) as [[e|x] s1] eqn:E.
    + left. inversion H; subst. split; [reflexivity|].
      destruct op; simpl in E;
        repeat match goal with
               | E : context [match ?c with _ => _ end] |- _ => destruct c
               end; inversion E; reflexivity.
    + right. eauto.
  - destruct (exec op s) as [[e|x] s1] eqn:E.
    + left. inversion H; subst. split; [reflexivity|].
      destruct op; simpl in E;
        repeat match goal with
               | E : context [match ?c with _ => _ end] |- _ => destruct c
               end; inversion E; reflexivity.
    + right. eauto.
Qed.

Lemma await_past {X} (op : DbOp X) k f s0 r0 s0' :
  run (Await op k) f s0 = (r0, s0') ->
  (forall x f1 s1 r1 s1', run (k x) f1 s1 = (r1, s1') -> past_validation r1) ->
  past_validation r0.
Proof.
  intros H Hk. apply await_cases in H.
  destruct H as [[H _]|(x & s1 & _ & H)].
  - right. right. exact H.
  - eapply Hk; eauto.
Qed.

Ltac past :=
  repeat match goal with
    | H : run (Ret _) _ _ = (?r, _) |- past_validation ?r =>
        apply run_ret in H; destruct H as [-> _]; unfold past_validation; cbn; tauto
    | H : run (Await _ _) _ _ = (?r, _) |- past_validation ?r =>
        eapply await_past; [exact H | clear H; intros ? ? ? ? ? H; cbv beta in H]
    end.

Lemma PUT_untouched_or_past id body fault s r s' :
  run (PUT id body) fault s = (r, s') -> s' = s \/ past_validation r.
Proof.
  unfold PUT. intros Hrun.
  destruct (put_data body) as [data|]; [|finish_ret Hrun; now left].
  apply await_cases in Hrun.
  destruct Hrun as [[_ ->]|(found & s1 & Hex & Hrun)]; [now left|].
  cbn [exec] in Hex. inversion Hex; subst found s1; clear Hex.
  destruct (find_resume id (resumes s)) as [doc|]; [|finish_ret Hrun; now left].
  cbv zeta in Hrun. right.
  destruct (Nat.eqb _ 0);
    [destruct (truthy_str (put_title body)), (truthy_str (put_meta_code body))|];
    past.
Qed.

Lemma PATCH_untouched_or_past id body fault s r s' :
  run (PATCH id body) fault s = (r, s') -> s' = s \/ past_validation r.
Proof.
  unfold PATCH. intros Hrun.
  apply await_cases in Hrun.
  destruct Hrun as [[_ ->]|(found & s1 & Hex & Hrun)]; [now left|].
  cbn [exec] in Hex. inversion Hex; subst found s1; clear Hex.
  destruct (find_resume id (resumes s)) as [doc|]; [|finish_ret Hrun; now left].
  destruct (patch_document doc body); [finish_ret Hrun; now left|].
  right. past.
Qed.

Lemma POST_create_untouched_or_past body fault s r s' :
  run (POST_create body) fault s = (r, s') -> s' = s \/ past_validation r.
Proof.
  unfold POST_create. intros Hrun.
  destruct (create_data body) as [data|]; [|finish_ret Hrun; now left].
  cbv zeta in Hrun.
  destruct (match truthy_str (create_meta_code body) with
            | Some c => Some c | None => meta_code_of data end);
    [|finish_ret Hrun; now left].
  right. past.
Qed.

Lemma POST_upload_untouched_or_past body fault s r s' :
  run (POST_upload body) fault s = (r, s') -> s' = s \/ past_validation r.
Proof.
  unfold POST_upload. intros Hrun.
  destruct (unwrap_upload body) as [[data title]|]; [|finish_ret Hrun; now left].
  destruct (meta_code_of data); [|finish_ret Hrun; now left].
  cbv zeta in Hrun. right.
  eapply await_past; [eassumption|]. clear Hrun. intros found f1 s1 r1 s1' H.
  destruct found; past.
Qed.

Lemma POST_rollback_untouched_or_past id n fault s r s' :
  run (POST_rollback id n) fault s = (r, s') -> s' = s \/ past_validation r.
Proof.
  unfold POST_rollback. intros Hrun.
  destruct n as [[|n]|]; try (finish_ret Hrun; now left).
  apply await_cases in Hrun.
  destruct Hrun as [[_ ->]|(target & s1 & Hex & Hrun)]; [now left|].
  cbn [exec] in Hex. inversion Hex; subst target s1; clear Hex.
  destruct (find_version id (S n) (versions s)); [|finish_ret Hrun; now left].
  apply await_cases in Hrun.
  destruct Hrun as [[_ ->]|(found & s1 & Hex & Hrun)]; [now left|].
  cbn [exec] in Hex. inversion Hex; subst found s1; clear Hex.
  destruct (find_resume id (resumes s)); [|finish_ret Hrun; now left].
  cbv zeta in Hrun. right. past.
Qed.

(** X10. A request answered with 400 or 404 has written nothing: whatever
    the handler, the body and the store call made to fail, the store after
    it is the store before it. *)
Theorem client_error_leaves_store op fault s r s' :
  run (handler op) fault s = (r, s') ->
  status r = 400 \/ status r = 404 ->
  s' = s.
Proof.
  intros Hrun Hst.
  assert (H : s' = s \/ past_validation r).
  { destruct op; cbn [handler] in Hrun.
    - eapply POST_create_untouched_or_past; eauto.
    - eapply PUT_untouched_or_past; eauto.
    - eapply PATCH_untouched_or_past; eauto.
    - eapply POST_upload_untouched_or_past; eauto.
    - eapply POST_rollback_untouched_or_past; eauto. }
  destruct H as [H|[H|[H|H]]]; [assumption | | |]; exfalso; lia.
Qed.

Lemma client_error_leaves_store_witness :
  status (fst (run (handler (Rollback 0 (Some 7))) None store1)) = 404 /\
  snd (run (handler (Rollback 0 (Some 7))) None store1) = store1.
Proof.
  split; [reflexivity|].
  apply (client_error_leaves_store (Rollback 0 (Some 7)) None store1
           (fst (run (handler (Rollback 0 (Some 7))) None store1))).
  - reflexivity.
  - right. reflexivity.
Defined.

Lemma create_grows v (k : unit -> Prog Response) fault s r s' :
  run (Await (ResumeVersion_create v) k) fault s = (r, s') ->
  s' = s \/
  (find_version (ResumeVersion.resume_id v) (ResumeVersion.version_number v) (versions s)
     = None /\
   run (k tt) (option_map pred fault)
       (mkStore (resumes s) (versions s ++ [v]) (next_id s)) = (r, s')).
Proof.
  intros H. apply await_cases in H.
  destruct H as [[_ ->]|([] & s1 & Hex & H)]; [now left|].
  cbn [exec] in Hex.
  destruct (find_version _ _ _); [discriminate|].
  inversion Hex; subst s1. right. auto.
Qed.

Lemma save_keeps_versions d (R : Response) fault s r s' :
  run (await _ <- Resume_save d ;; Ret R) fault s = (r, s') -> versions s' = versions s.
Proof.
  intros H. apply await_cases in H.
  destruct H as [[_ ->]|([] & s1 & Hex & H)]; [reflexivity|].
  cbn [exec] in Hex. destruct (find_resume _ _); [|discriminate].
  inversion Hex; subst s1. apply run_ret in H. destruct H as [_ ->]. reflexivity.
Qed.

Lemma advance_grown fault s r s' d' v (R : Response) :
  run (await _ <- ResumeVersion_create v ;; await _ <- Resume_save d' ;; Ret R) fault s
    = (r, s') ->
  grown (versions s) (versions s').
Proof.
  intros H. apply create_grows in H. destruct H as [->|[Hfree H]]; [now left|].
  apply save_keeps_versions in H. right. exists v. auto.
Qed.

Lemma born_grown fault s r s' c t data (mkv : nat -> ResumeVersion.t)
      (R : Resume.t -> Response) :
  run (await newResume <- Resume_create c t data 1 ;;
       await _ <- ResumeVersion_create (mkv (Resume._id newResume)) ;;
       Ret (R newResume)) fault s = (r, s') ->
  grown (versions s) (versions s').
Proof.
  intros H. apply await_cases in H.
  destruct H as [[_ ->]|(d & s1 & Hex & H)]; [now left|].
  cbn [exec] in Hex. inversion Hex; subst d s1; clear Hex.
  apply create_grows in H. cbn [versions] in H.
  destruct H as [->|[Hfree H]]; [now left|].
  apply run_ret in H. destruct H as [_ ->]. right. eexists. split; [reflexivity|assumption].
Qed.

Lemma handler_grown op fault s r s' :
  run (handler op) fault s = (r, s') -> grown (versions s) (versions s').
Proof.
  intros Hrun. destruct op as [body|id body|id body|body|id n]; cbn [handler] in Hrun.
  - unfold POST_create in Hrun.
    destruct (create_data body) as [data|]; [|finish_ret Hrun; now left].
    cbv zeta in Hrun.
    destruct (match truthy_str (create_meta_code body) with
              | Some c => Some c | None => meta_code_of data end);
      [|finish_ret Hrun; now left].
    eapply (born_grown _ _ _ _ _ _ _ (fun i => ResumeVersion.mk i 1 data [] None edit)
              (fun d => NextResponse (Data d) 201)); eauto.
  - unfold PUT in Hrun.
    destruct (put_data body) as [data|]; [|finish_ret Hrun; now left].
    apply await_cases in Hrun.
    destruct Hrun as [[_ ->]|(found & s1 & Hex & Hrun)]; [now left|].
    cbn [exec] in Hex. inversion Hex; subst found s1; clear Hex.
    destruct (find_resume id (resumes s)) as [doc|]; [|finish_ret Hrun; now left].
    cbv zeta in Hrun.
    destruct (Nat.eqb _ 0).
    + destruct (truthy_str (put_title body)), (truthy_str (put_meta_code body));
        try (apply save_keeps_versions in Hrun; left; assumption).
      finish_ret Hrun. now left.
    + eapply advance_grown; eauto.
  - unfold PATCH in Hrun.
    apply await_cases in Hrun.
    destruct Hrun as [[_ ->]|(found & s1 & Hex & Hrun)]; [now left|].
    cbn [exec] in Hex. inversion Hex; subst found s1; clear Hex.
    destruct (find_resume id (resumes s)) as [doc|]; [|finish_ret Hrun; now left].
    destruct (patch_document doc body); [finish_ret Hrun; now left|].
    apply save_keeps_versions in Hrun. left. assumption.
  - unfold POST_upload in Hrun.
    destruct (unwrap_upload body) as [[data title]|]; [|finish_ret Hrun; now left].
    destruct (meta_code_of data) as [c|]; [|finish_ret Hrun; now left].
    cbv zeta in Hrun.
    apply await_cases in Hrun.
    destruct Hrun as [[_ ->]|(found & s1 & Hex & Hrun)]; [now left|].
    cbn [exec] in Hex. inversion Hex; subst found s1; clear Hex.
    destruct (find_by_code c (resumes s)).
    + eapply advance_grown; eauto.
    + eapply (born_grown _ _ _ _ _ _ _
                (fun i => ResumeVersion.mk i 1 data (keys data) (Some "Initial upload") upload)
                (fun d => NextResponse (Uploaded true d) 201)); eauto.
  - unfold POST_rollback in Hrun.
    destruct n as [[|n]|]; try (finish_ret Hrun; now left).
    apply await_cases in Hrun.
    destruct Hrun as [[_ ->]|(target & s1 & Hex & Hrun)]; [now left|].
    cbn [exec] in Hex. inversion Hex; subst target s1; clear Hex.
    destruct (find_version id (S n) (versions s)); [|finish_ret Hrun; now left].
    apply await_cases in Hrun.
    destruct Hrun as [[_ ->]|(found & s1 & Hex & Hrun)]; [now left|].
    cbn [exec] in Hex. inversion Hex; subst found s1; clear Hex.
    destruct (find_resume id (resumes s)); [|finish_ret Hrun; now left].
    cbv zeta in Hrun. eapply advance_grown; eauto.
Qed.

(** X11. The version log is append-only. Whatever the request (create,
    Replace, partial update, upload, rollback), its body and the store call
    made to fail, every stored version is still stored afterwards,
    unchanged and in place; at most one version is added, after them, and
    if no two versions shared (resume_id, version_number) before, none do
    after. *)
Theorem version_log_is_append_only op fault s r s' :
  run (handler op) fault s = (r, s') ->
  (exists added, versions s' = (versions s ++ added)%list /\ List.length added <= 1) /\
  (NoDup (map version_key (versions s)) -> NoDup (map version_key (versions s'))).
Proof.
  intros Hrun. apply handler_grown in Hrun.
  destruct Hrun as [->|(v & -> & Hfree)].
  - split; [|tauto]. exists []. rewrite app_nil_r. auto.
  - split.
    + exists [v]. auto.
    + intros Hnd. now apply version_keys_app.
Qed.

Lemma version_log_is_append_only_witness :
  exists added,
    versions (snd (run (handler (Rollback 0 (Some 1))) (Some 3) store1))
      = (versions store1 ++ added)%list /\ List.length added <= 1.
Proof.
  exact (proj1 (version_log_is_append_only (Rollback 0 (Some 1)) (Some 3) store1
                  (fst (run (handler (Rollback 0 (Some 1))) (Some 3) store1))
                  (snd (run (handler (Rollback 0 (Some 1))) (Some 3) store1))
                  eq_refl)).
Defined.

Lemma patch_document_frame doc body r :
  patch_document doc body = inr r ->
  Resume._id r = Resume._id doc /\
  Resume.current_version r = Resume.current_version doc.
Proof.
  unfold patch_document. intros H.
  assert (Multi : forall ss,
    (let invalidKeys :=
       filter (fun k => negb (includes validSections k)) (keys (entries ss)) in
     if Nat.ltb 0 (List.length invalidKeys) then inl (InvalidSections invalidKeys)
     else
       let r := Resume.set_data doc (spread (Resume.data doc) (entries ss)) in
       match truthy_str (as_string (field (js_get ss "meta") "code")) with
       | Some c => inr (Resume.set_meta_code r c)
       | None => inr r
       end) = inr r ->
    Resume._id r = Resume._id doc /\
    Resume.current_version r = Resume.current_version doc).
  { intros ss H'. cbv zeta in H'.
    destruct (Nat.ltb 0 _); [discriminate|].
    destruct (truthy_str (as_string (field (js_get ss "meta") "code")));
      inversion H'; subst; cbn; auto. }
  destruct (truthy_str (section body)) as [sec|].
  - destruct (value body) as [val|].
    + destruct (negb (includes validSections sec)); [discriminate|].
      destruct (String.eqb sec "meta");
        destruct (truthy_str (as_string (field (Some val) "code")));
        inversion H; subst; cbn; auto.
    + destruct (sections body) as [[ | | | | l | m]|]; try (apply (Multi (JArr l)); exact H); try (apply (Multi (JObj m)); exact H);
        (destruct (truthy_str (patch_title body)); inversion H; subst; cbn; auto).
  - destruct (sections body) as [[ | | | | l | m]|]; try (apply (Multi (JArr l)); exact H); try (apply (Multi (JObj m)); exact H);
      (destruct (truthy_str (patch_title body)); inversion H; subst; cbn; auto).
Qed.

Lemma outcome_pointer_step failed injected s s' :
  outcome failed injected s s' ->
  forall id d, find_resume id (resumes s) = Some d ->
  exists d', find_resume id (resumes s') = Some d' /\
             Resume.current_version d <= Resume.current_version d' /\
             Resume.current_version d' <= Resume.current_version d + 1.
Proof.
  intros Ho id x Hx.
  destruct Ho as [ | d d' v Hfind Hcv _ _ _ _ | d d' Hfind Hcv _
                   | d v _ _ _ _ _ _ | d v _ _ _ _ _ | d _ _ _ _ ];
    cbn [resumes].
  - exists x. split; [assumption | lia].
  - rewrite find_resume_write_back.
    destruct (Nat.eqb_spec (Resume._id d') id) as [E|NE].
    + rewrite Hx. exists d'. split; [reflexivity|].
      subst id. rewrite Hfind in Hx. inversion Hx; subst x. lia.
    + exists x. split; [assumption | lia].
  - rewrite find_resume_write_back.
    destruct (Nat.eqb_spec (Resume._id d') id) as [E|NE].
    + rewrite Hx. exists d'. split; [reflexivity|].
      subst id. rewrite Hfind in Hx. inversion Hx; subst x. lia.
    + exists x. split; [assumption | lia].
  - rewrite find_resume_app, Hx. exists x. split; [reflexivity | lia].
  - exists x. split; [assumption | lia].
  - rewrite find_resume_app, Hx. exists x. split; [reflexivity | lia].
Qed.

(** X12. The current pointer only moves forward, one step at a time, and
    no document is lost: whatever the request among the five writes, its
    body and the store call made to fail, a document stored before is
    stored after, with [current_version] unchanged or increased by exactly
    one. *)
Theorem pointer_moves_forward op fault s r s' id d :
  unique_ids s ->
  run (handler op) fault s = (r, s') ->
  find_resume id (resumes s) = Some d ->
  exists d', find_resume id (resumes s') = Some d' /\
             Resume.current_version d <= Resume.current_version d' /\
             Resume.current_version d' <= Resume.current_version d + 1.
Proof.
  intros Hu Hrun Hd.
  assert (V : versioned op ->
              exists d', find_resume id (resumes s') = Some d' /\
                         Resume.current_version d <= Resume.current_version d' /\
                         Resume.current_version d' <= Resume.current_version d + 1).
  { intros Hv. eapply outcome_pointer_step; [|exact Hd].
    eapply handler_outcome; eassumption. }
  destruct op as [body|pid body|pid body|body|pid n]; try (apply V; exact I). clear V.
  cbn [handler] in Hrun. unfold PATCH in Hrun.
  apply await_cases in Hrun.
  destruct Hrun as [[_ ->]|(found & s1 & Hex & Hrun)];
    [exists d; split; [assumption | lia]|].
  cbn [exec] in Hex. inversion Hex; subst found s1; clear Hex.
  destruct (find_resume pid (resumes s)) as [doc|] eqn:Hf;
    [|finish_ret Hrun; exists d; split; [assumption | lia]].
  destruct (patch_document doc body) as [f|doc'] eqn:Hp;
    [finish_ret Hrun; exists d; split; [assumption | lia]|].
  destruct (patch_document_frame _ _ _ Hp) as [H1 H2].
  destruct (find_resume_some _ _ _ Hf) as [Hid _].
  apply await_cases in Hrun.
  destruct Hrun as [[_ ->]|([] & s2 & Hex & Hrun)];
    [exists d; split; [assumption | lia]|].
  cbn [exec] in Hex. rewrite H1, Hid, Hf in Hex. inversion Hex; subst s2; clear Hex.
  apply run_ret in Hrun. destruct Hrun as [_ ->]. cbn [resumes].
  rewrite find_resume_write_back, H1, Hid.
  destruct (Nat.eqb_spec pid id) as [E|NE].
  - rewrite <- E in Hd |- *. rewrite Hf. exists doc'. split; [reflexivity|].
    rewrite Hf in Hd. inversion Hd; subst d. lia.
  - exists d. split; [assumption | lia].
Qed.

Lemma pointer_moves_forward_witness :
  unique_ids store1 /\
  exists d', find_resume 0 (resumes (snd (run (handler (Ingest payloadB)) None store1)))
             = Some d' /\
             1 <= Resume.current_version d' /\ Resume.current_version d' <= 1 + 1.
Proof.
  split; [exact (proj1 (proj1 store1_consistent))|].
  exact (pointer_moves_forward (Ingest payloadB) None store1
           (fst (run (handler (Ingest payloadB)) None store1))
           (snd (run (handler (Ingest payloadB)) None store1))
           0 (Resume.mk 0 "SWE" ("A " ++ en_dash ++ " SWE") payloadA 1)
           (proj1 (proj1 store1_consistent)) eq_refl eq_refl).
Defined.

Example filename_doc_example :
  generateOutputFilename (Build_Date 2026 1) "John Doe" "SWE" 4 = "JohnDoe_SWE_2602_v4".
Proof. reflexivity. Qed.

(* ================================================================= *)
(** * The history of a document *)

Lemma find_resume_write_back_some d' l id :
  find_resume (Resume._id d') l <> None ->
  find_resume id l <> None -> find_resume id (write_back d' l) <> None.
Proof.
  intros Hd Hid. rewrite find_resume_write_back.
  destruct (Nat.eqb_spec (Resume._id d') id) as [E|NE]; [|assumption].
  destruct (find_resume id l); [discriminate | congruence].
Qed.

Lemma find_resume_app_some id l r :
  find_resume id l <> None -> find_resume id (l ++ [r]) <> None.
Proof.
  rewrite find_resume_app. destruct (find_resume id l); [discriminate | tauto].
Qed.

(** A save that keeps [_id] and [current_version] keeps both invariants. *)
Lemma touch_keeps_history s d d' :
  find_resume (Resume._id d') (resumes s) = Some d ->
  Resume.current_version d' = Resume.current_version d ->
  linear_history s ->
  linear_history (mkStore (write_back d' (resumes s)) (versions s) (next_id s)).
Proof.
  intros Hfind Hcv (Hnd & Hv & Hd).
  split; [exact Hnd|]. split; cbn [resumes versions].
  - intros v Hin. split; [now apply Hv|].
    apply find_resume_write_back_some; [congruence | now apply Hv].
  - intros id x H. rewrite find_resume_write_back in H.
    destruct (Nat.eqb_spec (Resume._id d') id) as [E|NE].
    + subst id. rewrite Hfind in H. inversion H; subst x. rewrite Hcv.
      apply (Hd _ _ Hfind).
    + apply (Hd _ _ H).
Qed.

Lemma touch_keeps_consistent s d d' :
  find_resume (Resume._id d') (resumes s) = Some d ->
  Resume.current_version d' = Resume.current_version d ->
  consistent s ->
  consistent (mkStore (write_back d' (resumes s)) (versions s) (next_id s)).
Proof.
  intros Hfind Hcv ((Hu & Hfr & Hfv) & Ha & Hp).
  destruct (find_resume_some _ _ _ Hfind) as [Hid Hin].
  split; [split; [|split]|split]; cbn [resumes versions next_id].
  - unfold unique_ids. cbn [resumes]. rewrite ids_write_back. exact Hu.
  - intros x Hx. apply in_write_back in Hx. destruct Hx as [->|Hx]; auto.
    rewrite <- Hid. auto.
  - assumption.
  - intros v x Hin' Hx. cbn [resumes versions] in *. rewrite find_resume_write_back in Hx.
    destruct (Nat.eqb_spec (Resume._id d') (ResumeVersion.resume_id v)) as [E|NE].
    + rewrite <- E, Hfind in Hx. inversion Hx; subst x. rewrite Hcv.
      apply (Ha v d Hin'). now rewrite <- E.
    + eauto.
  - intros id x Hx. cbn [resumes versions] in *. rewrite find_resume_write_back in Hx.
    destruct (Nat.eqb_spec (Resume._id d') id) as [E|NE].
    + subst id. rewrite Hfind in Hx. inversion Hx; subst x. rewrite Hcv. eauto.
    + eauto.
Qed.

Lemma outcome_history failed s s' :
  outcome failed false s s' -> consistent s -> linear_history s -> linear_history s'.
Proof.
  intros Ho Hc Hl.
  destruct Ho as [ | d d' v Hfind Hcv Hrid Hvn Hdata Hfree | d d' Hfind Hcv Hdata
                   | d v Hid Hcv Hrid Hvn Hdata Hfree | d v _ Hi | d _ Hi Hid Hcv ];
    try discriminate.
  - assumption.
  - destruct Hl as (Hnd & Hv & Hd).
    split; [|split]; cbn [resumes versions].
    + apply version_keys_app; [assumption | now rewrite Hrid, Hvn].
    + intros w H. apply in_app_iff in H. destruct H as [H|[<-|[]]].
      * split; [now apply Hv|].
        apply find_resume_write_back_some; [congruence | now apply Hv].
      * split; [lia|].
        apply find_resume_write_back_some; [congruence | rewrite Hrid; congruence].
    + intros id x H. rewrite find_resume_write_back in H.
      destruct (Nat.eqb_spec (Resume._id d') id) as [E|NE].
      * subst id. rewrite Hfind in H. inversion H; subst x. split; [lia|].
        intros n Hn.
        destruct (Nat.eq_dec n (Resume.current_version d')) as [->|Hne].
        -- rewrite find_version_app, Hfree, Hrid, Hvn, !Nat.eqb_refl. discriminate.
        -- apply find_version_app_some. apply (Hd _ _ Hfind). lia.
      * split; [apply (Hd _ _ H)|]. intros n Hn.
        apply find_version_app_some. apply (Hd _ _ H). assumption.
  - eapply touch_keeps_history; eauto.
  - destruct Hl as (Hnd & Hv & Hd). destruct Hc as ((_ & Hfresh) & _).
    split; [|split]; cbn [resumes versions].
    + apply version_keys_app; [assumption | now rewrite Hrid, Hvn].
    + intros w H. apply in_app_iff in H. destruct H as [H|[<-|[]]].
      * split; [now apply Hv|]. apply find_resume_app_some. now apply Hv.
      * split; [lia|].
        rewrite find_resume_app, Hrid, (fresh_no_resume s (next_id s) Hfresh (le_n _)),
          Hid, Nat.eqb_refl. discriminate.
    + intros id x H. rewrite find_resume_app in H.
      destruct (find_resume id (resumes s)) eqn:E.
      * inversion H; subst x. split; [apply (Hd _ _ E)|]. intros n Hn.
        apply find_version_app_some. apply (Hd _ _ E). assumption.
      * destruct (Nat.eqb_spec (Resume._id d) id) as [E'|]; inversion H; subst x.
        split; [lia|]. intros n Hn.
        assert (n = 1) by lia. subst n.
        rewrite <- E', Hid, find_version_app, Hfree, Hrid, Hvn, !Nat.eqb_refl. discriminate.
  - exfalso. destruct Hi as [Hi|Hi]; [discriminate|].
    apply Hi. apply consistent_fresh_free. exact Hc.
Qed.

Lemma PATCH_shape id body fault s r s' :
  run (PATCH id body) fault s = (r, s') ->
  s' = s \/
  exists doc doc',
    find_resume (Resume._id doc') (resumes s) = Some doc /\
    Resume.current_version doc' = Resume.current_version doc /\
    s' = mkStore (write_back doc' (resumes s)) (versions s) (next_id s).
Proof.
  unfold PATCH. intros Hrun.
  apply await_cases in Hrun.
  destruct Hrun as [[_ ->]|(found & s1 & Hex & Hrun)]; [now left|].
  cbn [exec] in Hex. inversion Hex; subst found s1; clear Hex.
  destruct (find_resume id (resumes s)) as [doc|] eqn:Hf; [|finish_ret Hrun; now left].
  destruct (patch_document doc body) as [f|doc'] eqn:Hp; [finish_ret Hrun; now left|].
  destruct (patch_document_frame _ _ _ Hp) as [H1 H2].
  destruct (find_resume_some _ _ _ Hf) as [Hid _].
  apply await_cases in Hrun.
  destruct Hrun as [[_ ->]|([] & s2 & Hex & Hrun)]; [now left|].
  cbn [exec] in Hex. rewrite H1, Hid, Hf in Hex. inversion Hex; subst s2; clear Hex.
  apply run_ret in Hrun. destruct Hrun as [_ ->].
  right. exists doc, doc'. rewrite H1, Hid. auto.
Qed.

(** X13. The history of every document stays the contiguous sequence
    1..current_version, without gap or duplicate.  If the store is
    consistent and has that shape, it is consistent and has it after any of
    the five writes in which no store call is made to fail. *)
Theorem history_stays_linear op s r s' :
  consistent s ->
  linear_history s ->
  run (handler op) None s = (r, s') ->
  consistent s' /\ linear_history s'.
Proof.
  intros Hc Hl Hrun.
  assert (V : versioned op -> consistent s' /\ linear_history s').
  { intros Hv.
    pose proof (handler_outcome op None s r s' Hv (proj1 (proj1 Hc)) Hrun) as Ho.
    cbn [faulted] in Ho. split.
    - eapply outcome_consistent; eauto.
    - eapply outcome_history; eauto. }
  destruct op as [body|pid body|pid body|body|pid n]; try (apply V; exact I). clear V.
  cbn [handler] in Hrun. apply PATCH_shape in Hrun.
  destruct Hrun as [->|(doc & doc' & Hf & Hcv & ->)]; [tauto|].
  split.
  - eapply touch_keeps_consistent; eauto.
  - eapply touch_keeps_history; eauto.
Qed.

Lemma empty_linear : linear_history empty_store.
Proof.
  repeat split; cbn; try constructor; try contradiction; try discriminate.
Qed.

Lemma store1_linear : linear_history store1.
Proof.
  eapply outcome_history; [|exact empty_consistent|exact empty_linear].
  exact (handler_outcome (Ingest payloadA) None empty_store
           (fst (run (handler (Ingest payloadA)) None empty_store)) store1 I
           (proj1 (proj1 empty_consistent)) eq_refl).
Qed.

Lemma history_stays_linear_witness :
  consistent store1 /\ linear_history store1 /\
  linear_history (snd (run (handler (Rollback 0 (Some 1))) None store1)).
Proof.
  split; [exact store1_consistent|]. split; [exact store1_linear|].
  exact (proj2 (history_stays_linear (Rollback 0 (Some 1)) store1
                  (fst (run (handler (Rollback 0 (Some 1))) None store1))
                  (snd (run (handler (Rollback 0 (Some 1))) None store1))
                  store1_consistent store1_linear eq_refl)).
Defined.

(* ================================================================= *)
(** * Reading the history *)

Lemma run_app_call {X} (op : AppOp X) k w :
  run_app (Call op k) None w =
  match exec_app op w with
  | (inl e, w') => (AppJson (Plain (Fail (Thrown e))) 500, w')
  | (inr x, w') => run_app (k x) None w'
  end.
Proof. reflexivity. Qed.

(** A write handler run over the whole store is the handler run over its
    resumes and versions; the jobs stay. *)
Lemma run_app_lift p : forall fault w,
  run_app (lift p) fault w =
  (AppJson (Plain (body (fst (run p fault (store w)))))
           (status (fst (run p fault (store w)))),
   with_store w (snd (run p fault (store w)))).
Proof.
  induction p as [r|X op k IH]; intros fault w.
  - cbn. destruct w; reflexivity.
  - cbn [lift run_app run]. destruct fault as [[|n]|].
    + cbn. destruct w; reflexivity.
    + cbn [exec_app]. destruct (exec op (store w)) as [[e|x] s1]; [reflexivity|].
      rewrite IH. reflexivity.
    + cbn [exec_app]. destruct (exec op (store w)) as [[e|x] s1]; [reflexivity|].
      rewrite IH. reflexivity.
Qed.

Lemma in_insert_desc v l x : In x (insert_desc v l) <-> x = v \/ In x l.
Proof.
  induction l as [|y t IH]; simpl; [intuition|].
  destruct (Nat.leb _ _); simpl; [intuition | rewrite IH; intuition].
Qed.

Lemma in_sort_desc l x : In x (sort_desc l) <-> In x l.
Proof.
  induction l as [|y t IH]; simpl; [tauto|].
  rewrite in_insert_desc, IH. intuition.
Qed.

Lemma insert_desc_descending v l :
  descending (map ResumeVersion.version_number l) ->
  descending (map ResumeVersion.version_number (insert_desc v l)).
Proof.
  induction l as [|y t IH]; simpl; intros H.
  - split; [intros ? [] | exact I].
  - destruct H as [Hy Ht].
    destruct (Nat.leb_spec (ResumeVersion.version_number y) (ResumeVersion.version_number v)).
    + simpl. split; [|split; assumption].
      intros z [<-|Hz]; [assumption|]. specialize (Hy z Hz). lia.
    + simpl. split; [|now apply IH].
      intros z Hz. apply in_map_iff in Hz. destruct Hz as (w & <- & Hw).
      apply in_insert_desc in Hw. destruct Hw as [->|Hw]; [lia|].
      apply Hy. now apply in_map.
Qed.

Lemma sort_desc_descending l :
  descending (map ResumeVersion.version_number (sort_desc l)).
Proof.
  induction l as [|y t IH]; simpl; [exact I|]. now apply insert_desc_descending.
Qed.

Lemma insert_desc_nodup v l :
  ~ In (ResumeVersion.version_number v) (map ResumeVersion.version_number l) ->
  NoDup (map ResumeVersion.version_number l) ->
  NoDup (map ResumeVersion.version_number (insert_desc v l)).
Proof.
  induction l as [|y t IH]; simpl; intros Hn Hnd.
  - constructor; [intros [] | constructor].
  - destruct (Nat.leb _ _); simpl.
    + constructor; [exact Hn | exact Hnd].
    + inversion Hnd as [|? ? Hy Ht]; subst. constructor.
      * intros Hin. apply in_map_iff in Hin. destruct Hin as (w & Hw & Hin).
        apply in_insert_desc in Hin. destruct Hin as [->|Hin].
        { apply Hn. left. congruence. }
        apply Hy. rewrite <- Hw. now apply in_map.
      * apply IH; [|assumption]. intros H. apply Hn. now right.
Qed.

Lemma sort_desc_nodup l :
  NoDup (map ResumeVersion.version_number l) ->
  NoDup (map ResumeVersion.version_number (sort_desc l)).
Proof.
  induction l as [|y t IH]; simpl; intros Hnd; [constructor|].
  inversion Hnd as [|? ? Hy Ht]; subst.
  apply insert_desc_nodup; [|now apply IH].
  intros Hin. apply in_map_iff in Hin. destruct Hin as (w & Hw & Hin).
  apply (proj1 (in_sort_desc t w)) in Hin. apply Hy. rewrite <- Hw. now apply in_map.
Qed.

Lemma versions_of_numbers_nodup id vs :
  NoDup (map version_key vs) ->
  NoDup (map ResumeVersion.version_number (versions_of id vs)).
Proof.
  unfold versions_of. induction vs as [|v t IH]; simpl; intros Hnd; [constructor|].
  inversion Hnd as [|? ? Hv Ht]; subst.
  destruct (Nat.eqb_spec (ResumeVersion.resume_id v) id) as [E|NE]; [|now apply IH].
  simpl. constructor; [|now apply IH].
  intros Hin. apply in_map_iff in Hin. destruct Hin as (w & Hw & Hin).
  apply filter_In in Hin. destruct Hin as [Hin Hrid]. apply Nat.eqb_eq in Hrid.
  apply Hv. apply in_map_iff. exists w. split; [|assumption].
  unfold version_key. congruence.
Qed.

Lemma versions_of_numbers id vs n :
  In n (map ResumeVersion.version_number (versions_of id vs)) <->
  find_version id n vs <> None.
Proof.
  unfold versions_of. split.
  - intros Hin. apply in_map_iff in Hin. destruct Hin as (w & Hw & Hin).
    apply filter_In in Hin. destruct Hin as [Hin Hrid]. apply Nat.eqb_eq in Hrid.
    subst. now apply find_version_in.
  - intros H. destruct (find_version id n vs) as [v|] eqn:E; [|congruence].
    apply find_version_some in E. destruct E as (Hrid & Hvn & Hin).
    apply in_map_iff. exists v. split; [assumption|].
    apply filter_In. split; [assumption | now apply Nat.eqb_eq].
Qed.

Lemma descending_is_countdown c : forall l,
  descending l -> NoDup l -> (forall n, In n l <-> 1 <= n <= c) -> l = rev (seq 1 c).
Proof.
  induction c as [|c IH]; intros l Hd Hnd Hin.
  - destruct l as [|x t]; [reflexivity|].
    exfalso. specialize (proj1 (Hin x) (or_introl eq_refl)). lia.
  - destruct l as [|x t].
    { exfalso. specialize (proj2 (Hin (S c))). simpl. intros H. apply H. lia. }
    simpl in Hd. destruct Hd as [Hmax Hd]. inversion Hnd as [|? ? Hx Ht]; subst.
    assert (x = S c).
    { pose proof (proj1 (Hin x) (or_introl eq_refl)).
      destruct (proj2 (Hin (S c))) as [E|E]; [lia|lia|].
      specialize (Hmax _ E). lia. }
    subst x. rewrite seq_S, rev_app_distr. simpl. f_equal.
    apply IH; [assumption|assumption|].
    intros n. split.
    + intros Hn. pose proof (proj1 (Hin n) (or_intror Hn)).
      assert (n <> S c) by (intros ->; contradiction). lia.
    + intros Hn. destruct (proj2 (Hin n)) as [E|E]; [lia|lia|assumption].
Qed.

(** X14. The version list of a stored document, in a consistent store
    whose histories are linear, is the versions numbered
    current_version, ..., 2, 1 in that order, each once, in the columns of
    the list (no data). *)
Theorem version_list_counts_down w id doc :
  consistent (store w) ->
  linear_history (store w) ->
  find_resume id (resumes (store w)) = Some doc ->
  exists l,
    run_app (GET_versions id None) None w = (AppJson (VersionList l) 200, w) /\
    map sum_version_number l = rev (seq 1 (Resume.current_version doc)) /\
    forall x, In x l ->
      exists v, find_version id (sum_version_number x) (versions (store w)) = Some v /\
                x = summary_of v.
Proof.
  intros Hc (Hnd & Hv & Hd) Hf.
  exists (map summary_of (sort_desc (versions_of id (versions (store w))))).
  split; [reflexivity|]. split.
  - rewrite map_map. cbn [summary_of sum_version_number].
    change (map (fun x => ResumeVersion.version_number x)
                (sort_desc (versions_of id (versions (store w)))))
      with (map ResumeVersion.version_number
                (sort_desc (versions_of id (versions (store w))))).
    apply descending_is_countdown.
    + apply sort_desc_descending.
    + apply sort_desc_nodup, versions_of_numbers_nodup, Hnd.
    + intros n. split.
      * intros Hin. apply in_map_iff in Hin. destruct Hin as (v & Hvn & Hin).
        apply (proj1 (in_sort_desc _ _)) in Hin. unfold versions_of in Hin.
        apply filter_In in Hin. destruct Hin as [Hin Hrid]. apply Nat.eqb_eq in Hrid.
        destruct (Hv v Hin) as [H1 _]. destruct Hc as (_ & Ha & _).
        specialize (Ha v doc Hin). rewrite Hrid in Ha. specialize (Ha Hf). lia.
      * intros Hn. apply (proj2 (Hd id doc Hf)) in Hn.
        apply versions_of_numbers in Hn.
        apply in_map_iff in Hn. destruct Hn as (v & Hvn & Hin).
        apply in_map_iff. exists v. split; [assumption | now apply (proj2 (in_sort_desc _ _))].
  - intros x Hx. apply in_map_iff in Hx. destruct Hx as (v & <- & Hin).
    apply (proj1 (in_sort_desc _ _)) in Hin. unfold versions_of in Hin.
    apply filter_In in Hin. destruct Hin as [Hin Hrid]. apply Nat.eqb_eq in Hrid.
    cbn [summary_of sum_version_number].
    destruct (find_version id (ResumeVersion.version_number v) (versions (store w)))
      as [v'|] eqn:E.
    + exists v'. split; [reflexivity|].
      apply find_version_some in E. destruct E as (H1 & H2 & Hin').
      assert (v' = v); [|congruence].
      clear - Hnd Hin Hin' H1 H2 Hrid.
      assert (K : version_key v' = version_key v) by (unfold version_key; congruence).
      revert Hnd Hin Hin' K. generalize (versions (store w)) as vs.
      induction vs as [|y t IH]; simpl; intros Hnd Hin Hin' K; [contradiction|].
      inversion Hnd as [|? ? Hy Ht]; subst.
      destruct Hin as [->|Hin], Hin' as [->|Hin']; auto.
      * exfalso. apply Hy. rewrite <- K. now apply in_map.
      * exfalso. apply Hy. rewrite K. now apply in_map.
    + exfalso. subst id. apply (find_version_in _ _ Hin). exact E.
Qed.

Lemma version_list_counts_down_witness :
  let w := with_store world1 (snd (run (PUT 0 (put payloadB)) None store1)) in
  consistent (store w) /\ linear_history (store w) /\
  exists l, run_app (GET_versions 0 None) None w = (AppJson (VersionList l) 200, w) /\
            map sum_version_number l = [2; 1].
Proof.
  intros w.
  assert (Hc : consistent (store w) /\ linear_history (store w)).
  { pose proof (handler_outcome (Replace 0 (put payloadB)) None store1
                  (fst (run (handler (Replace 0 (put payloadB))) None store1))
                  (store w) I (proj1 (proj1 store1_consistent)) eq_refl) as Ho.
    split.
    - eapply outcome_consistent; [exact Ho | exact store1_consistent].
    - eapply outcome_history; [exact Ho | exact store1_consistent | exact store1_linear]. }
  destruct Hc as [Hc Hl]. split; [exact Hc|]. split; [exact Hl|].
  destruct (version_list_counts_down w 0
              (Resume.mk 0 "SWE" ("A " ++ en_dash ++ " SWE") payloadB 2) Hc Hl eq_refl)
    as (l & H1 & H2 & _).
  exists l. split; [exact H1 | exact H2].
Defined.

(** X15. One version by number, in a consistent store whose histories are
    linear: for a stored document at version N, [?version=n] answers 200
    with the stored version n of that document when 1 <= n <= N, and 404
    otherwise; the store is not touched. *)
Theorem version_by_number w id doc n :
  consistent (store w) ->
  linear_history (store w) ->
  find_resume id (resumes (store w)) = Some doc ->
  if Nat.leb 1 n && Nat.leb n (Resume.current_version doc)
  then exists v,
         run_app (GET_versions id (Some n)) None w = (AppJson (VersionRead v) 200, w) /\
         ResumeVersion.resume_id v = id /\ ResumeVersion.version_number v = n /\
         In v (versions (store w))
  else run_app (GET_versions id (Some n)) None w
       = (AppJson (Plain (Fail (VersionNotFound n))) 404, w).
Proof.
  intros Hc (Hnd & Hv & Hd) Hf.
  unfold GET_versions. rewrite run_app_call. cbn [exec_app exec].
  assert (Hw : with_store w (store w) = w) by (destruct w; reflexivity).
  rewrite Hw.
  destruct (find_version id n (versions (store w))) as [v|] eqn:E.
  - apply find_version_some in E. destruct E as (Hrid & Hvn & Hin).
    destruct (Hv v Hin) as [H1 _]. destruct Hc as (_ & Ha & _).
    specialize (Ha v doc Hin). rewrite Hrid in Ha. specialize (Ha Hf).
    replace (Nat.leb 1 n && Nat.leb n (Resume.current_version doc)) with true.
    + exists v. auto.
    + symmetry. apply andb_true_iff. split; apply Nat.leb_le; lia.
  - destruct (Nat.leb 1 n && Nat.leb n (Resume.current_version doc)) eqn:B; [|reflexivity].
    exfalso. apply andb_true_iff in B. destruct B as [B1 B2].
    apply Nat.leb_le in B1, B2. apply (proj2 (Hd id doc Hf) n); [lia | exact E].
Qed.

Lemma version_by_number_witness :
  consistent (store world1) /\ linear_history (store world1) /\
  run_app (GET_versions 0 (Some 2)) None world1
    = (AppJson (Plain (Fail (VersionNotFound 2))) 404, world1).
Proof.
  split; [exact store1_consistent|]. split; [exact store1_linear|].
  exact (version_by_number world1 0
           (Resume.mk 0 "SWE" ("A " ++ en_dash ++ " SWE") payloadA 1) 2
           store1_consistent store1_linear eq_refl).
Defined.

(* ================================================================= *)
(** * Deleting a document *)

Lemma find_remove_other id id' l :
  id' <> id -> find_resume id' (remove_resume id l) = find_resume id' l.
Proof.
  intros NE. unfold find_resume. induction l as [|r t IH]; simpl; [reflexivity|].
  destruct (Nat.eqb_spec (Resume._id r) id) as [E|E].
  - destruct (Nat.eqb_spec (Resume._id r) id'); [congruence | reflexivity].
  - simpl. now rewrite IH.
Qed.

Lemma in_remove_resume id l d : In d (remove_resume id l) -> In d l.
Proof.
  induction l as [|r t IH]; simpl; [tauto|].
  destruct (Nat.eqb (Resume._id r) id); simpl; intuition.
Qed.

Lemma find_remove_same id l :
  NoDup (map Resume._id l) -> find_resume id (remove_resume id l) = None.
Proof.
  unfold find_resume. induction l as [|r t IH]; simpl; intros Hnd; [reflexivity|].
  inversion Hnd as [|? ? Hr Ht]; subst.
  destruct (Nat.eqb_spec (Resume._id r) id) as [E|E].
  - destruct (find (fun r0 => Nat.eqb (Resume._id r0) id) t) as [d|] eqn:F; [|reflexivity].
    apply find_some in F. destruct F as [Hin Hid]. apply Nat.eqb_eq in Hid.
    exfalso. apply Hr. rewrite E, <- Hid. now apply in_map.
  - simpl. destruct (Nat.eqb_spec (Resume._id r) id); [contradiction|]. now apply IH.
Qed.

Lemma remove_resume_nodup id l :
  NoDup (map Resume._id l) -> NoDup (map Resume._id (remove_resume id l)).
Proof.
  induction l as [|r t IH]; simpl; intros Hnd; [constructor|].
  inversion Hnd as [|? ? Hr Ht]; subst.
  destruct (Nat.eqb (Resume._id r) id); [assumption|].
  simpl. constructor; [|now apply IH].
  intros Hin. apply in_map_iff in Hin. destruct Hin as (d & Hd & Hin).
  apply in_remove_resume in Hin. apply Hr. rewrite <- Hd. now apply in_map.
Qed.

Lemma find_version_filter_other id id' n vs :
  id' <> id ->
  find_version id' n (filter (fun v => negb (Nat.eqb (ResumeVersion.resume_id v) id)) vs)
  = find_version id' n vs.
Proof.
  intros NE. unfold find_version. induction vs as [|v t IH]; simpl; [reflexivity|].
  destruct (Nat.eqb_spec (ResumeVersion.resume_id v) id) as [E|E]; simpl.
  - destruct (Nat.eqb_spec (ResumeVersion.resume_id v) id'); [congruence|]. simpl. exact IH.
  - now rewrite IH.
Qed.

Lemma nodup_map_filter {A B} (f : A -> B) (p : A -> bool) l :
  NoDup (map f l) -> NoDup (map f (filter p l)).
Proof.
  induction l as [|x t IH]; simpl; intros Hnd; [constructor|].
  inversion Hnd as [|? ? Hx Ht]; subst.
  destruct (p x); [|now apply IH]. simpl. constructor; [|now apply IH].
  intros Hin. apply in_map_iff in Hin. destruct Hin as (y & Hy & Hin).
  apply filter_In in Hin. apply Hx. rewrite <- Hy. apply in_map. tauto.
Qed.

(** What [DELETE] leaves behind, by the number of store calls that went
    through. *)
Lemma DELETE_run id fault w r w' :
  run_app (DELETE id) fault w = (r, w') ->
  w' = w \/
  (exists doc, find_resume id (resumes (store w)) = Some doc /\
     let s1 := mkStore (resumes (store w))
                       (filter (fun v => negb (Nat.eqb (ResumeVersion.resume_id v) id))
                               (versions (store w)))
                       (next_id (store w)) in
     let g1 := filter (fun g => negb (Nat.eqb (Generation.resume_id g) id))
                      (generations w) in
     (astatus r = 500 /\ w' = mkWorld s1 (generations w) (next_job w)) \/
     (astatus r = 500 /\ w' = mkWorld s1 g1 (next_job w)) \/
     (r = AppJson (DeletedAll (Resume.title doc)) 200 /\
      w' = mkWorld (mkStore (remove_resume id (resumes (store w))) (versions s1)
                            (next_id (store w)))
                   g1 (next_job w))).
Proof.
  assert (Hw : with_store w (store w) = w) by (destruct w; reflexivity).
  unfold DELETE. intros H.
  destruct fault as [[|[|[|[|n]]]]|]; cbn in H; rewrite ?Hw in H;
    try (destruct (find_resume id (resumes (store w))) as [doc|] eqn:F);
    cbn in H; inversion H; subst; clear H; auto;
    right; exists doc; (split; [reflexivity|]); cbn; auto.
Qed.

Lemma DELETE_missing id w :
  find_resume id (resumes (store w)) = None ->
  run_app (DELETE id) None w = (AppJson (Plain (Fail ResumeNotFound)) 404, w).
Proof.
  intros F. assert (Hw : with_store w (store w) = w) by (destruct w; reflexivity).
  unfold DELETE. rewrite run_app_call. cbn [exec_app exec]. rewrite Hw, F. reflexivity.
Qed.

Lemma DELETE_found id w doc :
  find_resume id (resumes (store w)) = Some doc ->
  run_app (DELETE id) None w =
  (AppJson (DeletedAll (Resume.title doc)) 200,
   mkWorld (mkStore (remove_resume id (resumes (store w)))
                    (filter (fun v => negb (Nat.eqb (ResumeVersion.resume_id v) id))
                            (versions (store w)))
                    (next_id (store w)))
           (filter (fun g => negb (Nat.eqb (Generation.resume_id g) id)) (generations w))
           (next_job w)).
Proof.
  intros F. assert (Hw : with_store w (store w) = w) by (destruct w; reflexivity).
  unfold DELETE. rewrite run_app_call. cbn [exec_app exec]. rewrite Hw, F. reflexivity.
Qed.

(** X16. Deleting a document with no failing store call, in a store whose
    ids are unique: an unknown id answers 404 and changes nothing;
    otherwise the answer is 200 with the title, the document is gone, its
    versions and its generation jobs are gone, and every other document,
    version and job is kept, in the same order. *)
Theorem delete_spec w id r w' :
  unique_ids (store w) ->
  run_app (DELETE id) None w = (r, w') ->
  match find_resume id (resumes (store w)) with
  | None => r = AppJson (Plain (Fail ResumeNotFound)) 404 /\ w' = w
  | Some doc =>
      r = AppJson (DeletedAll (Resume.title doc)) 200 /\
      find_resume id (resumes (store w')) = None /\
      (forall id', id' <> id ->
         find_resume id' (resumes (store w')) = find_resume id' (resumes (store w))) /\
      versions (store w') = filter (not_of_resume id) (versions (store w)) /\
      generations w' = filter (job_not_of_resume id) (generations w) /\
      next_id (store w') = next_id (store w) /\ next_job w' = next_job w
  end.
Proof.
  intros Hu H.
  destruct (find_resume id (resumes (store w))) as [doc|] eqn:F.
  - rewrite (DELETE_found id w doc F) in H. inversion H; subst; clear H.
    cbn [store resumes versions generations next_id next_job].
    split; [reflexivity|]. split; [now apply find_remove_same|].
    split; [intros id' NE; now apply find_remove_other|]. repeat split.
  - rewrite (DELETE_missing id w F) in H. inversion H; subst. split; reflexivity.
Qed.

Lemma delete_spec_witness :
  unique_ids (store world1) /\
  find_resume 0 (resumes (store (snd (run_app (DELETE 0) None world1)))) = None /\
  versions (store (snd (run_app (DELETE 0) None world1))) = [].
Proof.
  split; [exact (proj1 (proj1 store1_consistent))|].
  pose proof (delete_spec world1 0 _ _ (proj1 (proj1 store1_consistent)) eq_refl) as H.
  split; [exact (proj1 (proj2 H))|].
  exact (proj1 (proj2 (proj2 (proj2 H)))).
Defined.

Lemma removed_owned w id :
  unique_ids (store w) -> owned w ->
  owned (mkWorld (mkStore (remove_resume id (resumes (store w)))
                          (filter (fun v => negb (Nat.eqb (ResumeVersion.resume_id v) id))
                                  (versions (store w)))
                          (next_id (store w)))
                 (filter (fun g => negb (Nat.eqb (Generation.resume_id g) id))
                         (generations w))
                 (next_job w)).
Proof.
  intros Hu [Hv Hg]. split; cbn [store resumes versions generations next_id next_job].
  - intros v Hin. apply filter_In in Hin. destruct Hin as [Hin Hne].
    apply negb_true_iff, Nat.eqb_neq in Hne.
    rewrite find_remove_other by assumption. now apply Hv.
  - intros g Hin. apply filter_In in Hin. destruct Hin as [Hin Hne].
    apply negb_true_iff, Nat.eqb_neq in Hne.
    rewrite find_remove_other by assumption. now apply Hg.
Qed.

(** X17. A delete that went through keeps the store in order: the store
    stays consistent, the histories stay linear, and every version and job
    still belongs to a stored document. *)
Theorem delete_keeps_invariants w id r w' :
  consistent (store w) -> linear_history (store w) -> owned w ->
  run_app (DELETE id) None w = (r, w') ->
  consistent (store w') /\ linear_history (store w') /\ owned w'.
Proof.
  intros Hc Hl Ho H.
  destruct (find_resume id (resumes (store w))) as [doc|] eqn:F.
  2:{ rewrite (DELETE_missing id w F) in H. inversion H; subst. auto. }
  rewrite (DELETE_found id w doc F) in H. inversion H; subst; clear H.
  destruct Hc as ((Hu & Hf1 & Hf2) & Ha & Hp). destruct Hl as (Hnd & Hv & Hd).
  assert (Hsame : forall id', find_resume id' (remove_resume id (resumes (store w))) <> None ->
                              id' <> id).
  { intros id' Hn ->. apply Hn. now apply find_remove_same. }
  split; [|split].
  - split; [split; [|split]|split];
      unfold unique_ids, no_version_ahead, pointer_backed;
      cbn [store resumes versions generations next_id next_job].
    + now apply remove_resume_nodup.
    + intros d Hin. apply Hf1. eapply in_remove_resume; eassumption.
    + intros v Hin. apply filter_In in Hin. apply Hf2. tauto.
    + intros v d Hin Hfd. apply filter_In in Hin. destruct Hin as [Hin Hne].
      apply negb_true_iff, Nat.eqb_neq in Hne.
      rewrite find_remove_other in Hfd by assumption. now apply (Ha v d).
    + intros id' d Hfd.
      assert (NE : id' <> id) by (apply Hsame; congruence).
      rewrite find_remove_other in Hfd by assumption.
      rewrite find_version_filter_other by assumption. now apply (Hp id' d).
  - split; [|split]; cbn [store resumes versions generations next_id next_job].
    + now apply nodup_map_filter.
    + intros v Hin. apply filter_In in Hin. destruct Hin as [Hin Hne].
      apply negb_true_iff, Nat.eqb_neq in Hne.
      rewrite find_remove_other by assumption. now apply Hv.
    + intros id' d Hfd.
      assert (NE : id' <> id) by (apply Hsame; congruence).
      rewrite find_remove_other in Hfd by assumption.
      destruct (Hd id' d Hfd) as [H1 H2]. split; [assumption|].
      intros n Hn. rewrite find_version_filter_other by assumption. now apply H2.
  - now apply removed_owned.
Qed.

Lemma world1_owned : owned world1.
Proof.
  split; cbn [store resumes versions generations next_id next_job].
  - intros v [<-|[]]. discriminate.
  - intros g [].
Qed.

Lemma delete_keeps_invariants_witness :
  exists r w', run_app (DELETE 0) None world1 = (r, w') /\
               consistent (store w') /\ linear_history (store w') /\ owned w'.
Proof.
  eexists. eexists. split; [reflexivity|].
  exact (delete_keeps_invariants world1 0 _ _ store1_consistent store1_linear
           world1_owned eq_refl).
Defined.

(** X18. Whichever store call of a delete fails, no version and no job is
    left without its document (the document is deleted last), and every
    other document keeps its record, its versions and its jobs. *)
Theorem failed_delete_leaves_no_orphans w id fault r w' :
  unique_ids (store w) -> owned w ->
  run_app (DELETE id) fault w = (r, w') ->
  owned w' /\
  forall id', id' <> id ->
    find_resume id' (resumes (store w')) = find_resume id' (resumes (store w)) /\
    versions_of id' (versions (store w')) = versions_of id' (versions (store w)) /\
    filter (fun g => Nat.eqb (Generation.resume_id g) id') (generations w')
    = filter (fun g => Nat.eqb (Generation.resume_id g) id') (generations w).
Proof.
  intros Hu Ho H. apply DELETE_run in H.
  assert (Hvs : forall id', id' <> id ->
            versions_of id'
              (filter (fun v => negb (Nat.eqb (ResumeVersion.resume_id v) id))
                      (versions (store w)))
            = versions_of id' (versions (store w))).
  { intros id' NE. unfold versions_of. generalize (versions (store w)) as vs.
    induction vs as [|v t IH]; simpl; [reflexivity|].
    destruct (Nat.eqb_spec (ResumeVersion.resume_id v) id) as [E|E]; simpl.
    - destruct (Nat.eqb_spec (ResumeVersion.resume_id v) id'); [congruence | exact IH].
    - now rewrite IH. }
  assert (Hgs : forall id', id' <> id ->
            filter (fun g => Nat.eqb (Generation.resume_id g) id')
              (filter (fun g => negb (Nat.eqb (Generation.resume_id g) id)) (generations w))
            = filter (fun g => Nat.eqb (Generation.resume_id g) id') (generations w)).
  { intros id' NE. generalize (generations w) as gs.
    induction gs as [|g t IH]; simpl; [reflexivity|].
    destruct (Nat.eqb_spec (Generation.resume_id g) id) as [E|E]; simpl.
    - destruct (Nat.eqb_spec (Generation.resume_id g) id'); [congruence | exact IH].
    - now rewrite IH. }
  destruct H as [->|(doc & F & [[_ ->]|[[_ ->]|[_ ->]]])].
  - split; [exact Ho|]. intros; repeat split.
  - split.
    + destruct Ho as [Hv Hg]. split; cbn [store resumes versions generations next_id next_job]; [|exact Hg].
      intros v Hin. apply filter_In in Hin. apply Hv. tauto.
    + intros id' NE. cbn [store resumes versions generations next_id next_job]. split; [reflexivity|]. split; [now apply Hvs | reflexivity].
  - split.
    + destruct Ho as [Hv Hg]. split; cbn [store resumes versions generations next_id next_job].
      * intros v Hin. apply filter_In in Hin. apply Hv. tauto.
      * intros g Hin. apply filter_In in Hin. apply Hg. tauto.
    + intros id' NE. cbn [store resumes versions generations next_id next_job]. split; [reflexivity|]. split; [now apply Hvs | now apply Hgs].
  - split; [now apply removed_owned|].
    intros id' NE. cbn [store resumes versions generations next_id next_job]. split; [now apply find_remove_other|].
    split; [now apply Hvs | now apply Hgs].
Qed.

Lemma failed_delete_leaves_no_orphans_witness :
  exists r w', run_app (DELETE 0) (Some 2) world1 = (r, w') /\
               astatus r = 500 /\ owned w' /\ versions (store w') = [].
Proof.
  eexists. eexists. split; [reflexivity|]. split; [reflexivity|].
  split; [|reflexivity].
  exact (proj1 (failed_delete_leaves_no_orphans world1 0 (Some 2) _ _
                  (proj1 (proj1 store1_consistent)) world1_owned eq_refl)).
Defined.

(* ================================================================= *)
(** * Queueing a generation job *)

(** X19. The job queued for a document whose current version is stored
    carries that version's data, not the document's own data field, with
    the document's current_version, in state PENDING, and a file name
    built from the job's meta code and that version number; nothing else
    is written.  (After a partial update, the generated PDF therefore
    misses the update.)  The only other outcome is the 500 of a name or
    code that is not a string, with nothing written. *)
Theorem generate_uses_stored_version now w id doc v r w' :
  find_resume id (resumes (store w)) = Some doc ->
  find_version id (Resume.current_version doc) (versions (store w)) = Some v ->
  run_app (POST_generate now (Some id)) None w = (r, w') ->
  (r = AppJson ThrownTypeError 500 /\ w' = w) \/
  exists job fullName,
    r = AppJson (JobQueued job) 201 /\
    w' = mkWorld (store w) (generations w ++ [job]) (S (next_job w)) /\
    Generation.resume_id job = id /\
    Generation.version_number job = Resume.current_version doc /\
    Generation.status job = PENDING /\
    Generation.resume_data job = ResumeVersion.data v /\
    Generation.output_filename job
    = generateOutputFilename now fullName (Generation.meta_code job)
                             (Resume.current_version doc).
Proof.
  intros F V H.
  assert (Hw : with_store w (store w) = w) by (destruct w; reflexivity).
  unfold POST_generate in H. rewrite run_app_call in H. cbn [exec_app exec] in H.
  rewrite Hw, F in H. rewrite run_app_call in H. cbn [exec_app exec] in H.
  rewrite Hw, V in H.
  destruct (job_fullName doc (ResumeVersion.data v)) as [fullName|];
    [destruct (job_metaCode doc (ResumeVersion.data v)) as [metaCode|]|].
  - rewrite run_app_call in H. cbn [exec_app run_app] in H.
    inversion H; subst; clear H. right.
    eexists. exists fullName. repeat split.
  - cbn [run_app] in H. inversion H; subst. now left.
  - cbn [run_app] in H. inversion H; subst. now left.
Qed.

Lemma generate_uses_stored_version_witness :
  exists doc v job w',
    find_resume 0 (resumes (store world_patched)) = Some doc /\
    find_version 0 (Resume.current_version doc) (versions (store world_patched)) = Some v /\
    run_app (POST_generate (Build_Date 2026 1) (Some 0)) None world_patched
      = (AppJson (JobQueued job) 201, w') /\
    Resume.data doc <> ResumeVersion.data v /\
    Generation.resume_data job = ResumeVersion.data v.
Proof.
  eexists. eexists. eexists. eexists.
  split; [reflexivity|]. split; [reflexivity|]. split; [reflexivity|].
  split; [vm_compute; discriminate|].
  destruct (generate_uses_stored_version (Build_Date 2026 1) world_patched 0 _ _ _ _
              eq_refl eq_refl eq_refl) as [[H _]|(job & n & H & _)];
    [discriminate H | reflexivity].
Defined.

(** X20. A generation request never writes a document or a version, under
    any failing store call and for any body: it answers 201 and appends
    one PENDING job with a fresh id, or it answers something else and
    writes nothing. *)
Theorem generate_only_queues now rid fault w r w' :
  run_app (POST_generate now rid) fault w = (r, w') ->
  (astatus r <> 201 /\ w' = w) \/
  (exists job,
     r = AppJson (JobQueued job) 201 /\
     w' = mkWorld (store w) (generations w ++ [job]) (S (next_job w)) /\
     Generation._id job = next_job w /\ Generation.status job = PENDING).
Proof.
  intros H.
  assert (Hw : with_store w (store w) = w) by (destruct w; reflexivity).
  unfold POST_generate in H.
  destruct rid as [id|]; [|cbn [run_app] in H; inversion H; subst; left; split;
                            [cbn; discriminate | reflexivity]].
  assert (K : forall f d,
            run_app (call latestVersion <-
                       Core (ResumeVersion_findOne id (Resume.current_version d)) ;;
                     let resumeData := match latestVersion with
                                       | Some v => ResumeVersion.data v
                                       | None => Resume.data d
                                       end in
                     match job_fullName d resumeData, job_metaCode d resumeData with
                     | Some fullName, Some metaCode =>
                         let outputFilename :=
                           generateOutputFilename now fullName metaCode
                                                  (Resume.current_version d) in
                         call job <- Generation_create id (Resume.current_version d)
                                       PENDING outputFilename resumeData metaCode ;;
                         Done (AppJson (JobQueued job) 201)
                     | _, _ => Done (AppJson ThrownTypeError 500)
                     end) f w = (r, w') ->
            (astatus r <> 201 /\ w' = w) \/
            (exists job,
               r = AppJson (JobQueued job) 201 /\
               w' = mkWorld (store w) (generations w ++ [job]) (S (next_job w)) /\
               Generation._id job = next_job w /\ Generation.status job = PENDING)).
  { intros f d K. cbn [run_app exec_app exec] in K. rewrite Hw in K.
    destruct f as [[|f]|].
    - inversion K; subst. left. split; [cbn; discriminate | reflexivity].
    - cbv zeta in K.
      destruct (job_fullName d _) as [n|]; [destruct (job_metaCode d _) as [c|]|];
        try (cbn [run_app] in K; inversion K; subst; left; split;
             [cbn; discriminate | reflexivity]).
      cbn [run_app option_map] in K. destruct f as [|f]; cbn [pred exec_app] in K.
      + inversion K; subst. left. split; [cbn; discriminate | reflexivity].
      + inversion K; subst. right. eexists. repeat split.
    - cbv zeta in K.
      destruct (job_fullName d _) as [n|]; [destruct (job_metaCode d _) as [c|]|];
        try (cbn [run_app] in K; inversion K; subst; left; split;
             [cbn; discriminate | reflexivity]).
      cbn [run_app option_map exec_app] in K.
      inversion K; subst. right. eexists. repeat split. }
  cbn [run_app exec_app exec] in H. rewrite Hw in H.
  destruct fault as [[|f]|].
  - inversion H; subst. left. split; [cbn; discriminate | reflexivity].
  - destruct (find_resume id (resumes (store w))) as [d|].
    + exact (K _ _ H).
    + cbn [run_app] in H. inversion H; subst. left. split; [cbn; discriminate | reflexivity].
  - destruct (find_resume id (resumes (store w))) as [d|].
    + exact (K _ _ H).
    + cbn [run_app] in H. inversion H; subst. left. split; [cbn; discriminate | reflexivity].
Qed.

Lemma generate_only_queues_witness :
  exists job,
    snd (run_app (POST_generate (Build_Date 2026 1) (Some 0)) None world1)
    = mkWorld store1 [job] 1 /\
    Generation.status job = PENDING.
Proof.
  destruct (generate_only_queues (Build_Date 2026 1) (Some 0) None world1 _ _ eq_refl)
    as [[H _]|(job & _ & Hw & _ & Hs)].
  - exfalso. apply H. reflexivity.
  - exists job. split; [exact Hw | exact Hs].
Defined.

(* ================================================================= *)
(** * Reads *)

(** X21. Reading a document, its version list or one version writes
    nothing, whatever the request and whichever store call fails. *)
Theorem reads_write_nothing w fault r w' :
  (exists id includeVersions, run_app (GET_resume id includeVersions) fault w = (r, w')) \/
  (exists id specificVersion, run_app (GET_versions id specificVersion) fault w = (r, w')) ->
  w' = w.
Proof.
  assert (Hw : with_store w (store w) = w) by (destruct w; reflexivity).
  intros [(id & iv & H)|(id & sv & H)].
  - unfold GET_resume in H. cbn [run_app exec_app exec] in H. rewrite Hw in H.
    destruct fault as [[|[|f]]|]; cbn [option_map pred] in H;
      try (inversion H; subst; reflexivity);
      destruct (find_resume id (resumes (store w))) as [d|]; try destruct iv;
      cbn [run_app exec_app] in H; inversion H; subst; reflexivity.
  - unfold GET_versions in H. destruct sv as [n|].
    + cbn [run_app exec_app exec] in H. rewrite Hw in H.
      destruct fault as [[|f]|]; try (inversion H; subst; reflexivity);
        destruct (find_version id n (versions (store w)));
        cbn [run_app] in H; inversion H; subst; reflexivity.
    + cbn [run_app exec_app] in H.
      destruct fault as [[|f]|]; inversion H; subst; reflexivity.
Qed.

Lemma reads_write_nothing_witness :
  snd (run_app (GET_resume 0 true) (Some 1) world1) = world1.
Proof.
  apply (reads_write_nothing world1 (Some 1)
           (fst (run_app (GET_resume 0 true) (Some 1) world1))).
  left. exists 0, true. reflexivity.
Defined.

(* ================================================================= *)
(** * The output file name *)

Lemma chars_app s1 s2 :
  list_ascii_of_string (s1 ++ s2)
  = (list_ascii_of_string s1 ++ list_ascii_of_string s2)%list.
Proof. induction s1 as [|a s IH]; simpl; [reflexivity | now rewrite IH]. Qed.

Lemma substring_chars p : forall s n m,
  forallb p (list_ascii_of_string s) = true ->
  forallb p (list_ascii_of_string (substring n m s)) = true.
Proof.
  induction s as [|a s IH]; intros n m H.
  - destruct n, m; reflexivity.
  - simpl in H. apply andb_true_iff in H. destruct H as [Ha Hs].
    destruct n as [|n]; simpl.
    + destruct m as [|m]; simpl; [reflexivity|]. rewrite Ha. now apply IH.
    + now apply IH.
Qed.

Lemma uint_digits d :
  forallb is_digit (list_ascii_of_string (NilEmpty.string_of_uint d)) = true.
Proof. induction d; simpl; try rewrite IHd; reflexivity. Qed.

Lemma nat_to_string_digits n :
  forallb is_digit (list_ascii_of_string (nat_to_string n)) = true.
Proof.
  unfold nat_to_string, NilZero.string_of_uint.
  destruct (Nat.to_uint n); try apply uint_digits; reflexivity.
Qed.

Lemma forallb_weaken {A} (p q : A -> bool) l :
  (forall a, p a = true -> q a = true) -> forallb p l = true -> forallb q l = true.
Proof.
  intros Hpq. induction l as [|a t IH]; simpl; [reflexivity|].
  intros H. apply andb_true_iff in H. destruct H as [Ha Ht].
  now rewrite (Hpq a Ha), IH.
Qed.

Lemma digit_filename_char a : is_digit a = true -> filename_char a = true.
Proof. unfold filename_char. intros ->. now rewrite orb_true_r. Qed.

Lemma letter_filename_char a : is_letter a = true -> filename_char a = true.
Proof. unfold filename_char. now intros ->. Qed.

Lemma case_keeps_class a :
  (is_letter a = true ->
   is_letter (toUpperCase a) = true /\ is_letter (toLowerCase a) = true) /\
  (is_digit a = true -> is_digit (toUpperCase a) = true).
Proof.
  destruct a as [[] [] [] [] [] [] [] []]; vm_compute; split; try split; auto.
Qed.

Lemma split_spaces_letters : forall l cur in_space,
  Forall (fun a => is_letter a = true) cur ->
  (forall a, In (Ch a) l -> is_letter a = true) ->
  Forall (Forall (fun a => is_letter a = true)) (split_spaces cur in_space l).
Proof.
  induction l as [|c t IH]; intros cur in_space Hcur Hl; simpl.
  - constructor; [|constructor]. apply Forall_rev. exact Hcur.
  - destruct c as [b|a].
    + assert (Ht : forall a, In (Ch a) t -> is_letter a = true)
        by (intros a Ha; apply Hl; now right).
      destruct in_space; [now apply IH|].
      constructor; [apply Forall_rev; exact Hcur | apply IH; [constructor | exact Ht]].
    + apply IH.
      * constructor; [apply Hl; now left | exact Hcur].
      * intros a' Ha. apply Hl. now right.
Qed.

Lemma capitalize_letters part :
  Forall (fun a => is_letter a = true) part ->
  Forall (fun a => is_letter a = true) (capitalize part).
Proof.
  destruct part as [|a t]; simpl; intros H; [constructor|].
  inversion H as [|? ? Ha Ht]; subst. constructor.
  - now apply (proj1 (case_keeps_class a)).
  - apply Forall_map. eapply Forall_impl; [|exact Ht].
    intros b Hb. now apply (proj1 (case_keeps_class b)).
Qed.

Lemma cleanName_letters fullName :
  forallb is_letter (list_ascii_of_string (cleanName fullName)) = true.
Proof.
  unfold cleanName. rewrite list_ascii_of_string_of_list_ascii.
  apply forallb_forall. intros a Ha.
  apply in_concat in Ha. destruct Ha as (part & Hpart & Ha).
  apply in_map_iff in Hpart. destruct Hpart as (p0 & <- & Hp0).
  assert (H : Forall (Forall (fun a => is_letter a = true))
                (split_spaces [] false
                   (filter (fun c => match c with Sp _ => true | Ch a => is_letter a end)
                           (jschars fullName)))).
  { apply split_spaces_letters; [constructor|].
    intros b Hb. apply filter_In in Hb. tauto. }
  rewrite Forall_forall in H. specialize (H p0 Hp0).
  apply capitalize_letters in H. rewrite Forall_forall in H. now apply H.
Qed.

Lemma cleanMeta_chars metaCode :
  forallb filename_char (list_ascii_of_string (cleanMeta metaCode)) = true.
Proof.
  unfold cleanMeta. rewrite list_ascii_of_string_of_list_ascii.
  apply forallb_forall. intros a Ha.
  apply in_map_iff in Ha. destruct Ha as (b & <- & Hb).
  apply filter_In in Hb. destruct Hb as [_ Hb]. apply orb_true_iff in Hb.
  destruct Hb as [Hb|Hb].
  - apply letter_filename_char. now apply (proj1 (case_keeps_class b)).
  - apply digit_filename_char. now apply (proj2 (case_keeps_class b)).
Qed.

(** X22. Whatever the name, the meta code, the date and the version, the
    output file name consists of ASCII letters, digits and underscores
    only: no white space, dot or path separator survives the cleaning. *)
Theorem output_filename_is_safe now fullName metaCode version :
  forallb filename_char
    (list_ascii_of_string (generateOutputFilename now fullName metaCode version)) = true.
Proof.
  unfold generateOutputFilename. cbv zeta.
  rewrite !chars_app, !forallb_app.
  repeat (apply andb_true_iff; split); try reflexivity.
  - eapply forallb_weaken; [exact letter_filename_char | apply cleanName_letters].
  - apply cleanMeta_chars.
  - unfold slice_last2. apply substring_chars.
    eapply forallb_weaken; [exact digit_filename_char | apply nat_to_string_digits].
  - unfold padStart2.
    destruct (Nat.ltb _ 2).
    + rewrite chars_app, forallb_app, list_ascii_of_string_of_list_ascii.
      apply andb_true_iff. split.
      * apply forallb_forall. intros a Ha. apply repeat_spec in Ha. now subst a.
      * eapply forallb_weaken; [exact digit_filename_char | apply nat_to_string_digits].
    + eapply forallb_weaken; [exact digit_filename_char | apply nat_to_string_digits].
  - eapply forallb_weaken; [exact digit_filename_char | apply nat_to_string_digits].
Qed.

(** X23. The version list of an id with no stored document, in a store
    whose versions all belong to stored documents, is an empty list with
    status 200, not a 404. *)
Theorem version_list_of_unknown_document w id :
  linear_history (store w) ->
  find_resume id (resumes (store w)) = None ->
  run_app (GET_versions id None) None w = (AppJson (VersionList []) 200, w).
Proof.
  intros (_ & Hv & _) F. cbn [GET_versions run_app exec_app].
  replace (versions_of id (versions (store w))) with (@nil ResumeVersion.t);
    [reflexivity|].
  symmetry. unfold versions_of.
  destruct (filter _ (versions (store w))) as [|v t] eqn:E; [reflexivity|].
  exfalso. assert (Hin : In v (filter (fun v => Nat.eqb (ResumeVersion.resume_id v) id)
                                       (versions (store w)))) by (rewrite E; now left).
  apply filter_In in Hin. destruct Hin as [Hin Hid]. apply Nat.eqb_eq in Hid.
  apply (proj2 (Hv v Hin)). now rewrite Hid.
Qed.

Lemma version_list_of_unknown_document_witness :
  run_app (GET_versions 7 None) None world1 = (AppJson (VersionList []) 200, world1).
Proof.
  exact (version_list_of_unknown_document world1 7 store1_linear eq_refl).
Defined.

(* ================================================================= *)
(** * Grouping the list by meta code *)

Lemma group_step_none l : fold_left group_step l None = None.
Proof. induction l as [|r t IH]; simpl; [reflexivity | exact IH]. Qed.

Lemma group_of_app acc code k l :
  group_of (acc ++ [(k, l)])%list code
  = match group_of acc code with
    | Some x => Some x
    | None => if String.eqb code k then Some l else None
    end.
Proof.
  induction acc as [|[k' l'] t IH]; simpl; [reflexivity|].
  destruct (String.eqb code k'); [reflexivity | exact IH].
Qed.

Lemma group_of_push acc code r code' :
  group_of (group_push acc code r) code'
  = if String.eqb code' code
    then option_map (fun l => (l ++ [r])%list) (group_of acc code')
    else group_of acc code'.
Proof.
  induction acc as [|[k l] t IH]; simpl.
  - now destruct (String.eqb code' code).
  - destruct (String.eqb_spec code k) as [E|E]; simpl.
    + subst k. destruct (String.eqb_spec code' code) as [E'|E']; [reflexivity|].
      reflexivity.
    + destruct (String.eqb_spec code' k) as [E'|E'].
      * subst k. destruct (String.eqb_spec code' code); [congruence | reflexivity].
      * exact IH.
Qed.

Lemma group_push_keys acc code r : map fst (group_push acc code r) = map fst acc.
Proof.
  induction acc as [|[k l] t IH]; simpl; [reflexivity|].
  destruct (String.eqb code k); simpl; [reflexivity | now rewrite IH].
Qed.

Lemma group_of_keys acc code : group_of acc code = None <-> ~ In code (map fst acc).
Proof.
  induction acc as [|[k l] t IH]; simpl; [tauto|].
  destruct (String.eqb_spec code k) as [E|E].
  - split; [discriminate | intros H; exfalso; apply H; now left].
  - rewrite IH. split; [intros H [H1|H1]; [congruence | tauto] | tauto].
Qed.

Lemma with_code_app code l r :
  with_code code (l ++ [r])%list
  = (with_code code l ++ if String.eqb (group_code r) code then [r] else [])%list.
Proof. unfold with_code. rewrite filter_app. reflexivity. Qed.

Lemma group_step_view old acc r :
  group_view old acc -> inherited (group_code r) = false ->
  exists acc', group_step (Some acc) r = Some acc' /\ group_view (old ++ [r])%list acc'.
Proof.
  intros [Hnd Hg] Hi. unfold group_step. cbv zeta.
  destruct (group_of acc (group_code r)) as [l|] eqn:E.
  - eexists. split; [reflexivity|]. split.
    + now rewrite group_push_keys.
    + intros code. rewrite group_of_push, with_code_app, Hg.
      rewrite (String.eqb_sym (group_code r) code).
      destruct (String.eqb_spec code (group_code r)) as [->|NE].
      * rewrite Hg in E. destruct (with_code (group_code r) old) as [|x t];
          [discriminate | reflexivity].
      * rewrite app_nil_r. reflexivity.
  - rewrite Hi. eexists. split; [reflexivity|]. split.
    + rewrite map_app. simpl. apply NoDup_app; [exact Hnd | | ].
      * constructor; [intros [] | constructor].
      * intros x Hx [<-|[]]. now apply group_of_keys in E.
    + intros code. rewrite group_of_app, with_code_app, Hg.
      rewrite (String.eqb_sym (group_code r) code).
      destruct (String.eqb_spec code (group_code r)) as [->|NE].
      * rewrite Hg in E. destruct (with_code (group_code r) old) as [|x t];
          [reflexivity | discriminate].
      * rewrite app_nil_r. now destruct (with_code code old).
Qed.

Lemma group_fold_view l : forall old acc,
  group_view old acc ->
  (forall r, In r l -> inherited (group_code r) = false) ->
  exists acc', fold_left group_step l (Some acc) = Some acc' /\
               group_view (old ++ l)%list acc'.
Proof.
  induction l as [|r t IH]; intros old acc Hv Hi; cbn [fold_left].
  - exists acc. rewrite app_nil_r. auto.
  - destruct (group_step_view old acc r Hv (Hi r (or_introl eq_refl)))
      as (acc1 & -> & Hv1).
    destruct (IH (old ++ [r])%list acc1 Hv1 (fun x Hx => Hi x (or_intror Hx)))
      as (acc' & H1 & H2).
    exists acc'. split; [exact H1|]. now rewrite <- app_assoc in H2.
Qed.

(** X24. Grouping a list of documents none of whose codes is a name
    inherited from [Object.prototype]: the keys are distinct, and the group
    of a code holds exactly the listed documents with that code (a document
    with an empty meta_code counts under OTHER), in the order of the list;
    a code that no document has is no key. *)
Theorem group_by_code_partitions resumes :
  (forall r, In r resumes -> inherited (group_code r) = false) ->
  exists grouped,
    group_by_code resumes = Some grouped /\
    NoDup (map fst grouped) /\
    forall code,
      group_of grouped code
      = match filter (fun r => String.eqb (group_code r) code) resumes with
        | [] => None
        | l => Some l
        end.
Proof.
  intros Hi.
  destruct (group_fold_view resumes [] [] (conj (NoDup_nil _) (fun _ => eq_refl)) Hi)
    as (acc & H1 & Hnd & Hg).
  exists acc. split; [exact H1|]. split; [exact Hnd | exact Hg].
Qed.

Lemma group_by_code_partitions_witness :
  exists grouped,
    group_by_code [Resume.mk 0 "SWE" "a" [] 1; Resume.mk 1 "" "b" [] 1;
                   Resume.mk 2 "SWE" "c" [] 1] = Some grouped /\
    group_of grouped "SWE" = Some [Resume.mk 0 "SWE" "a" [] 1; Resume.mk 2 "SWE" "c" [] 1] /\
    group_of grouped "OTHER" = Some [Resume.mk 1 "" "b" [] 1].
Proof.
  destruct (group_by_code_partitions
              [Resume.mk 0 "SWE" "a" [] 1; Resume.mk 1 "" "b" [] 1;
               Resume.mk 2 "SWE" "c" [] 1]) as (g & H1 & _ & H2).
  { intros r [<-|[<-|[<-|[]]]]; reflexivity. }
  exists g. split; [exact H1|]. split; [exact (H2 "SWE") | exact (H2 "OTHER")].
Defined.

(** X25. The grouping throws (and the request answers 500) exactly when
    some listed document's code is a name inherited from
    [Object.prototype], such as [constructor] or [toString]. *)
Theorem group_by_code_throws_on_inherited_name resumes :
  group_by_code resumes = None <->
  exists r, In r resumes /\ inherited (group_code r) = true.
Proof.
  split.
  - intros H.
    destruct (existsb (fun r => inherited (group_code r)) resumes) eqn:E.
    + apply existsb_exists in E. exact E.
    + exfalso.
      destruct (group_fold_view resumes [] [] (conj (NoDup_nil _) (fun _ => eq_refl)))
        as (acc & H1 & _).
      { intros r Hr. destruct (inherited (group_code r)) eqn:Hi; [|reflexivity].
        assert (existsb (fun r => inherited (group_code r)) resumes = true)
          by (apply existsb_exists; eauto).
        congruence. }
      change (group_by_code resumes = Some acc) in H1. rewrite H in H1. discriminate.
  - intros (r & Hin & Hi). unfold group_by_code.
    assert (K : forall l acc, In r l -> (forall k, In k (map fst acc) -> inherited k = false) ->
                              fold_left group_step l (Some acc) = None).
    { induction l as [|x t IH]; intros acc Hl Hk; [contradiction|].
      cbn [fold_left]. unfold group_step at 2. cbv zeta.
      destruct (group_of acc (group_code x)) as [lx|] eqn:E.
      - destruct Hl as [->|Hl].
        + exfalso. assert (In (group_code r) (map fst acc)).
          { destruct (in_dec string_dec (group_code r) (map fst acc)) as [i|n];
              [exact i|]. apply group_of_keys in n. congruence. }
          specialize (Hk _ H). congruence.
        + apply IH; [exact Hl|]. now rewrite group_push_keys.
      - destruct (inherited (group_code x)) eqn:Hx; [apply group_step_none|].
        destruct Hl as [->|Hl]; [congruence|].
        apply IH; [exact Hl|]. intros k Hk'. rewrite map_app in Hk'.
        apply in_app_or in Hk'. destruct Hk' as [Hk'|[<-|[]]]; [now apply Hk | exact Hx]. }
    apply K; [exact Hin | intros k []].
Qed.

(* ================================================================= *)
(** * Migrations *)

Lemma bind_inv {A B} (m : M A) (k : A -> M B) f db r f' db' :
  bind m k f db = ((r, f'), db') ->
  (r = None /\ m f db = ((None, f'), db')) \/
  (exists a f1 db1, m f db = ((Some a, f1), db1) /\ k a f1 db1 = ((r, f'), db')).
Proof.
  unfold bind. destruct (m f db) as [[[a|] f1] db1]; intros H.
  - right. eauto.
  - left. inversion H; subst. auto.
Qed.

Lemma db_call_inv {A} (op : Db -> A * Db) f db r f' db' :
  db_call op f db = ((r, f'), db') ->
  (r = None /\ db' = db) \/ (r = Some (fst (op db)) /\ db' = snd (op db)).
Proof.
  unfold db_call. destruct f as [[|n]|]; intros H.
  - inversion H; subst. now left.
  - destruct (op db) as [a db1]. inversion H; subst. now right.
  - destruct (op db) as [a db1]. inversion H; subst. now right.
Qed.

Lemma db_call_ok {A} (op : Db -> A * Db) db :
  db_call op None db = ((Some (fst (op db)), None), snd (op db)).
Proof. unfold db_call. now destruct (op db). Qed.

Lemma bind_ok {A B} (m : M A) (k : A -> M B) db a db1 :
  m None db = ((Some a, None), db1) -> bind m k None db = k a None db1.
Proof. unfold bind. now intros ->. Qed.

(** What a piece of migration code may do to the database: the log and
    the version documents as they were, no index lost. *)
Lemma createIndex_effect c k u f db r f' db' :
  createIndex c k u f db = ((r, f'), db') ->
  _migrations db' = _migrations db /\ resumeversions db' = resumeversions db /\
  incl (indexes db) (indexes db') /\
  (r <> None -> In (Build_Index c k u) (indexes db')).
Proof.
  intros H. apply db_call_inv in H. destruct H as [[-> ->]|[-> ->]].
  - repeat split; [apply incl_refl | congruence].
  - cbv zeta. destruct (in_dec Index_eq_dec _ (indexes db)) as [i|n];
      cbn [fst snd _migrations resumeversions indexes].
    + repeat split; [apply incl_refl | intros _; exact i].
    + repeat split; [apply incl_appl, incl_refl | intros _; apply in_or_app; right; now left].
Qed.

Ltac index_step H :=
  let a := fresh "a" in let f1 := fresh "f" in let db1 := fresh "db" in
  let H1 := fresh "H" in let L := fresh "L" in let V := fresh "V" in
  let I := fresh "I" in let N := fresh "N" in
  apply bind_inv in H;
  destruct H as [[-> H]|(a & f1 & db1 & H1 & H)];
  [apply createIndex_effect in H; destruct H as (L & V & I & N)
  |apply createIndex_effect in H1; destruct H1 as (L & V & I & N)].

Ltac incl_chain :=
  first [assumption | apply incl_refl | eapply incl_tran; [eassumption | incl_chain]].

Lemma m001_up_effect f db r f' db' :
  m001_up f db = ((r, f'), db') ->
  _migrations db' = _migrations db /\ resumeversions db' = resumeversions db /\
  incl (indexes db) (indexes db') /\
  (r <> None -> has_initial_schema db').
Proof.
  unfold m001_up. intros H.
  do 5 (index_step H;
        [split; [congruence | split; [congruence | split;
           [incl_chain | intros Hn; exfalso; apply Hn; reflexivity]]]|]).
  apply createIndex_effect in H. destruct H as (L5 & V5 & I5 & N5).
  split; [congruence|]. split; [congruence|]. split.
  - incl_chain.
  - intros Hr i Hi. cbn [In] in Hi.
    destruct Hi as [<-|[<-|[<-|[<-|[<-|[<-|[]]]]]]].
    + apply I5, I3, I2, I1, I0, N. discriminate.
    + apply I5, I3, I2, I1, N0. discriminate.
    + apply I5, I3, I2, N1. discriminate.
    + apply I5, I3, N2. discriminate.
    + apply I5, N3. discriminate.
    + apply N5, Hr.
Qed.

Lemma backfill_tracked d : own (backfill d) "changed_sections" <> None.
Proof.
  unfold backfill, set_field.
  destruct (own d "changed_sections") eqn:E; [congruence|].
  rewrite !own_spread_set. cbn. discriminate.
Qed.

Lemma m002_up_effect f db r f' db' :
  m002_up f db = ((r, f'), db') ->
  _migrations db' = _migrations db /\ incl (indexes db) (indexes db') /\
  (r <> None -> has_edit_tracking db' /\
                resumeversions db' = map backfill (resumeversions db)).
Proof.
  unfold m002_up. intros H. apply bind_inv in H.
  destruct H as [[-> H]|(a & f1 & db1 & H1 & H)].
  - apply db_call_inv in H. destruct H as [[_ ->]|[H _]]; [|discriminate].
    split; [reflexivity | split; [apply incl_refl | intros Hn; exfalso; apply Hn; reflexivity]].
  - apply db_call_inv in H1. destruct H1 as [[H1 _]|[_ ->]]; [discriminate|].
    apply createIndex_effect in H. cbn [snd _migrations indexes resumeversions] in H.
    destruct H as (L & V & I & N). split; [exact L|]. split; [exact I|].
    intros Hr. split; [split; [|now apply N] | exact V].
    intros d Hd. rewrite V in Hd. apply in_map_iff in Hd.
    destruct Hd as (d0 & <- & _). apply backfill_tracked.
Qed.

Lemma recorded_app n log m :
  recorded n (log ++ [m]) = recorded n log || String.eqb n m.
Proof. unfold recorded. rewrite existsb_app. simpl. now rewrite orb_false_r. Qed.

(** One round of the loop, for a migration whose [up] keeps the log and
    the indexes and establishes [P], a property that later index creation
    keeps. *)
Lemma round_effect (m : Migration.t) (P : Db -> Prop)
      (rest : list string -> M (list string)) applied f db r f' db' :
  (forall f db r f' db', Migration.up m f db = ((r, f'), db') ->
     _migrations db' = _migrations db /\ incl (indexes db) (indexes db') /\
     (r <> None -> P db')) ->
  (forall log idx vs, P (mkDb log idx vs) -> P (mkDb (log ++ [Migration.name m]) idx vs)) ->
  bind (findOne_migration (Migration.name m))
       (fun existing =>
          if existing then rest applied
          else perform _ <- Migration.up m ;;
               perform _ <- insertOne_migration (Migration.name m) ;;
               rest (applied ++ [Migration.name m])%list) f db = ((r, f'), db') ->
  (r = None /\ _migrations db' = _migrations db /\ incl (indexes db) (indexes db')) \/
  (exists f1, recorded (Migration.name m) (_migrations db) = true /\
              rest applied f1 db = ((r, f'), db')) \/
  (exists f1 db1, recorded (Migration.name m) (_migrations db) = false /\
                  _migrations db1 = (_migrations db ++ [Migration.name m])%list /\
                  incl (indexes db) (indexes db1) /\ P db1 /\
                  rest (applied ++ [Migration.name m])%list f1 db1 = ((r, f'), db')).
Proof.
  intros Hup Hlog H. apply bind_inv in H.
  destruct H as [[-> H]|(existing & f1 & db1 & H1 & H)].
  - apply db_call_inv in H. destruct H as [[_ ->]|[H _]]; [|discriminate].
    left. split; [reflexivity | split; [reflexivity | apply incl_refl]].
  - apply db_call_inv in H1. destruct H1 as [[H1 _]|[E ->]]; [discriminate|].
    cbn [fst snd] in *. inversion E as [E']; clear E.
    destruct existing.
    + right. left. exists f1. split; [now symmetry | exact H].
    + apply bind_inv in H. destruct H as [[-> H]|([] & f2 & db2 & H2 & H)].
      * apply Hup in H. left. tauto.
      * apply Hup in H2. destruct H2 as (L2 & I2 & P2).
        apply bind_inv in H. destruct H as [[-> H]|([] & f3 & db3 & H3 & H)].
        -- apply db_call_inv in H. destruct H as [[_ ->]|[H _]]; [|discriminate].
           left. tauto.
        -- apply db_call_inv in H3. destruct H3 as [[H3 _]|[_ ->]]; [discriminate|].
           cbn [snd] in H. right. right. eexists. eexists.
           split; [now symmetry|]. split; [|split; [|split; [|exact H]]].
           ++ cbn [_migrations]. now rewrite L2.
           ++ exact I2.
           ++ destruct db2 as [log2 idx2 vs2]. cbn [_migrations indexes resumeversions].
              apply (Hlog log2 idx2 vs2). apply P2. discriminate.
Qed.

Lemma createIndex_ok c k u db :
  exists idx', createIndex c k u None db
               = ((Some tt, None), mkDb (_migrations db) idx' (resumeversions db)).
Proof.
  unfold createIndex. rewrite db_call_ok. cbv zeta. destruct db as [log idx vs].
  cbn [_migrations indexes resumeversions].
  destruct (in_dec Index_eq_dec _ idx); eexists; cbn [fst snd]; reflexivity.
Qed.

Ltac index_ok :=
  match goal with
  | |- context [bind (createIndex ?c ?k ?u) _ None ?db] =>
      let idx := fresh "idx" in let E := fresh "E" in
      destruct (createIndex_ok c k u db) as (idx & E);
      rewrite (bind_ok _ _ _ _ _ E); clear E;
      cbn [_migrations resumeversions]
  end.

Lemma m001_up_ok db :
  exists idx', m001_up None db
               = ((Some tt, None), mkDb (_migrations db) idx' (resumeversions db)).
Proof.
  unfold m001_up. do 5 index_ok.
  match goal with
  | |- context [createIndex ?c ?k ?u None ?d] =>
      destruct (createIndex_ok c k u d) as (idx' & E)
  end.
  exists idx'. exact E.
Qed.

Lemma m002_up_ok db :
  exists idx', m002_up None db
               = ((Some tt, None),
                  mkDb (_migrations db) idx' (map backfill (resumeversions db))).
Proof.
  unfold m002_up, updateMany.
  rewrite (bind_ok _ _ _ _ _ (db_call_ok _ db)). cbn [fst snd].
  match goal with
  | |- context [createIndex ?c ?k ?u None ?d] =>
      destruct (createIndex_ok c k u d) as (idx' & E)
  end.
  exists idx'. exact E.
Qed.

Lemma run_loop_cons m t applied :
  run_loop (m :: t) applied
  = bind (findOne_migration (Migration.name m))
         (fun existing =>
            if existing then run_loop t applied
            else perform _ <- Migration.up m ;;
                 perform _ <- insertOne_migration (Migration.name m) ;;
                 run_loop t (applied ++ [Migration.name m])%list).
Proof. reflexivity. Qed.

Lemma round_skip m t applied db :
  recorded (Migration.name m) (_migrations db) = true ->
  run_loop (m :: t) applied None db = run_loop t applied None db.
Proof.
  intros E. rewrite run_loop_cons. unfold findOne_migration.
  rewrite (bind_ok _ _ _ _ _ (db_call_ok _ db)). cbn [fst snd]. now rewrite E.
Qed.

Lemma round_run m t applied db idx' vs' :
  recorded (Migration.name m) (_migrations db) = false ->
  Migration.up m None db = ((Some tt, None), mkDb (_migrations db) idx' vs') ->
  run_loop (m :: t) applied None db
  = run_loop t (applied ++ [Migration.name m])%list None
             (mkDb (_migrations db ++ [Migration.name m]) idx' vs').
Proof.
  intros E U. rewrite run_loop_cons. unfold findOne_migration.
  rewrite (bind_ok _ _ _ _ _ (db_call_ok _ db)). cbn [fst snd]. rewrite E.
  rewrite (bind_ok _ _ _ _ _ U). unfold insertOne_migration.
  rewrite (bind_ok _ _ _ _ _ (db_call_ok _ _)). reflexivity.
Qed.

Lemma pending_cases log :
  pending log
  = ((if recorded "001_initial_schema" log then [] else ["001_initial_schema"]) ++
     (if recorded "002_add_edit_tracking" log then [] else ["002_add_edit_tracking"]))%list.
Proof.
  unfold pending, ALL_MIGRATIONS. cbn [map filter Migration.name m001 m002].
  destruct (recorded "001_initial_schema" log), (recorded "002_add_edit_tracking" log);
    reflexivity.
Qed.

Lemma nothing_pending db :
  recorded "001_initial_schema" (_migrations db) = true ->
  recorded "002_add_edit_tracking" (_migrations db) = true ->
  pending (_migrations db) = [] /\
  runMigrations None db = ((Some [], None), db).
Proof.
  intros E1 E2. split.
  - rewrite pending_cases, E1, E2. reflexivity.
  - unfold runMigrations, ALL_MIGRATIONS. rewrite !round_skip by assumption. reflexivity.
Qed.

(** X26. With no failing call, [runMigrations] applies the registered
    migrations that are not yet recorded, in order of registration, returns
    their names and records them; nothing is pending afterwards, and a
    second run applies nothing and leaves the database as it is. *)
Theorem runMigrations_applies_pending db :
  exists db',
    runMigrations None db = ((Some (pending (_migrations db)), None), db') /\
    _migrations db' = (_migrations db ++ pending (_migrations db))%list /\
    pending (_migrations db') = [] /\
    runMigrations None db' = ((Some [], None), db').
Proof.
  rewrite pending_cases. unfold runMigrations at 1. unfold ALL_MIGRATIONS.
  destruct (recorded "001_initial_schema" (_migrations db)) eqn:E1;
    destruct (recorded "002_add_edit_tracking" (_migrations db)) eqn:E2;
    cbn [app].
  - exists db. rewrite !round_skip by assumption.
    split; [reflexivity|]. split; [now rewrite app_nil_r|]. now apply nothing_pending.
  - destruct (m002_up_ok db) as (idx2 & U2).
    rewrite round_skip by assumption.
    rewrite (round_run m002 [] [] db idx2 _ E2 U2).
    eexists. split; [reflexivity|]. split; [reflexivity|].
    apply nothing_pending; cbn [_migrations Migration.name m002];
      rewrite recorded_app; [rewrite E1 | rewrite E2]; reflexivity.
  - destruct (m001_up_ok db) as (idx1 & U1).
    rewrite (round_run m001 [m002] [] db idx1 _ E1 U1).
    rewrite round_skip
      by (cbn [_migrations Migration.name m001 m002]; rewrite recorded_app, E2; reflexivity).
    eexists. split; [reflexivity|]. split; [reflexivity|].
    apply nothing_pending; cbn [_migrations Migration.name m001];
      rewrite recorded_app; [rewrite E1 | rewrite E2]; reflexivity.
  - destruct (m001_up_ok db) as (idx1 & U1).
    rewrite (round_run m001 [m002] [] db idx1 _ E1 U1).
    match goal with
    | |- context [run_loop [m002] ?a None ?d] =>
        destruct (m002_up_ok d) as (idx2 & U2);
        rewrite (round_run m002 [] a d idx2 _
                   ltac:(cbn [_migrations Migration.name m001 m002];
                         rewrite recorded_app, E2; reflexivity) U2)
    end.
    eexists. split; [reflexivity|].
    split; [cbn [_migrations Migration.name m001 m002]; now rewrite <- app_assoc|].
    apply nothing_pending; cbn [_migrations Migration.name m001 m002];
      rewrite !recorded_app; [rewrite E1 | rewrite E2]; reflexivity.
Qed.

Lemma last_round_effect applied f db r f' db' :
  run_loop [m002] applied f db = ((r, f'), db') ->
  incl (indexes db) (indexes db') /\
  (_migrations db' = _migrations db \/
   (recorded "002_add_edit_tracking" (_migrations db) = false /\
    _migrations db' = (_migrations db ++ ["002_add_edit_tracking"])%list /\
    has_edit_tracking db')).
Proof.
  intros H. rewrite run_loop_cons in H.
  apply (round_effect m002 has_edit_tracking (run_loop [])) in H.
  - destruct H as [(_ & L & I)|[(f1 & E & H)|(f1 & db1 & E & L & I & P & H)]].
    + split; [exact I | now left].
    + inversion H; subst. split; [apply incl_refl | now left].
    + inversion H; subst. split; [exact I|]. right. auto.
  - intros f0 db0 r0 f0' db0' H0. apply m002_up_effect in H0.
    destruct H0 as (L & I & K). split; [exact L|]. split; [exact I|].
    intros Hr. exact (proj1 (K Hr)).
  - intros log idx vs P. exact P.
Qed.

(** X27. Whichever call of a migration run throws, the log grows by a
    prefix of the pending names only, and a name the run has recorded
    stands for a migration whose [up] went through: the indexes of the
    initial schema exist, respectively every version document has its
    [changed_sections] and the index on [change_type] exists. *)
Theorem recorded_migration_was_applied fault db r f' db' :
  runMigrations fault db = ((r, f'), db') ->
  (exists k, _migrations db'
             = (_migrations db ++ firstn k (pending (_migrations db)))%list) /\
  (recorded "001_initial_schema" (_migrations db') = true ->
   recorded "001_initial_schema" (_migrations db) = true \/ has_initial_schema db') /\
  (recorded "002_add_edit_tracking" (_migrations db') = true ->
   recorded "002_add_edit_tracking" (_migrations db) = true \/ has_edit_tracking db').
Proof.
  intros H. unfold runMigrations, ALL_MIGRATIONS in H. rewrite run_loop_cons in H.
  apply (round_effect m001 has_initial_schema (run_loop [m002])) in H.
  2:{ intros f0 db0 r0 f0' db0' H0. apply m001_up_effect in H0. tauto. }
  2:{ intros log idx vs P. exact P. }
  rewrite pending_cases. cbn [Migration.name m001 m002] in H.
  destruct H as [(_ & L & I)|[(f1 & E & H)|(f1 & db1 & E & L & I & P & H)]].
  - rewrite L. split; [exists 0; cbn; now rewrite app_nil_r|]. split; auto.
  - apply last_round_effect in H. destruct H as [I [L|(E2 & L & T)]].
    + rewrite L. split; [exists 0; cbn; now rewrite app_nil_r|]. split; auto.
    + rewrite L, E, E2. cbn [negb]. split; [exists 1; reflexivity|]. split; auto.
  - apply last_round_effect in H. destruct H as [I2 [L2|(E2 & L2 & T)]].
    + rewrite L2, L, E. cbn [negb]. split; [exists 1; reflexivity|].
      split; [right; intros i Hi; apply I2, P, Hi|].
      rewrite recorded_app. intros R. apply orb_true_iff in R.
      destruct R as [R|R]; [now left | discriminate R].
    + rewrite L in E2. rewrite recorded_app in E2. apply orb_false_iff in E2.
      destruct E2 as [E2 _].
      rewrite L2, L, E, E2. cbn [negb].
      split; [exists 2; now rewrite <- app_assoc|].
      split; [right; intros i Hi; apply I2, P, Hi | now right].
Qed.

Lemma recorded_migration_was_applied_witness :
  let db := mkDb [] [] [[("version_number", JNum 1)]] in
  exists db',
    runMigrations (Some 9) db = ((None, None), db') /\
    _migrations db' = ["001_initial_schema"] /\ has_initial_schema db'.
Proof.
  intros db. eexists. split; [reflexivity|]. split; [reflexivity|].
  destruct (proj1 (proj2 (recorded_migration_was_applied (Some 9) db _ _ _ eq_refl))
              eq_refl) as [H|H]; [discriminate H | exact H].
Defined.

Lemma own_unset d k k' :
  own (unset_field d k) k' = if String.eqb k' k then None else own d k'.
Proof.
  unfold unset_field. induction d as [|[k0 v0] t IH]; simpl.
  - now destruct (String.eqb k' k).
  - destruct (String.eqb_spec k0 k) as [->|NE]; simpl.
    + rewrite IH. destruct (String.eqb_spec k' k); reflexivity.
    + rewrite IH. destruct (String.eqb_spec k' k0) as [->|NE'].
      * destruct (String.eqb_spec k0 k); [contradiction | reflexivity].
      * reflexivity.
Qed.

Lemma unset_absent d k : own d k = None -> unset_field d k = d.
Proof.
  unfold unset_field. induction d as [|[k0 v0] t IH]; simpl; [reflexivity|].
  destruct (String.eqb_spec k k0) as [->|NE]; [discriminate|].
  intros H. destruct (String.eqb_spec k0 k); [congruence|]. simpl. now rewrite IH.
Qed.

Lemma unset_set_same d k v : unset_field (set_field d k v) k = unset_field d k.
Proof.
  unfold unset_field, set_field. induction d as [|[k0 v0] t IH]; simpl.
  - now rewrite String.eqb_refl.
  - destruct (String.eqb_spec k0 k) as [->|NE]; simpl.
    + now rewrite String.eqb_refl.
    + destruct (String.eqb_spec k0 k); [contradiction|]. simpl. now rewrite IH.
Qed.

Lemma unset_set_other d k v k' :
  k <> k' -> unset_field (set_field d k v) k' = set_field (unset_field d k') k v.
Proof.
  intros NE. unfold unset_field, set_field. induction d as [|[k0 v0] t IH]; simpl.
  - destruct (String.eqb_spec k k'); [contradiction | reflexivity].
  - destruct (String.eqb_spec k0 k) as [->|NE0]; simpl.
    + destruct (String.eqb_spec k k'); [contradiction|]. simpl.
      now rewrite String.eqb_refl.
    + destruct (String.eqb_spec k0 k') as [->|NE1]; simpl.
      * exact IH.
      * destruct (String.eqb_spec k0 k); [contradiction|]. now rewrite IH.
Qed.

Lemma untrack_backfill d : untrack (backfill d) = untrack d.
Proof.
  unfold backfill. destruct (own d "changed_sections") eqn:E; [reflexivity|].
  unfold untrack.
  rewrite (unset_set_other _ "change_type" _ "changed_sections") by discriminate.
  rewrite (unset_set_other _ "change_summary" _ "changed_sections") by discriminate.
  rewrite unset_set_same.
  rewrite (unset_set_other _ "change_type" _ "change_summary") by discriminate.
  rewrite unset_set_same.
  now rewrite unset_set_same.
Qed.

(** X28. The backfill of migration 002 on one version document: a
    document that has [changed_sections] is left as it is; one that lacks
    it gets [changed_sections] [], [change_summary] null and [change_type]
    edit (whatever type or summary it had); no other field changes; and
    backfilling twice is backfilling once. *)
Theorem backfill_spec d :
  (own d "changed_sections" <> None -> backfill d = d) /\
  (own d "changed_sections" = None ->
   own (backfill d) "changed_sections" = Some (JArr []) /\
   own (backfill d) "change_summary" = Some JNull /\
   own (backfill d) "change_type" = Some (JStr "edit")) /\
  (forall k, ~ In k tracking_fields -> own (backfill d) k = own d k) /\
  backfill (backfill d) = backfill d.
Proof.
  split; [|split; [|split]].
  - unfold backfill. destruct (own d "changed_sections"); [reflexivity | congruence].
  - intros E. unfold backfill, set_field. rewrite E. rewrite !own_spread_set.
    repeat split.
  - intros k Hk. unfold backfill, set_field.
    destruct (own d "changed_sections"); [reflexivity|].
    rewrite !own_spread_set.
    destruct (String.eqb_spec k "change_type") as [->|_];
      [exfalso; apply Hk; cbn; tauto|].
    destruct (String.eqb_spec k "change_summary") as [->|_];
      [exfalso; apply Hk; cbn; tauto|].
    destruct (String.eqb_spec k "changed_sections") as [->|_];
      [exfalso; apply Hk; cbn; tauto|].
    reflexivity.
  - unfold backfill at 1. destruct (own (backfill d) "changed_sections") eqn:E;
      [reflexivity|]. exfalso. exact (backfill_tracked d E).
Qed.

(** X29. [down] after [up] of migration 002 gives back, field for field
    and in the same order, a version document that had none of the three
    tracking fields. *)
Theorem down_undoes_up_on_untracked d :
  (forall k, In k tracking_fields -> own d k = None) ->
  untrack (backfill d) = d.
Proof.
  intros H. rewrite untrack_backfill. unfold untrack.
  assert (H1 : own d "changed_sections" = None) by (apply H; cbn; tauto).
  assert (H2 : own d "change_summary" = None) by (apply H; cbn; tauto).
  assert (H3 : own d "change_type" = None) by (apply H; cbn; tauto).
  rewrite (unset_absent d "changed_sections" H1).
  rewrite (unset_absent d "change_summary" H2).
  now rewrite (unset_absent d "change_type" H3).
Qed.

Lemma down_undoes_up_on_untracked_witness :
  untrack (backfill [("resume_id", JNum 0); ("version_number", JNum 1);
                     ("data", JObj [])])
  = [("resume_id", JNum 0); ("version_number", JNum 1); ("data", JObj [])].
Proof.
  apply down_undoes_up_on_untracked.
  intros k [<-|[<-|[<-|[]]]]; reflexivity.
Defined.

Lemma runMigrations_fresh db :
  _migrations db = [] ->
  exists idx',
    runMigrations None db
    = ((Some ["001_initial_schema"; "002_add_edit_tracking"], None),
       mkDb ["001_initial_schema"; "002_add_edit_tracking"] idx'
            (map backfill (resumeversions db))).
Proof.
  intros L. unfold runMigrations, ALL_MIGRATIONS.
  destruct (m001_up_ok db) as (idx1 & U1).
  rewrite (round_run m001 [m002] [] db idx1 _ ltac:(rewrite L; reflexivity) U1).
  match goal with
  | |- context [run_loop [m002] ?a None ?d] =>
      destruct (m002_up_ok d) as (idx2 & U2);
      rewrite (round_run m002 [] a d idx2 _ ltac:(cbn; rewrite L; reflexivity) U2)
  end.
  exists idx2. cbn [run_loop ret _migrations resumeversions Migration.name m001 m002 app].
  rewrite L. reflexivity.
Qed.

(** X30. With no failing call, [rollbackAll] empties the log, strips the
    tracking fields from every version document and drops the indexes of
    the five core collections; a migration run after it applies both
    migrations again, and then every version document is recorded as an
    edit with no changed sections, whatever it was before. *)
Theorem rollbackAll_then_migrate db :
  exists db1 db2,
    rollbackAll None db = ((Some tt, None), db1) /\
    _migrations db1 = [] /\
    resumeversions db1 = map untrack (resumeversions db) /\
    (forall i, In i (indexes db1) ->
       In i (indexes db) /\
       ~ In (on_collection i)
            ["users"; "resumes"; "resumeversions"; "generations"; "uploads"]) /\
    runMigrations None db1
    = ((Some ["001_initial_schema"; "002_add_edit_tracking"], None), db2) /\
    List.length (resumeversions db2) = List.length (resumeversions db) /\
    forall d, In d (resumeversions db2) ->
      own d "changed_sections" = Some (JArr []) /\
      own d "change_type" = Some (JStr "edit").
Proof.
  eexists.
  assert (R : rollbackAll None db
              = ((Some tt, None),
                 mkDb []
                      (filter (fun i => negb (String.eqb (on_collection i) "uploads"))
                      (filter (fun i => negb (String.eqb (on_collection i) "generations"))
                      (filter (fun i => negb (String.eqb (on_collection i) "resumeversions"))
                      (filter (fun i => negb (String.eqb (on_collection i) "resumes"))
                      (filter (fun i => negb (String.eqb (on_collection i) "users"))
                              (indexes db))))))
                      (map untrack (resumeversions db)))) by reflexivity.
  destruct (runMigrations_fresh
              (mkDb []
                    (filter (fun i => negb (String.eqb (on_collection i) "uploads"))
                    (filter (fun i => negb (String.eqb (on_collection i) "generations"))
                    (filter (fun i => negb (String.eqb (on_collection i) "resumeversions"))
                    (filter (fun i => negb (String.eqb (on_collection i) "resumes"))
                    (filter (fun i => negb (String.eqb (on_collection i) "users"))
                            (indexes db))))))
                    (map untrack (resumeversions db))) eq_refl) as (idx' & M).
  eexists. split; [exact R|]. split; [reflexivity|]. split; [reflexivity|].
  split; [|split; [exact M|split]].
  - cbn [indexes]. intros i Hi.
    repeat (apply filter_In in Hi; let N := fresh "N" in destruct Hi as [Hi N];
            apply negb_true_iff, String.eqb_neq in N).
    split; [exact Hi|]. cbn [In]. intros [E|[E|[E|[E|[E|[]]]]]]; congruence.
  - cbn [resumeversions]. now rewrite !length_map.
  - cbn [resumeversions]. intros d Hd. apply in_map_iff in Hd.
    destruct Hd as (d1 & <- & Hd1). apply in_map_iff in Hd1.
    destruct Hd1 as (d0 & <- & _).
    assert (E : own (untrack d0) "changed_sections" = None).
    { unfold untrack. rewrite !own_unset. reflexivity. }
    unfold backfill, set_field. rewrite E. rewrite !own_spread_set. split; reflexivity.
Qed.
